(** * Asynkron.Palette: colour conversions, shade ramps and hue strategies

    A shallow embedding of [src/lib/color.js], [src/lib/shades.js],
    [src/lib/strategies.js], [src/lib/names.js] and of [isValidHex],
    [fillLargestGaps], [parseArgs] and [main] from [src/cli.js].  Of [main]
    the embedding keeps how it ends and which ramps it prints under which
    names, not the text it writes to the terminal.

    Number model.  A JavaScript number is an IEEE-754 double; here it is a
    real number of the Standard Library ([R]): arithmetic is exact, there is
    no rounding error, no signed zero, no infinity and no NaN.  Where the
    source can meet NaN (a malformed colour string) or would divide by zero,
    the embedding says so explicitly at that place.  Integers that the source
    keeps apart from fractional values (channel bytes, counts, shade levels,
    array indices) are [Z] or [nat].  They are unbounded and so are the
    lists that stand for arrays: the limits of the source (an array holds at
    most [2^32 - 1] elements, an integer is exact up to [2^53]) are not part
    of the definitions; a theorem that needs one carries it as a hypothesis,
    named [MAX_ARRAY_LENGTH] or [MAX_EXACT_INTEGER].

    Strings are [string]s of [ascii] characters, one per UTF-16 code unit, so
    the model covers ASCII input. *)

From Stdlib Require Import Reals Lra Lia ZArith List String Ascii Bool.
From Stdlib Require Import Sorting.Sorted Sorting.Permutation.
From Stdlib Require Import DecimalString DecimalZ DecimalPos FinFun.
Import ListNotations.

Local Open Scope R_scope.

(** ** The built-in operations the sources use *)

Module JS.

Local Open Scope string_scope.

(** [Math.round]: the nearest integer, halves going up. *)
Definition Math_round (x : R) : Z := Int_part (x + / 2).

(** [Math.cbrt]: the real cube root, odd in its argument. *)
Definition Math_cbrt (x : R) : R :=
  if Rlt_dec 0 x then Rpower x (/ 3)
  else if Rlt_dec x 0 then - Rpower (- x) (/ 3)
  else 0.

(** [Math.atan2 y x], in (-PI, PI], with [atan2 0 0 = 0]. *)
Definition Math_atan2 (y x : R) : R :=
  if Rlt_dec 0 x then atan (y / x)
  else if Rlt_dec x 0 then
    (if Rle_dec 0 y then atan (y / x) + PI else atan (y / x) - PI)
  else if Rlt_dec 0 y then PI / 2
  else if Rlt_dec y 0 then - (PI / 2)
  else 0.

(** Truncation toward zero, and the remainder operator [a % b], whose
    result takes the sign of the dividend. *)
Definition trunc (x : R) : Z :=
  if Rle_dec 0 x then Int_part x else (- Int_part (- x))%Z.

Definition rem (a b : R) : R := a - b * IZR (trunc (a / b)).

(** [String.prototype.replace(c, '')]: the first occurrence of the
    character is removed. *)
Fixpoint remove_first (c : ascii) (s : string) : string :=
  match s with
  | EmptyString => EmptyString
  | String d s' => if Ascii.eqb c d then s' else String d (remove_first c s')
  end.

(** [s.slice(a, b)] for [0 <= a <= b]; indices past the end are clamped. *)
Definition slice (a b : nat) (s : string) : string := substring a (b - a) s.

(** [s[i]] as a one-character string; past the end the source would get
    [undefined], which no caller below can reach (the length is checked
    first). *)
Definition char_at (i : nat) (s : string) : string := substring i 1 s.

Definition hex_value (c : ascii) : option Z :=
  let n := Z.of_N (N_of_ascii c) in
  if ((48 <=? n) && (n <=? 57))%Z then Some (n - 48)%Z
  else if ((97 <=? n) && (n <=? 102))%Z then Some (n - 87)%Z
  else if ((65 <=? n) && (n <=? 70))%Z then Some (n - 55)%Z
  else None.

Definition is_space (c : ascii) : bool :=
  let n := N_of_ascii c in
  (((9 <=? n) && (n <=? 13)) || (n =? 32))%N.

Fixpoint skip_spaces (s : string) : string :=
  match s with
  | String c s' => if is_space c then skip_spaces s' else s
  | EmptyString => EmptyString
  end.

(** The longest prefix of hexadecimal digits, read as a number; [acc] is
    [None] until a digit has been seen. *)
Fixpoint parse_digits (s : string) (acc : option Z) : option Z :=
  match s with
  | EmptyString => acc
  | String c s' =>
      match hex_value c with
      | Some d =>
          parse_digits s'
            (Some (16 * match acc with Some a => a | None => 0 end + d)%Z)
      | None => acc
      end
  end.

Definition strip_0x (s : string) : string :=
  match s with
  | String "0" (String "x" s') => s'
  | String "0" (String "X" s') => s'
  | _ => s
  end.

(** [parseInt(s, 16)]: leading white space, a sign and a [0x] prefix are
    skipped, then the longest run of hexadecimal digits is read; [None] is
    NaN (no digit). *)
Definition parseInt16 (s : string) : option Z :=
  let s := skip_spaces s in
  let '(sign, s) :=
    match s with
    | String "-" s' => ((-1)%Z, s')
    | String "+" s' => (1%Z, s')
    | _ => (1%Z, s)
    end in
  match parse_digits (strip_0x s) None with
  | Some n => Some (sign * n)%Z
  | None => None
  end.

Definition hex_digit (d : Z) : ascii :=
  if (d <? 10)%Z then ascii_of_N (Z.to_N (48 + d))
  else ascii_of_N (Z.to_N (87 + d)).

Fixpoint digits16 (fuel : nat) (n : Z) (acc : string) : string :=
  match fuel with
  | O => acc
  | S fuel' =>
      let acc' := String (hex_digit (n mod 16)) acc in
      if (n / 16 =? 0)%Z then acc' else digits16 fuel' (n / 16) acc'
  end.

(** [n.toString(16)] for an integer [n]: lowercase digits, no padding.
    A number below [2 ^ k] has at most [k] digits, so the fuel is enough. *)
Definition toString16 (n : Z) : string :=
  if (n <? 0)%Z
  then "-" ++ digits16 (S (Z.to_nat (Z.log2 (- n)))) (- n) ""
  else digits16 (S (Z.to_nat (Z.log2 n))) n "".

Fixpoint repeat_char (c : ascii) (n : nat) : string :=
  match n with
  | O => EmptyString
  | S n' => String c (repeat_char c n')
  end.

(** [s.padStart(len, c)] *)
Definition padStart (len : nat) (c : ascii) (s : string) : string :=
  repeat_char c (len - String.length s) ++ s.

End JS.

(** ** [src/lib/color.js] *)

Module Color.

Import JS.

(** The three channels; [None] when [parseInt] gives NaN for one of them. *)
Definition hexToRgb (hex : string) : option (Z * Z * Z) :=
  let hex := remove_first "#" hex in
  let hex :=
    if Nat.eqb (String.length hex) 3
    then (char_at 0 hex ++ char_at 0 hex ++ char_at 1 hex ++ char_at 1 hex
            ++ char_at 2 hex ++ char_at 2 hex)%string
    else hex in
  match parseInt16 (slice 0 2 hex), parseInt16 (slice 2 4 hex),
        parseInt16 (slice 4 6 hex) with
  | Some r, Some g, Some b => Some (r, g, b)
  | _, _, _ => None
  end.

Definition clamp (v : R) : Z := Z.max 0 (Z.min 255 (Math_round v)).

Definition rgbToHex (r g b : R) : string :=
  ("#" ++ String.concat ""
            (map (fun v => padStart 2 "0" (toString16 (clamp v))) [r; g; b]))%string.

(** *** sRGB gamma.  [x ** 2.4] and [x ** (1 / 2.4)] are [Rpower]: where
    they are evaluated the base is positive. *)

Definition srgbToLinear (c : R) : R :=
  let c := c / 255 in
  if Rle_dec c 0.04045 then c / 12.92 else Rpower ((c + 0.055) / 1.055) 2.4.

Definition linearToSrgb (c : R) : R :=
  let c := Rmax 0 (Rmin 1 c) in
  (if Rle_dec c 0.0031308 then c * 12.92
   else 1.055 * Rpower c (1 / 2.4) - 0.055) * 255.

(** *** OKLCH *)

Definition rgbToOklch (r g b : R) : R * R * R :=
  let lr := srgbToLinear r in
  let lg := srgbToLinear g in
  let lb := srgbToLinear b in
  let l := 0.4122214708 * lr + 0.5363325363 * lg + 0.0514459929 * lb in
  let m := 0.2119034982 * lr + 0.6806995451 * lg + 0.1073969566 * lb in
  let s := 0.0883024619 * lr + 0.2817188376 * lg + 0.6299787005 * lb in
  let l_ := Math_cbrt l in
  let m_ := Math_cbrt m in
  let s_ := Math_cbrt s in
  let L := 0.2104542553 * l_ + 0.7936177850 * m_ - 0.0040720468 * s_ in
  let A := 1.9779984951 * l_ - 2.4285922050 * m_ + 0.4505937099 * s_ in
  let B := 0.0259040371 * l_ + 0.7827717662 * m_ - 0.8086757660 * s_ in
  let C := sqrt (A * A + B * B) in
  let H := Math_atan2 B A * 180 / PI in
  let H := if Rlt_dec H 0 then H + 360 else H in
  (L, C, H).

(** The linear-light channels [lr], [lg], [lb] of [oklchToRgb], before
    [linearToSrgb] is applied to them; [x ** 3] is the cube. *)
Definition oklchToLinear (L C H : R) : R * R * R :=
  let hRad := H * PI / 180 in
  let A := C * cos hRad in
  let B := C * sin hRad in
  let l_ := L + 0.3963377774 * A + 0.2158037573 * B in
  let m_ := L - 0.1055613458 * A - 0.0638541728 * B in
  let s_ := L - 0.0894841775 * A - 1.2914855480 * B in
  let l := l_ ^ 3 in
  let m := m_ ^ 3 in
  let s := s_ ^ 3 in
  let lr := 4.0767416621 * l - 3.3077115913 * m + 0.2309699292 * s in
  let lg := -1.2684380046 * l + 2.6097574011 * m - 0.3413193965 * s in
  let lb := -0.0041960863 * l - 0.7034186147 * m + 1.7076147010 * s in
  (lr, lg, lb).

Definition oklchToRgb (L C H : R) : R * R * R :=
  let '(lr, lg, lb) := oklchToLinear L C H in
  (linearToSrgb lr, linearToSrgb lg, linearToSrgb lb).

(** *** HSL *)

Definition rgbToHsl (r g b : R) : R * R * R :=
  let r := r / 255 in
  let g := g / 255 in
  let b := b / 255 in
  let max := Rmax r (Rmax g b) in
  let min := Rmin r (Rmin g b) in
  let l := (max + min) / 2 in
  if Req_dec_T max min then (0, 0, l)
  else
    let d := max - min in
    let s := if Rlt_dec 0.5 l then d / (2 - max - min) else d / (max + min) in
    let h :=
      if Req_dec_T max r then ((g - b) / d + (if Rlt_dec g b then 6 else 0)) / 6
      else if Req_dec_T max g then ((b - r) / d + 2) / 6
      else ((r - g) / d + 4) / 6 in
    (h * 360, s, l).

Definition hue2rgb (p q t : R) : R :=
  let t := if Rlt_dec t 0 then t + 1 else t in
  let t := if Rlt_dec 1 t then t - 1 else t in
  if Rlt_dec t (1 / 6) then p + (q - p) * 6 * t
  else if Rlt_dec t (1 / 2) then q
  else if Rlt_dec t (2 / 3) then p + (q - p) * (2 / 3 - t) * 6
  else p.

Definition hslToRgb (h s l : R) : Z * Z * Z :=
  let h := h / 360 in
  if Req_dec_T s 0 then
    let v := Math_round (l * 255) in (v, v, v)
  else
    let q := if Rlt_dec l 0.5 then l * (1 + s) else l + s - l * s in
    let p := 2 * l - q in
    (Math_round (hue2rgb p q (h + 1 / 3) * 255),
     Math_round (hue2rgb p q h * 255),
     Math_round (hue2rgb p q (h - 1 / 3) * 255)).

(** *** Convenience wrappers.  A colour string whose channels do not parse
    gives NaN channels in the source; the wrappers that read a string
    return [None] then. *)

Definition hexToHsl (hex : string) : option (R * R * R) :=
  match hexToRgb hex with
  | Some (r, g, b) => Some (rgbToHsl (IZR r) (IZR g) (IZR b))
  | None => None
  end.

Definition hslToHex (h s l : R) : string :=
  let '(r, g, b) := hslToRgb h s l in rgbToHex (IZR r) (IZR g) (IZR b).

Definition hexToOklch (hex : string) : option (R * R * R) :=
  match hexToRgb hex with
  | Some (r, g, b) => Some (rgbToOklch (IZR r) (IZR g) (IZR b))
  | None => None
  end.

Definition oklchToHex (L C H : R) : string :=
  let '(r, g, b) := oklchToRgb L C H in rgbToHex r g b.

End Color.

(** ** [src/lib/shades.js] *)

Module Shades.

Import JS Color.

Definition SHADES : list Z :=
  [50; 100; 200; 300; 400; 500; 600; 700; 800; 900; 950]%Z.

(** How far to interpolate toward the light/dark end (0 = base, 1 = extreme) *)
Definition LIGHTER_T : list (Z * R) :=
  [(50%Z, 0.92); (100%Z, 0.80); (200%Z, 0.62); (300%Z, 0.42); (400%Z, 0.18)].
Definition DARKER_T : list (Z * R) :=
  [(600%Z, 0.18); (700%Z, 0.38); (800%Z, 0.56); (900%Z, 0.76); (950%Z, 0.92)].

Definition LIGHT_END : R := 0.98.
Definition DARK_END : R := 0.10.

(** [table[key]]; [None] is [undefined]. *)
Fixpoint lookup (table : list (Z * R)) (key : Z) : option R :=
  match table with
  | [] => None
  | (k, v) :: rest => if (k =? key)%Z then Some v else lookup rest key
  end.

(** The [(L, C, H)] triple that the body of the [map] callback hands to
    [oklchToHex] for a level other than 500.  [None] stands for the NaN
    that arithmetic on a missing table entry would give. *)
Definition shadeOklch (baseL baseC baseH : R) (shade : Z) : option (R * R * R) :=
  if (shade <? 500)%Z then
    match lookup LIGHTER_T shade with
    | Some t =>
        let L := baseL + (LIGHT_END - baseL) * t in
        let cScale := 1 - t * 0.95 in
        Some (L, baseC * Rmax 0 cScale, baseH)
    | None => None
    end
  else
    match lookup DARKER_T shade with
    | Some t =>
        let L := baseL - (baseL - DARK_END) * t in
        let cScale := 1 - t * 0.65 in
        Some (L, baseC * Rmax 0 cScale, baseH)
    | None => None
    end.

(** What [rgbToHex] prints for three NaN channels: [Math.round], [Math.min]
    and [Math.max] keep NaN, [NaN.toString(16)] is ["NaN"], which is already
    longer than the padding width. *)
Definition NaN_hex : string := "#NaNNaNNaN".

(** One entry of the ramp, [{ shade, hex }], as a pair. *)
Definition generateShades (hex : string) : list (Z * string) :=
  let base := hexToOklch hex in
  map (fun shade =>
         if (shade =? 500)%Z then (shade, hex)
         else
           (shade,
            match base with
            | Some (baseL, baseC, baseH) =>
                match shadeOklch baseL baseC baseH shade with
                | Some (L, C, H) => oklchToHex L C H
                | None => NaN_hex
                end
            | None => NaN_hex
            end))
      SHADES.

End Shades.

(** ** [src/lib/strategies.js] *)

Module Strategies.

Import JS.

Definition norm (h : R) : R := rem (rem h 360 + 360) 360.

(** [l.slice(0, e)]: a negative [e] counts from the end. *)
Definition slice0 {A : Type} (l : list A) (e : Z) : list A :=
  if (e <? 0)%Z then firstn (Z.to_nat (Z.of_nat (List.length l) + e)) l
  else firstn (Z.to_nat e) l.

(** In the source [360 / count] is [Infinity] when [count] is 0; [step] is
    only read inside loops that run for [i < count], so never in that case. *)
Definition fromKeyAngles (anchor : R) (count : Z) (keyAngles : list R) : list R :=
  let hues := map (fun a => norm (anchor + a)) (slice0 keyAngles count) in
  let step := 360 / IZR count in
  hues ++ map (fun i => norm (anchor + INR i * step))
              (seq (List.length hues) (Z.to_nat (count - Z.of_nat (List.length hues)))).

(** [Array.from({ length: count }, ...)].  The source throws a [RangeError]
    for a count of [2^32] or more, the length of an array being at most
    [2^32 - 1]; the embedding has arrays of any length, so what is stated
    here about a returned result is stated for counts below [2^32]. *)
Definition evenly_spaced (anchor : R) (count : Z) : list R :=
  let step := 360 / IZR count in
  map (fun i => norm (anchor + INR i * step)) (seq 0 (Z.to_nat count)).

(** The loop [for (let i = 1; hues.length < count; i++)] of [analogous],
    with the loop state [(i, hues)] threaded through.  Every iteration
    pushes at least one hue, so [count] iterations are enough fuel. *)
Fixpoint analogous_loop (anchor : R) (count : Z) (fuel : nat) (i : Z)
    (hues : list R) : list R :=
  match fuel with
  | O => hues
  | S fuel' =>
      if (Z.of_nat (List.length hues) <? count)%Z then
        let hues1 := hues ++ [norm (anchor + IZR i * 30)] in
        let hues2 :=
          if (Z.of_nat (List.length hues1) <? count)%Z
          then hues1 ++ [norm (anchor - IZR i * 30)]
          else hues1 in
        analogous_loop anchor count fuel' (i + 1) hues2
      else hues
  end.

Definition analogous (anchor : R) (count : Z) : list R :=
  analogous_loop anchor count (Z.to_nat count) 1 [anchor].

Definition complementary (anchor : R) (count : Z) : list R :=
  fromKeyAngles anchor count [0; 180].

Definition split_complementary (anchor : R) (count : Z) : list R :=
  fromKeyAngles anchor count [0; 150; 210].

Definition triadic (anchor : R) (count : Z) : list R :=
  fromKeyAngles anchor count [0; 120; 240].

Definition tetradic (anchor : R) (count : Z) : list R :=
  fromKeyAngles anchor count [0; 90; 180; 270].

(** What a call through the [strategies] object can produce.  Besides a
    hue array these are the results of the functions every object literal
    inherits from [Object.prototype]. *)
Inductive value : Type :=
| Hues (hues : list R)
| Str (s : string)
| Boolean (b : bool)
| NumberObject (x : R).

Inductive error : Type := TypeError.

Inductive completion : Type :=
| Returns (v : value)
| Throws (e : error).

(** The own properties of [strategies], in source order. *)
Inductive strategy : Type :=
| EvenlySpaced | Analogous | Complementary | SplitComplementary | Triadic
| Tetradic.

Definition strategy_name (s : strategy) : string :=
  match s with
  | EvenlySpaced => "evenly-spaced"
  | Analogous => "analogous"
  | Complementary => "complementary"
  | SplitComplementary => "split-complementary"
  | Triadic => "triadic"
  | Tetradic => "tetradic"
  end.

Definition all_strategies : list strategy :=
  [EvenlySpaced; Analogous; Complementary; SplitComplementary; Triadic; Tetradic].

Definition STRATEGY_NAMES : list string := map strategy_name all_strategies.

Definition run (s : strategy) (anchor : R) (count : Z) : list R :=
  match s with
  | EvenlySpaced => evenly_spaced anchor count
  | Analogous => analogous anchor count
  | Complementary => complementary anchor count
  | SplitComplementary => split_complementary anchor count
  | Triadic => triadic anchor count
  | Tetradic => tetradic anchor count
  end.

(** The properties of [Object.prototype], which [strategies], an object
    literal, inherits. *)
Inductive proto_property : Type :=
| P_constructor | P_proto | P_hasOwnProperty | P_isPrototypeOf
| P_propertyIsEnumerable | P_toLocaleString | P_toString | P_valueOf
| P_defineGetter | P_defineSetter | P_lookupGetter | P_lookupSetter.

Definition proto_name (p : proto_property) : string :=
  match p with
  | P_constructor => "constructor"
  | P_proto => "__proto__"
  | P_hasOwnProperty => "hasOwnProperty"
  | P_isPrototypeOf => "isPrototypeOf"
  | P_propertyIsEnumerable => "propertyIsEnumerable"
  | P_toLocaleString => "toLocaleString"
  | P_toString => "toString"
  | P_valueOf => "valueOf"
  | P_defineGetter => "__defineGetter__"
  | P_defineSetter => "__defineSetter__"
  | P_lookupGetter => "__lookupGetter__"
  | P_lookupSetter => "__lookupSetter__"
  end.

Definition all_proto_properties : list proto_property :=
  [P_constructor; P_proto; P_hasOwnProperty; P_isPrototypeOf;
   P_propertyIsEnumerable; P_toLocaleString; P_toString; P_valueOf;
   P_defineGetter; P_defineSetter; P_lookupGetter; P_lookupSetter].

Inductive property : Type :=
| Own (s : strategy)
| Inherited (p : proto_property).

(** [strategies[name]]: an own property first, then the prototype; [None]
    is [undefined]. *)
Definition get (name : string) : option property :=
  match find (fun s => String.eqb (strategy_name s) name) all_strategies with
  | Some s => Some (Own s)
  | None =>
      match find (fun p => String.eqb (proto_name p) name) all_proto_properties with
      | Some p => Some (Inherited p)
      | None => None
      end
  end.

(** [fn(anchorHue, count)] for an inherited [fn], called without a
    receiver in module (strict) code, so [this] is [undefined].
    [__proto__] reads as the prototype object, which is not callable. *)
Definition call_inherited (p : proto_property) (anchorHue : R) : completion :=
  match p with
  | P_constructor => Returns (NumberObject anchorHue)
  | P_toString => Returns (Str "[object Undefined]")
  | P_isPrototypeOf => Returns (Boolean false)
  | P_proto | P_hasOwnProperty | P_propertyIsEnumerable | P_toLocaleString
  | P_valueOf | P_defineGetter | P_defineSetter | P_lookupGetter
  | P_lookupSetter => Throws TypeError
  end.

Definition call (fn : property) (anchorHue : R) (count : Z) : completion :=
  match fn with
  | Own s => Returns (Hues (run s anchorHue count))
  | Inherited p => call_inherited p anchorHue
  end.

(** Every property found is a function or an object, hence truthy: the
    right operand of [||] is taken for [undefined] only. *)
Definition generateHues (anchorHue : R) (count : Z) (strategy : string) : completion :=
  let fn :=
    match get strategy with
    | Some f => f
    | None => Own EvenlySpaced
    end in
  call fn anchorHue count.

End Strategies.

(** ** [src/cli.js]: [isValidHex] and [fillLargestGaps] *)

Module Cli.

Import JS.

(** The character class [[0-9a-fA-F]]. *)
Definition is_hex_digit (c : ascii) : bool :=
  match hex_value c with Some _ => true | None => false end.

Fixpoint all_hex_digits (s : string) : bool :=
  match s with
  | EmptyString => true
  | String c s' => is_hex_digit c && all_hex_digits s'
  end.

(** [/^#([0-9a-fA-F]{3}|[0-9a-fA-F]{6})$/.test(hex)] *)
Definition isValidHex (hex : string) : bool :=
  match hex with
  | EmptyString => false
  | String c digits =>
      Ascii.eqb c "#" && all_hex_digits digits
      && (Nat.eqb (String.length digits) 3 || Nat.eqb (String.length digits) 6)
  end.

(** [[...hues].sort((a, b) => a - b)]: ascending order.  Equal numbers
    cannot be told apart, so any sorting algorithm gives this list. *)
Fixpoint insert (x : R) (l : list R) : list R :=
  match l with
  | [] => [x]
  | y :: l' => if Rle_dec x y then x :: l else y :: insert x l'
  end.

Definition sort (l : list R) : list R := fold_right insert [] l.

(** The gap that follows [sorted[i]]; the last one wraps around. *)
Definition gap_at (sorted : list R) (i : nat) : R :=
  let next := nth ((i + 1) mod List.length sorted) sorted 0 in
  if (i + 1 <? List.length sorted)%nat then next - nth i sorted 0
  else 360 - nth i sorted 0 + nth 0 sorted 0.

(** One iteration of the inner loop on the state [(maxGap, bestMid)]. *)
Definition scan_step (sorted : list R) (st : R * R) (i : nat) : R * R :=
  let '(maxGap, bestMid) := st in
  let gap := gap_at sorted i in
  if Rlt_dec maxGap gap then (gap, rem (nth i sorted 0 + gap / 2) 360)
  else st.

Definition scan (sorted : list R) : R * R :=
  fold_left (scan_step sorted) (seq 0 (List.length sorted)) (0, 0).

Definition bestMid (hues : list R) : R := snd (scan (sort hues)).

(** The outer loop, on the state [(hues, result)]. *)
Fixpoint fill_loop (needed : nat) (hues result : list R) : list R :=
  match needed with
  | O => result
  | S n =>
      let mid := bestMid hues in
      fill_loop n (hues ++ [mid]) (result ++ [mid])
  end.

Definition fillLargestGaps (existingHues : list R) (needed : Z) : list R :=
  fill_loop (Z.to_nat needed) existingHues [].

End Cli.

(** ** Built-in operations used by [names.js] and by the argument parser *)

Module JSText.

Import JS.
Local Open Scope string_scope.

(** A number that may be NaN, for the one variable of the sources that can
    hold it after well-formed use: the count read by [parseInt]. *)
Inductive num : Type :=
| NaN
| Num (z : Z).

(** [String(n)] for an integer [n], as a template literal prints it. *)
Definition Number_toString (n : Z) : string :=
  NilZero.string_of_int (Z.to_int n).

Definition dec_value (c : ascii) : option Z :=
  let n := Z.of_N (N_of_ascii c) in
  if ((48 <=? n) && (n <=? 57))%Z then Some (n - 48)%Z else None.

Fixpoint parse_dec_digits (s : string) (acc : option Z) : option Z :=
  match s with
  | EmptyString => acc
  | String c s' =>
      match dec_value c with
      | Some d =>
          parse_dec_digits s'
            (Some (10 * match acc with Some a => a | None => 0 end + d)%Z)
      | None => acc
      end
  end.

(** [parseInt(s, 10)]: leading white space and a sign are skipped, then the
    longest run of decimal digits is read; no digit gives NaN.  The source
    gets the double nearest to the number read, which is that number up to
    [2^53] in absolute value; the embedding returns the number read, so it
    is the source's result within that bound. *)
Definition parseInt10 (s : string) : num :=
  let s := skip_spaces s in
  let '(sign, s) :=
    match s with
    | String "-" s' => ((-1)%Z, s')
    | String "+" s' => (1%Z, s')
    | _ => (1%Z, s)
    end in
  match parse_dec_digits s None with
  | Some n => Num (sign * n)
  | None => NaN
  end.

(** The largest length of an array, [2^32 - 1]. *)
Definition MAX_ARRAY_LENGTH : Z := 4294967295.

(** Every integer up to [2^53] in absolute value is a double. *)
Definition MAX_EXACT_INTEGER : Z := 9007199254740992.

(** [Math.max(a, b)] for a possibly-NaN [a] and an integer [b]. *)
Definition Math_max_num (a : num) (b : Z) : num :=
  match a with
  | NaN => NaN
  | Num z => Num (Z.max z b)
  end.

(** [s.startsWith(c)] for a one-character [c]. *)
Definition startsWith (c : ascii) (s : string) : bool :=
  match s with
  | String d _ => Ascii.eqb d c
  | EmptyString => false
  end.

End JSText.

(** ** [src/lib/names.js] *)

Module Names.

Import JS JSText.
Local Open Scope string_scope.

Definition NAME_MAPS : list (Z * list string) :=
  [(1%Z, ["primary"]);
   (2%Z, ["primary"; "secondary"]);
   (3%Z, ["primary"; "secondary"; "accent"]);
   (4%Z, ["primary"; "secondary"; "accent"; "neutral"]);
   (5%Z, ["primary"; "secondary"; "tertiary"; "accent"; "neutral"])].

(** [NAME_MAPS[count]]; [None] is [undefined]. *)
Fixpoint lookup_names (table : list (Z * list string)) (key : Z) : option (list string) :=
  match table with
  | [] => None
  | (k, v) :: rest => if (k =? key)%Z then Some v else lookup_names rest key
  end.

(** The names pushed by the loop [for (let i = 5; i < count; i++)]. *)
Definition accent_names (count : Z) : list string :=
  map (fun k => "accent-" ++ Number_toString (5 + Z.of_nat k - 3))
      (seq 0 (Z.to_nat (count - 5))).

(** [None] is [undefined], what the table gives for a count below 1.
    Both comparisons are false for NaN, which leaves the five names. *)
Definition assignNames (count : num) : option (list string) :=
  match count with
  | Num c =>
      if (c <=? 5)%Z then lookup_names NAME_MAPS c
      else Some (["primary"; "secondary"; "tertiary"; "accent"; "neutral"]
                   ++ accent_names c)%list
  | NaN => Some ["primary"; "secondary"; "tertiary"; "accent"; "neutral"]
  end.

End Names.

(** ** [src/cli.js]: [parseArgs] and [main] *)

Module CliMain.

Import JS JSText Color Shades Strategies Names Cli.
Local Open Scope string_scope.

Inductive Mood : Type := vibrant | pastel.

(** The object that [parseArgs] returns.  [strategy] is [None] when
    [--strategy] is the last argument and [args[++i]] is [undefined]. *)
Record Args : Type := mkArgs {
  colors : list string;
  count : num;
  strategy : option string;
  help : bool;
  raw : bool;
  mood : option Mood
}.

(** The variables of the loop of [parseArgs]; [st_count] is [None] while
    [count] is [null]. *)
Record ParseState : Type := mkState {
  st_colors : list string;
  st_count : option num;
  st_strategy : option string;
  st_help : bool;
  st_raw : bool;
  st_mood : option Mood
}.

(** [/^[0-9a-fA-F]{3}([0-9a-fA-F]{3})?$/.test(arg)] *)
Definition is_bare_hex (arg : string) : bool :=
  all_hex_digits arg
  && (Nat.eqb (String.length arg) 3 || Nat.eqb (String.length arg) 6).

(** The loop over [args]; an option that takes a value consumes the next
    argument, which is [undefined] when there is none, and
    [parseInt(undefined, 10)] is NaN. *)
Fixpoint parse_loop (args : list string) (st : ParseState) : ParseState :=
  match args with
  | [] => st
  | arg :: rest =>
      if String.eqb arg "--help" || String.eqb arg "-h" then
        parse_loop rest (mkState (st_colors st) (st_count st) (st_strategy st)
                           true (st_raw st) (st_mood st))
      else if String.eqb arg "--raw" || String.eqb arg "-r" then
        parse_loop rest (mkState (st_colors st) (st_count st) (st_strategy st)
                           (st_help st) true (st_mood st))
      else if String.eqb arg "--vibrant" then
        parse_loop rest (mkState (st_colors st) (st_count st) (st_strategy st)
                           (st_help st) (st_raw st) (Some vibrant))
      else if String.eqb arg "--pastel" then
        parse_loop rest (mkState (st_colors st) (st_count st) (st_strategy st)
                           (st_help st) (st_raw st) (Some pastel))
      else if String.eqb arg "--count" || String.eqb arg "-c" then
        match rest with
        | value :: rest' =>
            parse_loop rest' (mkState (st_colors st) (Some (parseInt10 value))
                                (st_strategy st) (st_help st) (st_raw st) (st_mood st))
        | [] =>
            mkState (st_colors st) (Some NaN) (st_strategy st) (st_help st)
              (st_raw st) (st_mood st)
        end
      else if String.eqb arg "--strategy" || String.eqb arg "-s" then
        match rest with
        | value :: rest' =>
            parse_loop rest' (mkState (st_colors st) (st_count st) (Some value)
                                (st_help st) (st_raw st) (st_mood st))
        | [] =>
            mkState (st_colors st) (st_count st) None (st_help st) (st_raw st)
              (st_mood st)
        end
      else if startsWith "#" arg then
        parse_loop rest (mkState (st_colors st ++ [arg])%list (st_count st)
                           (st_strategy st) (st_help st) (st_raw st) (st_mood st))
      else if is_bare_hex arg then
        parse_loop rest (mkState (st_colors st ++ [String "#" arg])%list (st_count st)
                           (st_strategy st) (st_help st) (st_raw st) (st_mood st))
      else parse_loop rest st
  end.

Definition parseArgs (argv : list string) : Args :=
  let args := skipn 2 argv in
  let st := parse_loop args (mkState [] None (Some "evenly-spaced") false false None) in
  let len := Z.of_nat (List.length (st_colors st)) in
  let count :=
    match st_count st with
    | None => Num (Z.max len 3)
    | Some c => c
    end in
  let count := Math_max_num count len in
  mkArgs (st_colors st) count (st_strategy st) (st_help st) (st_raw st) (st_mood st).

(** [MOODS[mood]] as the pair [(L, C)]. *)
Definition MOODS (m : Mood) : R * R :=
  match m with
  | vibrant => (0.55, 0.22)
  | pastel => (0.82, 0.07)
  end.

(** How [main] ends: [process.exit(code)], an uncaught [TypeError], or the
    ramps it prints, one per base colour, each with the name of its label.
    The text written to the terminal (usage, error messages, padding, ANSI
    colours, the input marker) is not modelled. *)
Inductive outcome : Type :=
| Exit (code : Z)
| Crash
| Printed (ramps : list (string * list (Z * string))).

(** The three components read from [hexToHsl] and [hexToOklch].  [main]
    calls them on strings that passed [isValidHex] or came out of
    [rgbToHex]; the NaN case cannot arise there and is given zeros. *)
Definition hsl_of (hex : string) : R * R * R :=
  match hexToHsl hex with
  | Some hsl => hsl
  | None => (0, 0, 0)
  end.

Definition oklch_of (hex : string) : R * R * R :=
  match hexToOklch hex with
  | Some lch => lch
  | None => (0, 0, 0)
  end.

(** [fillHues], for the [colors] that [main] has at this point: at least
    one.  With a NaN count the comparison [count > colors.length] is false
    and every strategy returns at most its anchor ([Array.from] with a NaN
    length and [slice(0, NaN)] are empty, [hues.length < NaN] is false), of
    which [slice(colors.length)] keeps nothing. *)
Definition fill_hues (colors : list string) (count : num) (strategy : string)
    : option (list R) :=
  match count with
  | NaN => Some []
  | Num c =>
      let len := Z.of_nat (List.length colors) in
      if ((2 <=? len) && (len <? c))%Z then
        let inputHues := map (fun c => fst (fst (hsl_of c))) colors in
        Some (fillLargestGaps inputHues (c - len))
      else
        let anchorH := fst (fst (hsl_of (nth 0 colors ""))) in
        match generateHues anchorH c strategy with
        | Returns (Hues allHues) => Some (skipn (List.length colors) allHues)
        | _ => None
        end
  end.

(** The loop that re-targets lightness and chroma, from index [start]. *)
Definition normalize (baseColors : list string) (mood : option Mood) : list string :=
  let '(anchorOL, anchorOC, _) := oklch_of (nth 0 baseColors "") in
  let '(targetL, targetC) :=
    match mood with
    | Some m => MOODS m
    | None => (anchorOL, anchorOC)
    end in
  let start := match mood with Some _ => 0%nat | None => 1%nat end in
  map (fun '(i, c) =>
         if (start <=? i)%nat
         then oklchToHex targetL targetC (snd (oklch_of c))
         else c)
      (combine (seq 0 (List.length baseColors)) baseColors).

(** [main], after [parseArgs]; [random] is the value of [Math.random()]. *)
Definition main_of (a : Args) (random : R) : outcome :=
  if help a then Exit 0
  else
    let colors :=
      match colors a with
      | [] =>
          let '(L, C) :=
            match mood a with
            | Some m => MOODS m
            | None => (0.55, 0.15)
            end in
          [oklchToHex L C (random * 360)]
      | cs => cs
      end in
    if negb (forallb isValidHex colors) then Exit 1
    else
      match strategy a with
      | None => Exit 1
      | Some strategy =>
          if negb (existsb (String.eqb strategy) STRATEGY_NAMES) then Exit 1
          else
            match fill_hues colors (count a) strategy with
            | None => Crash
            | Some fillHues =>
                let '(_, anchorS, anchorL) := hsl_of (nth 0 colors "") in
                let baseColors :=
                  (colors ++ map (fun hue => hslToHex hue anchorS anchorL) fillHues)%list in
                let baseColors :=
                  if raw a then baseColors else normalize baseColors (mood a) in
                match assignNames (count a) with
                | None => Crash
                | Some names =>
                    Printed
                      (map (fun '(i, c) => (nth i names "undefined", generateShades c))
                           (combine (seq 0 (List.length baseColors)) baseColors))
                end
            end
      end.

Definition main (argv : list string) (random : R) : outcome :=
  main_of (parseArgs argv) random.

End CliMain.

(** * Vocabulary of the properties *)

Section Vocabulary.

Import JS Color Shades Strategies Cli.

(** A hue of the wheel. *)
Definition in_wheel (h : R) : Prop := 0 <= h < 360.

(** [i] is the first index whose gap is the largest of the circle. *)
Definition first_largest_gap (sorted : list R) (i : nat) : Prop :=
  (i < List.length sorted)%nat /\
  (forall j, (j < List.length sorted)%nat -> gap_at sorted j <= gap_at sorted i) /\
  (forall j, (j < i)%nat -> gap_at sorted j < gap_at sorted i).

(** The midpoint of the gap that follows [sorted[i]], as the loop computes it. *)
Definition midpoint (sorted : list R) (i : nat) : R :=
  rem (nth i sorted 0 + gap_at sorted i / 2) 360.

(** The entry of the ramp at a level, [ramp.find(e => e.shade === level)]. *)
Definition entry (ramp : list (Z * string)) (level : Z) : option string :=
  match find (fun e => (fst e =? level)%Z) ramp with
  | Some e => Some (snd e)
  | None => None
  end.

(** The OKLCH coordinates of a level of the ramp: those of the base colour
    at level 500, and else the triple handed to [oklchToHex]. *)
Definition level_oklch (base : R * R * R) (level : Z) : option (R * R * R) :=
  let '(baseL, baseC, baseH) := base in
  if (level =? 500)%Z then Some base else shadeOklch baseL baseC baseH level.

Definition levels_oklch (base : R * R * R) (levels : list Z) : list (R * R * R) :=
  flat_map (fun level =>
              match level_oklch base level with
              | Some lch => [lch]
              | None => []
              end) levels.

Definition lightness (lch : R * R * R) : R := fst (fst lch).
Definition chroma (lch : R * R * R) : R := snd (fst lch).

(** Lightness along the ramp, from level 50 to level 950. *)
Definition ramp_lightness (base : R * R * R) : list R :=
  map lightness (levels_oklch base SHADES).

Fixpoint strictly_decreasing (l : list R) : Prop :=
  match l with
  | x :: (y :: _) as rest => y < x /\ strictly_decreasing rest
  | _ => True
  end.

Fixpoint non_increasing (l : list R) : Prop :=
  match l with
  | x :: (y :: _) as rest => y <= x /\ non_increasing rest
  | _ => True
  end.

(** Chroma from level 500 outward, toward white and toward black. *)
Definition chroma_toward_light (base : R * R * R) : list R :=
  map chroma (levels_oklch base [500; 400; 300; 200; 100; 50]%Z).

Definition chroma_toward_dark (base : R * R * R) : list R :=
  map chroma (levels_oklch base [500; 600; 700; 800; 900; 950]%Z).

(** The inverse transfer function as the specification words it: applied
    to the linear value as it comes, with no clamping. *)
Definition linearToSrgb_unclamped (c : R) : R :=
  (if Rle_dec c 0.0031308 then c * 12.92
   else 1.055 * Rpower c (1 / 2.4) - 0.055) * 255.

(** The reference composition of the specification: inverse OKLAB matrix,
    cubing, inverse LMS matrix, inverse transfer function, unclamped. *)
Definition oklchToRgb_unclamped (L C H : R) : R * R * R :=
  let '(lr, lg, lb) := oklchToLinear L C H in
  (linearToSrgb_unclamped lr, linearToSrgb_unclamped lg,
   linearToSrgb_unclamped lb).

(** A bound on the error that the two printed matrix pairs leave on a
    linear channel after the way to OKLCH and back. *)
Definition eta : R := 0.000003.

(** Two channel bytes at most one unit apart. *)
Definition within_one (x y : Z) : Prop := (Z.abs (x - y) <= 1)%Z.

End Vocabulary.

Section HexVocabulary.

Import JS Color Cli.
Local Open Scope string_scope.

(** [String.prototype.toLowerCase] on ASCII. *)
Definition lower_ascii (c : ascii) : ascii :=
  let n := N_of_ascii c in
  if ((65 <=? n) && (n <=? 90))%N then ascii_of_N (n + 32) else c.

Fixpoint toLowerCase (s : string) : string :=
  match s with
  | EmptyString => EmptyString
  | String c s' => String (lower_ascii c) (toLowerCase s')
  end.

(** The two-character field that [rgbToHex] prints for one channel. *)
Definition byte_field (n : Z) : string := padStart 2 "0" (toString16 n).

Definition is_lower_hex (c : ascii) : bool :=
  let n := N_of_ascii c in
  (((48 <=? n) && (n <=? 57)) || ((97 <=? n) && (n <=? 102)))%N.

(** The characters accepted by [[0-9a-fA-F]]. *)
Definition hex_chars : list ascii :=
  list_ascii_of_string "0123456789abcdefABCDEF".

End HexVocabulary.

Section CommandLineVocabulary.

Import JS JSText Strategies Cli CliMain.
Local Open Scope string_scope.

(** Where a colour of the result of [parseArgs] comes from: an argument that
    starts with ['#'], taken as it is, or a bare run of 3 or 6 hexadecimal
    digits, with ['#'] put in front. *)
Definition collected (args : list string) (c : string) : Prop :=
  (In c args /\ startsWith "#" c = true) \/
  (exists arg, In arg args /\ is_bare_hex arg = true /\ c = String "#" arg).

(** The hue that [analogous] puts at index [k]: the anchor as given, then
    [anchor + 30], [anchor - 30], [anchor + 60], [anchor - 60], ..., each
    normalised. *)
Definition analogous_hue (anchor : R) (k : Z) : R :=
  if (k =? 0)%Z then anchor
  else if Z.odd k then norm (anchor + IZR ((k + 1) / 2) * 30)
  else norm (anchor - IZR (k / 2) * 30).

End CommandLineVocabulary.

(** * Properties *)

(** Resolves the comparisons of a closed computation on reals. *)
Ltac r_decide :=
  repeat match goal with
         | |- context [Rle_dec ?a ?b] => destruct (Rle_dec a b); try lra
         | |- context [Rlt_dec ?a ?b] => destruct (Rlt_dec a b); try lra
         end.

(** ** Rounding, truncation and remainder *)

Section Rounding.

Import JS.

Lemma Int_part_between (x : R) (z : Z) :
  IZR z <= x < IZR z + 1 -> Int_part x = z.
Proof.
  intros [Hlo Hhi]. symmetry. apply Int_part_spec. lra.
Qed.

Lemma Int_part_bounds (x : R) : IZR (Int_part x) <= x < IZR (Int_part x) + 1.
Proof.
  destruct (base_Int_part x) as [H1 H2]. lra.
Qed.

Lemma Math_round_between (x : R) (z : Z) :
  IZR z - / 2 <= x < IZR z + / 2 -> Math_round x = z.
Proof.
  intros H. unfold Math_round. apply Int_part_between. lra.
Qed.

Lemma Math_round_IZR (z : Z) : Math_round (IZR z) = z.
Proof. apply Math_round_between. lra. Qed.

Lemma Math_round_bounds (x : R) :
  x - / 2 < IZR (Math_round x) <= x + / 2.
Proof.
  unfold Math_round. pose proof (Int_part_bounds (x + / 2)). lra.
Qed.

Lemma Math_round_mono (x y : R) : x <= y -> (Math_round x <= Math_round y)%Z.
Proof.
  intros Hxy.
  pose proof (Math_round_bounds x) as Hx.
  pose proof (Math_round_bounds y) as Hy.
  assert (H : IZR (Math_round x) < IZR (Math_round y) + 1) by lra.
  rewrite <- plus_IZR in H. apply lt_IZR in H. lia.
Qed.

Lemma trunc_nonneg (x : R) (z : Z) :
  0 <= x -> IZR z <= x < IZR z + 1 -> trunc x = z.
Proof.
  intros Hx Hz. unfold trunc.
  destruct (Rle_dec 0 x) as [_ | Hn]; [ | lra ].
  now apply Int_part_between.
Qed.

(** [trunc] moves toward zero by less than one. *)
Lemma trunc_bounds (x : R) :
  (0 <= x -> IZR (trunc x) <= x < IZR (trunc x) + 1) /\
  (x < 0 -> IZR (trunc x) - 1 < x <= IZR (trunc x)).
Proof.
  unfold trunc. destruct (Rle_dec 0 x) as [Hx | Hx]; split; intros H; try lra.
  - apply Int_part_bounds.
  - pose proof (Int_part_bounds (- x)) as Hb. rewrite opp_IZR. lra.
Qed.

Lemma div_lower (a b lo : R) : 0 < b -> lo * b <= a -> lo <= a / b.
Proof.
  intros Hb Hlo.
  assert (Hab : a / b * b = a) by (field; lra).
  apply Rmult_le_reg_r with b; lra.
Qed.

Lemma div_upper (a b hi : R) : 0 < b -> a < hi * b -> a / b < hi.
Proof.
  intros Hb Hhi.
  assert (Hab : a / b * b = a) by (field; lra).
  apply Rmult_lt_reg_r with b; lra.
Qed.

Lemma div_sandwich (a b lo hi : R) :
  0 < b -> lo * b <= a < hi * b -> lo <= a / b < hi.
Proof.
  intros Hb [Hlo Hhi]. split; [ now apply div_lower | now apply div_upper ].
Qed.

Lemma rem_bounds (a b : R) :
  0 < b ->
  (0 <= a -> 0 <= rem a b < b) /\ (a < 0 -> - b < rem a b <= 0).
Proof.
  intros Hb. unfold rem.
  destruct (trunc_bounds (a / b)) as [Hpos Hneg].
  assert (Hab : a / b * b = a) by (field; lra).
  split; intros Ha.
  - assert (Hq : 0 <= a / b) by (apply div_lower; lra).
    specialize (Hpos Hq). split; nra.
  - assert (Hq : a / b < 0) by (apply div_upper; lra).
    specialize (Hneg Hq). split; nra.
Qed.

Lemma rem_small (a b : R) : 0 <= a < b -> rem a b = a.
Proof.
  intros [Ha Hab]. unfold rem.
  assert (Hq : 0 <= a / b < 1) by (apply div_sandwich; lra).
  rewrite (trunc_nonneg (a / b) 0) by (simpl; lra). simpl. lra.
Qed.

(** [a % b] when [a] lies in the [k]-th period of [b]. *)
Lemma rem_period (a b : R) (k : Z) :
  0 < b -> (0 <= k)%Z -> IZR k * b <= a < IZR k * b + b ->
  rem a b = a - IZR k * b.
Proof.
  intros Hb Hk [Hlo Hhi]. unfold rem.
  assert (Hk' : 0 <= IZR k) by now apply IZR_le.
  assert (Hq : IZR k <= a / b < IZR k + 1) by (apply div_sandwich; lra).
  rewrite (trunc_nonneg (a / b) k) by lra. ring.
Qed.

End Rounding.

(** ** Hue normalisation *)

Section Norm.

Import JS Strategies.

Lemma norm_range (h : R) : 0 <= norm h < 360.
Proof.
  unfold norm.
  assert (H360 : 0 < 360) by lra.
  destruct (rem_bounds h 360 H360) as [Hp Hn].
  destruct (rem_bounds (rem h 360 + 360) 360 H360) as [Hp' _].
  apply Hp'.
  destruct (Rle_dec 0 h) as [Hh | Hh].
  - specialize (Hp Hh). lra.
  - assert (Hlt : h < 0) by lra. specialize (Hn Hlt). lra.
Qed.

Lemma norm_id (h : R) : 0 <= h < 360 -> norm h = h.
Proof.
  intros Hh. unfold norm. rewrite (rem_small h 360) by lra.
  rewrite (rem_period (h + 360) 360 1) by (simpl; lra || lia). lra.
Qed.

End Norm.

(** ** Hue strategies *)

Section HueStrategies.

Import JS Strategies.

Lemma get_own (s : strategy) : get (strategy_name s) = Some (Own s).
Proof. destruct s; reflexivity. Qed.

Lemma get_inherited (p : proto_property) :
  get (proto_name p) = Some (Inherited p).
Proof. destruct p; reflexivity. Qed.

Lemma get_undefined (name : string) :
  ~ In name STRATEGY_NAMES ->
  ~ In name (map proto_name all_proto_properties) ->
  get name = None.
Proof.
  intros Hown Hproto. unfold get.
  destruct (find _ all_strategies) as [s | ] eqn:Hs.
  - apply find_some in Hs. destruct Hs as [Hin Heq].
    apply String.eqb_eq in Heq. subst name.
    exfalso. apply Hown. unfold STRATEGY_NAMES. now apply in_map.
  - destruct (find _ all_proto_properties) as [p | ] eqn:Hp; [ | reflexivity ].
    apply find_some in Hp. destruct Hp as [Hin Heq].
    apply String.eqb_eq in Heq. subst name.
    exfalso. apply Hproto. now apply in_map.
Qed.

Lemma generateHues_own (s : strategy) (anchor : R) (count : Z) :
  generateHues anchor count (strategy_name s) = Returns (Hues (run s anchor count)).
Proof. unfold generateHues. now rewrite get_own. Qed.

Lemma evenly_spaced_in_wheel (anchor : R) (count : Z) :
  Forall in_wheel (evenly_spaced anchor count).
Proof.
  unfold evenly_spaced. apply Forall_forall. intros h Hin.
  apply in_map_iff in Hin. destruct Hin as [i [<- _]]. apply norm_range.
Qed.

Lemma fromKeyAngles_in_wheel (anchor : R) (count : Z) (keyAngles : list R) :
  Forall in_wheel (fromKeyAngles anchor count keyAngles).
Proof.
  unfold fromKeyAngles. apply Forall_app. split; apply Forall_forall;
    intros h Hin; apply in_map_iff in Hin; destruct Hin as [i [<- _]];
    apply norm_range.
Qed.

(** The loop of [analogous] only ever appends normalised hues. *)
Lemma analogous_loop_app (anchor : R) (count : Z) (fuel : nat) :
  forall i hues, exists pushed,
    analogous_loop anchor count fuel i hues = hues ++ pushed /\
    Forall in_wheel pushed.
Proof.
  induction fuel as [ | fuel IH]; intros i hues; simpl.
  - exists []. now rewrite app_nil_r.
  - destruct (Z.of_nat (List.length hues) <? count)%Z.
    + destruct (Z.of_nat (List.length (hues ++ [norm (anchor + IZR i * 30)])) <? count)%Z.
      * destruct (IH (i + 1)%Z
                    ((hues ++ [norm (anchor + IZR i * 30)]) ++ [norm (anchor - IZR i * 30)]))
          as [p [Hp Hw]].
        exists (norm (anchor + IZR i * 30) :: norm (anchor - IZR i * 30) :: p).
        split; [ rewrite Hp; now rewrite <- !app_assoc | ].
        constructor; [ apply norm_range | ].
        constructor; [ apply norm_range | assumption ].
      * destruct (IH (i + 1)%Z (hues ++ [norm (anchor + IZR i * 30)])) as [p [Hp Hw]].
        exists (norm (anchor + IZR i * 30) :: p).
        split; [ rewrite Hp; now rewrite <- !app_assoc | ].
        constructor; [ apply norm_range | assumption ].
    + exists []. now rewrite app_nil_r.
Qed.

(** The fuel of [analogous] is enough: with [count - hues.length]
    iterations left to run at most, more fuel changes nothing, and the loop
    stops because its guard [hues.length < count] has become false. *)
Lemma analogous_loop_enough (anchor : R) (count : Z) (fuel k : nat) :
  forall i hues,
    (count - Z.of_nat (List.length hues) <= Z.of_nat fuel)%Z ->
    analogous_loop anchor count (fuel + k) i hues =
    analogous_loop anchor count fuel i hues.
Proof.
  induction fuel as [ | fuel IH]; intros i hues Hfuel.
  - simpl. destruct k as [ | k]; [ reflexivity | ]. simpl.
    destruct (Z.ltb_spec (Z.of_nat (List.length hues)) count); [ lia | reflexivity ].
  - simpl.
    destruct (Z.ltb_spec (Z.of_nat (List.length hues)) count); [ | reflexivity ].
    apply IH.
    destruct (Z.ltb_spec (Z.of_nat (List.length (hues ++ [norm (anchor + IZR i * 30)]))) count);
      rewrite !length_app; simpl; lia.
Qed.

Lemma analogous_loop_length (anchor : R) (count : Z) (fuel : nat) :
  forall i hues,
    (count - Z.of_nat (List.length hues) <= Z.of_nat fuel)%Z ->
    Z.of_nat (List.length (analogous_loop anchor count fuel i hues)) =
    Z.max (Z.of_nat (List.length hues)) count.
Proof.
  induction fuel as [ | fuel IH]; intros i hues Hfuel; simpl.
  - lia.
  - destruct (Z.ltb_spec (Z.of_nat (List.length hues)) count) as [Hlt | Hge]; [ | lia ].
    rewrite IH.
    + destruct (Z.ltb_spec (Z.of_nat (List.length (hues ++ [norm (anchor + IZR i * 30)]))) count)
        as [Hlt' | Hge']; rewrite !length_app in *; simpl in *; lia.
    + destruct (Z.ltb_spec (Z.of_nat (List.length (hues ++ [norm (anchor + IZR i * 30)]))) count);
        rewrite !length_app; simpl; lia.
Qed.

Lemma analogous_length (anchor : R) (count : Z) :
  Z.of_nat (List.length (analogous anchor count)) = Z.max 1 count.
Proof.
  unfold analogous. rewrite analogous_loop_length; simpl; lia.
Qed.

(** [analogous] starts with the anchor as given; all later hues are
    normalised. *)
Lemma analogous_shape (anchor : R) (count : Z) :
  exists rest, analogous anchor count = anchor :: rest /\ Forall in_wheel rest.
Proof.
  unfold analogous.
  destruct (analogous_loop_app anchor count (Z.to_nat count) 1 [anchor]) as [p [Hp Hw]].
  exists p. now rewrite Hp.
Qed.

(** Every strategy but [analogous] returns hues of the wheel only, for all
    anchors and counts; so does [analogous] when the anchor is one. *)
Lemma run_in_wheel (s : strategy) (anchor : R) (count : Z) :
  s <> Analogous \/ in_wheel anchor ->
  Forall in_wheel (run s anchor count).
Proof.
  intros Hs.
  destruct s; simpl;
    try apply evenly_spaced_in_wheel; try apply fromKeyAngles_in_wheel.
  destruct Hs as [Hs | Hs]; [ congruence | ].
  destruct (analogous_shape anchor count) as [rest [-> Hrest]].
  now constructor.
Qed.

(** C4, at the failing input: [generateHues(400, 3, 'analogous')] is
    [[400, 70, 10]]; its first hue is the anchor as passed, outside of
    [0, 360), whereas each of the five other strategies starts with
    [norm(400) = 40]. *)
Theorem analogous_returns_raw_anchor :
  generateHues 400 3 "analogous" = Returns (Hues [400; 70; 10]) /\
  ~ in_wheel 400 /\
  Forall (fun name =>
            exists rest, generateHues 400 3 name = Returns (Hues (40 :: rest)))
         ["evenly-spaced"; "complementary"; "split-complementary"; "triadic";
          "tetradic"]%string.
Proof.
  assert (Hn : forall x, 360 <= x < 720 -> norm x = x - 360).
  { intros x Hx. unfold norm.
    rewrite (rem_period x 360 1) by (simpl; lra || lia).
    rewrite (rem_period _ 360 1) by (simpl; lra || lia). simpl. lra. }
  split; [ | split ].
  - unfold generateHues. simpl. unfold analogous. simpl.
    rewrite !Hn by lra. repeat f_equal; lra.
  - unfold in_wheel. lra.
  - repeat constructor;
      unfold generateHues; simpl;
      unfold evenly_spaced, complementary, split_complementary, triadic,
        tetradic, fromKeyAngles; simpl;
      rewrite Hn by lra; eexists; repeat f_equal; lra.
Qed.

End HueStrategies.

Section StrategyDispatch.

Import JS Strategies.

(** A name that is neither a key of [strategies] nor a property of
    [Object.prototype] selects [evenly-spaced]. *)
Lemma generateHues_fallback (anchor : R) (count : Z) (name : string) :
  ~ In name STRATEGY_NAMES ->
  ~ In name (map proto_name all_proto_properties) ->
  generateHues anchor count name = generateHues anchor count "evenly-spaced".
Proof.
  intros Hown Hproto. unfold generateHues.
  now rewrite (get_undefined name Hown Hproto).
Qed.

Lemma generateHues_fallback_witness :
  generateHues 10 3 "rainbow" = generateHues 10 3 "evenly-spaced".
Proof.
  apply generateHues_fallback; simpl; intuition discriminate.
Defined.

(** No inherited property yields a hue array. *)
Lemma generateHues_inherited (anchor : R) (count : Z) (p : proto_property) :
  forall hues, generateHues anchor count (proto_name p) <> Returns (Hues hues).
Proof.
  intros hues. unfold generateHues. rewrite get_inherited.
  destruct p; simpl; discriminate.
Qed.

(** C7, at failing inputs: the names [toString] and [__proto__] are not
    among the six strategies, yet [generateHues] does not fall back to
    [evenly-spaced] for them: the lookup finds the member inherited from
    [Object.prototype]; the first call returns a string, the second throws. *)
Theorem inherited_name_defeats_fallback :
  ~ In "toString"%string STRATEGY_NAMES /\
  generateHues 0 3 "toString" = Returns (Str "[object Undefined]") /\
  generateHues 0 3 "__proto__" = Throws TypeError /\
  (exists hues, generateHues 0 3 "evenly-spaced" = Returns (Hues hues)).
Proof.
  split; [ simpl; intuition discriminate | ].
  split; [ reflexivity | ].
  split; [ reflexivity | ].
  eexists. reflexivity.
Qed.

(** C8, as stated, fails: called with count 0, or with a negative count,
    the code returns the empty hue array and signals no error. *)
Lemma count_zero_is_not_rejected :
  generateHues 0 0 "evenly-spaced" = Returns (Hues []) /\
  (forall e, generateHues 0 0 "evenly-spaced" <> Throws e) /\
  generateHues 0 (-1) "evenly-spaced" = Returns (Hues []).
Proof.
  split; [ reflexivity | ]. split; [ intros e; discriminate | reflexivity ].
Qed.

Lemma evenly_spaced_nonpositive (anchor : R) (count : Z) :
  (count <= 0)%Z -> evenly_spaced anchor count = [].
Proof.
  intros Hc. unfold evenly_spaced.
  replace (Z.to_nat count) with 0%nat by lia. reflexivity.
Qed.

Lemma fromKeyAngles_zero (anchor : R) (keyAngles : list R) :
  fromKeyAngles anchor 0 keyAngles = [].
Proof. reflexivity. Qed.

Lemma evenly_spaced_one (anchor : R) : evenly_spaced anchor 1 = [norm anchor].
Proof.
  unfold evenly_spaced. simpl. do 2 f_equal. lra.
Qed.

(** C8, amended: for each of the six strategies a call with count 1, with
    count 0 or with a negative count returns a hue array and does not
    throw; [evenly-spaced] with count 1 yields the single hue
    [norm(anchor)], which is the anchor itself when that lies on the wheel;
    and with [count <= 0] [evenly-spaced] returns the empty array instead
    of signalling an error. *)
Theorem degenerate_counts_do_not_fail (anchor : R) :
  (forall s count, (count <= 1)%Z ->
      exists hues,
        generateHues anchor count (strategy_name s) = Returns (Hues hues)) /\
  generateHues anchor 1 "evenly-spaced" = Returns (Hues [norm anchor]) /\
  (in_wheel anchor -> generateHues anchor 1 "evenly-spaced" = Returns (Hues [anchor])) /\
  (forall count, (count <= 0)%Z ->
      generateHues anchor count "evenly-spaced" = Returns (Hues [])).
Proof.
  repeat split.
  - intros s count _. eexists. apply generateHues_own.
  - change "evenly-spaced"%string with (strategy_name EvenlySpaced).
    rewrite generateHues_own. simpl. now rewrite evenly_spaced_one.
  - intros Hw. change "evenly-spaced"%string with (strategy_name EvenlySpaced).
    rewrite generateHues_own. simpl. rewrite evenly_spaced_one.
    now rewrite norm_id.
  - intros count Hc. change "evenly-spaced"%string with (strategy_name EvenlySpaced).
    rewrite generateHues_own. simpl. now rewrite evenly_spaced_nonpositive.
Qed.

Lemma degenerate_counts_witness :
  generateHues 40 1 "evenly-spaced" = Returns (Hues [40]).
Proof.
  destruct (degenerate_counts_do_not_fail 40) as (_ & _ & H & _).
  apply H. unfold in_wheel. lra.
Defined.

End StrategyDispatch.

(** ** Gap filling *)

Section GapFilling.

Import JS Cli.

Lemma insert_perm (x : R) (l : list R) : Permutation (insert x l) (x :: l).
Proof.
  induction l as [ | y l IH]; simpl; [ reflexivity | ].
  destruct (Rle_dec x y); [ reflexivity | ].
  rewrite IH. apply perm_swap.
Qed.

Lemma sort_perm (l : list R) : Permutation (sort l) l.
Proof.
  induction l as [ | x l IH]; simpl; [ reflexivity | ].
  rewrite insert_perm. now constructor.
Qed.

Lemma insert_sorted (x : R) (l : list R) :
  Sorted Rle l -> Sorted Rle (insert x l).
Proof.
  induction l as [ | y l IH]; intros Hs; simpl.
  - repeat constructor.
  - destruct (Rle_dec x y) as [Hxy | Hxy].
    + constructor; [ assumption | now constructor ].
    + inversion Hs as [ | ? ? Hs' Hhd]; subst.
      constructor; [ now apply IH | ].
      destruct l as [ | z l]; simpl.
      * constructor. lra.
      * destruct (Rle_dec x z); constructor; try lra.
        now inversion Hhd.
Qed.

Lemma sort_sorted (l : list R) : Sorted Rle (sort l).
Proof.
  induction l as [ | x l IH]; simpl; [ constructor | now apply insert_sorted ].
Qed.

(** The state of the inner loop after [k] iterations. *)
Lemma scan_prefix (sorted : list R) (k : nat) :
  let st := fold_left (scan_step sorted) (seq 0 k) (0, 0) in
  ((forall j, (j < k)%nat -> gap_at sorted j <= 0) /\ st = (0, 0)) \/
  (exists i, (i < k)%nat /\ 0 < gap_at sorted i /\
     (forall j, (j < k)%nat -> gap_at sorted j <= gap_at sorted i) /\
     (forall j, (j < i)%nat -> gap_at sorted j < gap_at sorted i) /\
     st = (gap_at sorted i, midpoint sorted i)).
Proof.
  induction k as [ | k IH]; cbv zeta in *.
  - left. split; [ intros j Hj; lia | reflexivity ].
  - rewrite seq_S, fold_left_app. simpl.
    destruct IH as [[Hle ->] | [i [Hi [Hpos [Hmax [Hfirst ->]]]]]]; unfold scan_step.
    + destruct (Rlt_dec 0 (gap_at sorted k)) as [Hk | Hk].
      * right. exists k. repeat split; trivial; try lia.
        -- intros j Hj. destruct (Nat.eq_dec j k) as [-> | Hne]; [ lra | ].
           assert (Hjk : (j < k)%nat) by lia. specialize (Hle j Hjk). lra.
        -- intros j Hj. specialize (Hle j Hj). lra.
      * left. split; [ | reflexivity ].
        intros j Hj. destruct (Nat.eq_dec j k) as [-> | Hne]; [ lra | ].
        apply Hle. lia.
    + destruct (Rlt_dec (gap_at sorted i) (gap_at sorted k)) as [Hk | Hk].
      * right. exists k. repeat split; trivial; try lia; try lra.
        -- intros j Hj. destruct (Nat.eq_dec j k) as [-> | Hne]; [ lra | ].
           assert (Hjk : (j < k)%nat) by lia. specialize (Hmax j Hjk). lra.
        -- intros j Hj. specialize (Hmax j Hj). lra.
      * right. exists i. repeat split; trivial; try lia.
        intros j Hj. destruct (Nat.eq_dec j k) as [-> | Hne]; [ lra | ].
        apply Hmax. lia.
Qed.

Lemma fill_loop_app (n : nat) :
  forall hues result, fill_loop n hues result = result ++ fill_loop n hues [].
Proof.
  induction n as [ | n IH]; intros hues result; simpl.
  - now rewrite app_nil_r.
  - rewrite IH. rewrite (IH _ [bestMid hues]). now rewrite <- app_assoc.
Qed.

Lemma fillLargestGaps_succ (hues : list R) (n : nat) :
  fillLargestGaps hues (Z.of_nat (S n)) =
  bestMid hues :: fillLargestGaps (hues ++ [bestMid hues]) (Z.of_nat n).
Proof.
  unfold fillLargestGaps. rewrite !Nat2Z.id. simpl.
  now rewrite fill_loop_app.
Qed.

Lemma Forall_nth_wheel (l : list R) (i : nat) :
  Forall in_wheel l -> (i < List.length l)%nat -> in_wheel (nth i l 0).
Proof.
  intros Hl Hi. rewrite Forall_forall in Hl. apply Hl. now apply nth_In.
Qed.

Lemma bestMid_first_largest (hues : list R) :
  hues <> [] -> Forall in_wheel hues ->
  exists i, first_largest_gap (sort hues) i /\
            bestMid hues = midpoint (sort hues) i /\
            in_wheel (bestMid hues).
Proof.
  intros Hne Hw.
  assert (Hsw : Forall in_wheel (sort hues)).
  { rewrite Forall_forall in *. intros x Hx. apply Hw.
    now apply (Permutation_in _ (sort_perm hues)). }
  assert (Hlen : (0 < List.length (sort hues))%nat).
  { rewrite (Permutation_length (sort_perm hues)).
    destruct hues; [ congruence | simpl; lia ]. }
  set (s := sort hues) in *.
  (* the wrap-around gap is positive *)
  assert (Hlast : 0 < gap_at s (List.length s - 1)).
  { unfold gap_at.
    destruct (Nat.ltb_spec (List.length s - 1 + 1) (List.length s)) as [Hlt | _]; [ lia | ].
    pose proof (Forall_nth_wheel s (List.length s - 1) Hsw ltac:(lia)) as H1.
    pose proof (Forall_nth_wheel s 0 Hsw Hlen) as H0.
    unfold in_wheel in *. lra. }
  unfold bestMid, scan. fold s.
  destruct (scan_prefix s (List.length s)) as [[Hle _] | [i [Hi [Hpos [Hmax [Hfirst Hst]]]]]].
  - specialize (Hle (List.length s - 1)%nat ltac:(lia)). lra.
  - exists i. rewrite Hst. simpl. repeat split; trivial.
    + unfold midpoint.
      pose proof (Forall_nth_wheel s i Hsw Hi) as Hni. unfold in_wheel in Hni.
      destruct (rem_bounds (nth i s 0 + gap_at s i / 2) 360 ltac:(lra)) as [Hp _].
      apply Hp. lra.
    + unfold midpoint.
      pose proof (Forall_nth_wheel s i Hsw Hi) as Hni. unfold in_wheel in Hni.
      destruct (rem_bounds (nth i s 0 + gap_at s i / 2) 360 ltac:(lra)) as [Hp _].
      apply Hp. lra.
Qed.




End GapFilling.

(** ** Hex strings *)

Section HexStrings.

Import JS Color Cli.
Local Open Scope string_scope.

Lemma forallb_range (P : Z -> bool) (k : nat) :
  forallb P (map Z.of_nat (seq 0 k)) = true ->
  forall n, (0 <= n < Z.of_nat k)%Z -> P n = true.
Proof.
  intros H n Hn. rewrite forallb_forall in H. apply H.
  apply in_map_iff. exists (Z.to_nat n). split; [ lia | ].
  apply in_seq. lia.
Qed.

Lemma clamp_range (v : R) : (0 <= clamp v <= 255)%Z.
Proof. unfold clamp. lia. Qed.

Lemma clamp_IZR (n : Z) : (0 <= n <= 255)%Z -> clamp (IZR n) = n.
Proof. intros Hn. unfold clamp. rewrite Math_round_IZR. lia. Qed.

Lemma rgbToHex_fields (r g b : R) :
  rgbToHex r g b =
  "#" ++ byte_field (clamp r) ++ byte_field (clamp g) ++ byte_field (clamp b).
Proof.
  reflexivity.
Qed.

(** A channel byte prints as exactly two lowercase digits, which read back
    as the byte. *)
Lemma byte_field_digits (n : Z) :
  (0 <= n <= 255)%Z ->
  exists d1 d2,
    byte_field n = String d1 (String d2 "") /\
    is_lower_hex d1 = true /\ is_lower_hex d2 = true /\
    parseInt16 (String d1 (String d2 "")) = Some n.
Proof.
  intros Hn.
  pose (check := fun n : Z =>
    match byte_field n with
    | String d1 (String d2 EmptyString) =>
        is_lower_hex d1 && is_lower_hex d2 &&
        match parseInt16 (String d1 (String d2 "")) with
        | Some m => (m =? n)%Z
        | None => false
        end
    | _ => false
    end).
  assert (Hall : forallb check (map Z.of_nat (seq 0 256)) = true)
    by (vm_compute; reflexivity).
  pose proof (forallb_range check 256 Hall n ltac:(lia)) as Hc.
  clear Hall. unfold check in Hc. clear check.
  destruct (byte_field n) as [ | d1 [ | d2 [ | ? ? ]]]; try discriminate.
  exists d1, d2.
  destruct (parseInt16 (String d1 (String d2 ""))) as [m | ]; [ | now rewrite andb_false_r in Hc ].
  apply andb_true_iff in Hc. destruct Hc as [Hc Hm].
  apply andb_true_iff in Hc. destruct Hc as [H1 H2].
  apply Z.eqb_eq in Hm. subst m. repeat split; assumption.
Qed.

Lemma is_hex_digit_enum (c : ascii) : is_hex_digit c = true -> In c hex_chars.
Proof.
  destruct c as [[ | ] [ | ] [ | ] [ | ] [ | ] [ | ] [ | ] [ | ]];
    intros H; try discriminate H; simpl; tauto.
Qed.

(** Two hexadecimal digits, of either case, parse to a byte that prints
    as the same digits in lower case. *)
Lemma parse_print_pair (c1 c2 : ascii) :
  is_hex_digit c1 = true -> is_hex_digit c2 = true ->
  exists n, parseInt16 (String c1 (String c2 "")) = Some n /\
            (0 <= n <= 255)%Z /\
            byte_field n = String (lower_ascii c1) (String (lower_ascii c2) "").
Proof.
  intros H1 H2.
  pose (check := fun c1 c2 : ascii =>
    match parseInt16 (String c1 (String c2 "")) with
    | Some n =>
        (0 <=? n)%Z && (n <=? 255)%Z &&
        String.eqb (byte_field n) (String (lower_ascii c1) (String (lower_ascii c2) ""))
    | None => false
    end).
  assert (Hall : forallb (fun a => forallb (check a) hex_chars) hex_chars = true)
    by (vm_compute; reflexivity).
  rewrite forallb_forall in Hall.
  specialize (Hall c1 (is_hex_digit_enum c1 H1)).
  rewrite forallb_forall in Hall.
  specialize (Hall c2 (is_hex_digit_enum c2 H2)).
  unfold check in Hall.
  destruct (parseInt16 (String c1 (String c2 ""))) as [n | ]; [ | discriminate ].
  apply andb_true_iff in Hall. destruct Hall as [Hr He].
  apply andb_true_iff in Hr. destruct Hr as [Hlo Hhi].
  apply String.eqb_eq in He. exists n. repeat split; trivial; lia.
Qed.

(** The shape of a six-digit colour accepted by [isValidHex]. *)
Lemma valid_six_digits (hex : string) :
  isValidHex hex = true -> String.length hex = 7%nat ->
  exists c1 c2 c3 c4 c5 c6,
    hex = String "#" (String c1 (String c2 (String c3 (String c4
            (String c5 (String c6 "")))))) /\
    Forall (fun c => is_hex_digit c = true) [c1; c2; c3; c4; c5; c6].
Proof.
  intros Hv Hl.
  destruct hex as [ | c0 [ | c1 [ | c2 [ | c3 [ | c4 [ | c5 [ | c6 [ | ? ? ]]]]]]]];
    try discriminate Hl.
  unfold isValidHex in Hv. simpl in Hv.
  rewrite andb_true_r in Hv.
  apply andb_true_iff in Hv. destruct Hv as [H0 Hd].
  apply Ascii.eqb_eq in H0. subst c0.
  repeat (apply andb_true_iff in Hd; let H := fresh "Hc" in destruct Hd as [H Hd]).
  exists c1, c2, c3, c4, c5, c6. split; [ reflexivity | ].
  repeat constructor; assumption.
Qed.

Lemma hexToRgb_six (c1 c2 c3 c4 c5 c6 : ascii) :
  Forall (fun c => is_hex_digit c = true) [c1; c2; c3; c4; c5; c6] ->
  exists r g b,
    hexToRgb (String "#" (String c1 (String c2 (String c3 (String c4
                (String c5 (String c6 ""))))))) = Some (r, g, b) /\
    ((0 <= r <= 255) /\ (0 <= g <= 255) /\ (0 <= b <= 255))%Z /\
    byte_field r = String (lower_ascii c1) (String (lower_ascii c2) "") /\
    byte_field g = String (lower_ascii c3) (String (lower_ascii c4) "") /\
    byte_field b = String (lower_ascii c5) (String (lower_ascii c6) "").
Proof.
  intros Hd.
  repeat match goal with
         | H : Forall _ (_ :: _) |- _ => inversion H; clear H; subst
         end.
  destruct (parse_print_pair c1 c2) as [r [Hr [Hrr Hrf]]]; trivial.
  destruct (parse_print_pair c3 c4) as [g [Hg [Hgr Hgf]]]; trivial.
  destruct (parse_print_pair c5 c6) as [b [Hb [Hbr Hbf]]]; trivial.
  exists r, g, b. unfold hexToRgb. cbn -[parseInt16].
  rewrite Hr, Hg, Hb. repeat split; trivial; lia.
Qed.

Lemma hexToRgb_rgbToHex (x y z : R) :
  hexToRgb (rgbToHex x y z) = Some (clamp x, clamp y, clamp z).
Proof.
  destruct (byte_field_digits (clamp x) (clamp_range x)) as [d1 [d2 [F1 [_ [_ P1]]]]].
  destruct (byte_field_digits (clamp y) (clamp_range y)) as [d3 [d4 [F2 [_ [_ P2]]]]].
  destruct (byte_field_digits (clamp z) (clamp_range z)) as [d5 [d6 [F3 [_ [_ P3]]]]].
  rewrite rgbToHex_fields, F1, F2, F3.
  unfold hexToRgb. cbn -[parseInt16]. now rewrite P1, P2, P3.
Qed.

(** C5, as stated, fails on an upper-case colour: the digits come back in
    lower case. *)
Lemma uppercase_hex_is_not_reproduced :
  isValidHex "#AABBCC" = true /\
  hexToRgb "#AABBCC" = Some (170, 187, 204)%Z /\
  rgbToHex 170 187 204 = "#aabbcc" /\
  "#aabbcc" <> "#AABBCC".
Proof.
  split; [ reflexivity | ]. split; [ reflexivity | ]. split; [ | discriminate ].
  rewrite rgbToHex_fields, !clamp_IZR by lia. reflexivity.
Qed.

(** C5, amended: for every valid 6-digit hex colour, [hexToRgb] followed by
    [rgbToHex] gives the colour with its digits in lower case, hence the
    identical string when the input is in lower case already.  [rgbToHex]
    always emits ['#'] and six lowercase digits; each channel is rounded to
    the nearest integer and clamped to [0, 255], and reading the string
    back gives these bytes. *)
Theorem hex_roundtrip_lowercases :
  (forall hex,
      isValidHex hex = true -> String.length hex = 7%nat ->
      exists r g b,
        hexToRgb hex = Some (r, g, b) /\
        ((0 <= r <= 255) /\ (0 <= g <= 255) /\ (0 <= b <= 255))%Z /\
        rgbToHex (IZR r) (IZR g) (IZR b) = toLowerCase hex /\
        (toLowerCase hex = hex -> rgbToHex (IZR r) (IZR g) (IZR b) = hex)) /\
  (forall x y z : R,
      (exists d1 d2 d3 d4 d5 d6,
          rgbToHex x y z = String "#" (String d1 (String d2 (String d3
                             (String d4 (String d5 (String d6 "")))))) /\
          forallb is_lower_hex [d1; d2; d3; d4; d5; d6] = true) /\
      hexToRgb (rgbToHex x y z) = Some (clamp x, clamp y, clamp z)) /\
  (forall v : R,
      clamp v = Z.max 0 (Z.min 255 (Math_round v)) /\
      v - / 2 < IZR (Math_round v) <= v + / 2).
Proof.
  split; [ | split ].
  - intros hex Hv Hl.
    destruct (valid_six_digits hex Hv Hl) as [c1 [c2 [c3 [c4 [c5 [c6 [-> Hd]]]]]]].
    destruct (hexToRgb_six c1 c2 c3 c4 c5 c6 Hd)
      as [r [g [b [Hrgb [[Hr [Hg Hb]] [Fr [Fg Fb]]]]]]].
    exists r, g, b.
    assert (Hhex : rgbToHex (IZR r) (IZR g) (IZR b) =
                   toLowerCase (String "#" (String c1 (String c2 (String c3
                     (String c4 (String c5 (String c6 "")))))))).
    { rewrite rgbToHex_fields, !clamp_IZR by assumption.
      rewrite Fr, Fg, Fb. reflexivity. }
    repeat split; trivial; try lia. intros <-. exact Hhex.
  - intros x y z.
    destruct (byte_field_digits (clamp x) (clamp_range x)) as [d1 [d2 [F1 [L1 [L2 P1]]]]].
    destruct (byte_field_digits (clamp y) (clamp_range y)) as [d3 [d4 [F2 [L3 [L4 P2]]]]].
    destruct (byte_field_digits (clamp z) (clamp_range z)) as [d5 [d6 [F3 [L5 [L6 P3]]]]].
    split; [ | apply hexToRgb_rgbToHex ].
    rewrite rgbToHex_fields, F1, F2, F3.
    exists d1, d2, d3, d4, d5, d6. split; [ reflexivity | ].
    simpl. now rewrite L1, L2, L3, L4, L5, L6.
  - intros v. split; [ reflexivity | apply Math_round_bounds ].
Qed.

Lemma hex_roundtrip_lowercases_witness :
  exists r g b,
    hexToRgb "#AA5420" = Some (r, g, b) /\
    rgbToHex (IZR r) (IZR g) (IZR b) = "#aa5420".
Proof.
  destruct (proj1 hex_roundtrip_lowercases "#AA5420" eq_refl eq_refl)
    as [r [g [b [H1 [_ [H2 _]]]]]].
  exists r, g, b. split; [ exact H1 | exact H2 ].
Defined.

End HexStrings.

(** ** Shade ramps *)

Section ShadeRamp.

Import JS Color Shades.

(** C2: whatever the base string, the ramp has the eleven levels 50 to 950
    in order, its entry for level 500 is the input string itself, and every
    other entry is computed from the base colour by [oklchToHex]. *)
Theorem shade_500_is_the_input (hex : string) :
  map fst (generateShades hex) = [50; 100; 200; 300; 400; 500; 600; 700; 800; 900; 950]%Z /\
  entry (generateShades hex) 500 = Some hex /\
  nth_error (generateShades hex) 5 = Some (500%Z, hex) /\
  (forall baseL baseC baseH level,
      hexToOklch hex = Some (baseL, baseC, baseH) ->
      In level SHADES -> level <> 500%Z ->
      exists L C H,
        shadeOklch baseL baseC baseH level = Some (L, C, H) /\
        entry (generateShades hex) level = Some (oklchToHex L C H)).
Proof.
  split; [ reflexivity | ]. split; [ reflexivity | ]. split; [ reflexivity | ].
  intros baseL baseC baseH level Hbase Hin Hne.
  unfold generateShades, entry. rewrite Hbase.
  simpl in Hin.
  repeat (destruct Hin as [<- | Hin];
          [ try congruence; simpl; do 3 eexists; split; reflexivity | ]).
  contradiction.
Qed.

Lemma shade_500_witness :
  entry (generateShades "#aa5420") 500 = Some "#aa5420"%string.
Proof.
  apply (shade_500_is_the_input "#aa5420").
Defined.

Lemma ramp_lightness_values (baseL baseC baseH : R) :
  ramp_lightness (baseL, baseC, baseH) =
  [baseL + (0.98 - baseL) * 0.92; baseL + (0.98 - baseL) * 0.80;
   baseL + (0.98 - baseL) * 0.62; baseL + (0.98 - baseL) * 0.42;
   baseL + (0.98 - baseL) * 0.18;
   baseL;
   baseL - (baseL - 0.10) * 0.18; baseL - (baseL - 0.10) * 0.38;
   baseL - (baseL - 0.10) * 0.56; baseL - (baseL - 0.10) * 0.76;
   baseL - (baseL - 0.10) * 0.92].
Proof. reflexivity. Qed.

Lemma srgbToLinear_0 : srgbToLinear 0 = 0.
Proof.
  unfold srgbToLinear. destruct (Rle_dec (0 / 255) 0.04045); lra.
Qed.

Lemma Math_cbrt_0 : Math_cbrt 0 = 0.
Proof. unfold Math_cbrt. r_decide. Qed.

Lemma Math_atan2_0_0 : Math_atan2 0 0 = 0.
Proof. unfold Math_atan2. r_decide. Qed.

Lemma rgbToOklch_black : rgbToOklch 0 0 0 = (0, 0, 0).
Proof.
  unfold rgbToOklch. rewrite srgbToLinear_0.
  replace (0.4122214708 * 0 + 0.5363325363 * 0 + 0.0514459929 * 0) with 0 by lra.
  replace (0.2119034982 * 0 + 0.6806995451 * 0 + 0.1073969566 * 0) with 0 by lra.
  replace (0.0883024619 * 0 + 0.2817188376 * 0 + 0.6299787005 * 0) with 0 by lra.
  rewrite Math_cbrt_0.
  replace (0.2104542553 * 0 + 0.7936177850 * 0 - 0.0040720468 * 0) with 0 by lra.
  replace (1.9779984951 * 0 - 2.4285922050 * 0 + 0.4505937099 * 0) with 0 by lra.
  replace (0.0259040371 * 0 + 0.7827717662 * 0 - 0.8086757660 * 0) with 0 by lra.
  rewrite Math_atan2_0_0.
  replace (0 * 0 + 0 * 0) with 0 by lra. rewrite sqrt_0.
  replace (0 * 180 / PI) with 0 by (unfold Rdiv; ring).
  destruct (Rlt_dec 0 0); [ lra | reflexivity ].
Qed.

Lemma Rmax_0_pos (x : R) : 0 <= x -> Rmax 0 x = x.
Proof. intros Hx. now apply Rmax_right. Qed.

Lemma hexToOklch_chroma_nonneg (hex : string) (base : R * R * R) :
  hexToOklch hex = Some base -> 0 <= chroma base.
Proof.
  unfold hexToOklch. destruct (hexToRgb hex) as [[[r g] b] | ]; [ | discriminate ].
  cbv beta iota. intros [= <-]. unfold rgbToOklch, chroma. simpl. apply sqrt_pos.
Qed.

Lemma lookup_lighter (level : Z) (t : R) :
  lookup LIGHTER_T level = Some t ->
  In (level, t) LIGHTER_T /\ (level < 500)%Z.
Proof.
  unfold LIGHTER_T. cbn [lookup].
  repeat match goal with
         | |- context [(?k =? level)%Z] =>
             destruct (Z.eqb_spec k level) as [<- | ?];
             [ intros [= <-]; split; [ simpl; tauto | lia ] | ]
         end.
  discriminate.
Qed.

Lemma lookup_darker (level : Z) (t : R) :
  lookup DARKER_T level = Some t ->
  In (level, t) DARKER_T /\ (500 < level)%Z.
Proof.
  unfold DARKER_T. cbn [lookup].
  repeat match goal with
         | |- context [(?k =? level)%Z] =>
             destruct (Z.eqb_spec k level) as [<- | ?];
             [ intros [= <-]; split; [ simpl; tauto | lia ] | ]
         end.
  discriminate.
Qed.

(** C10: for a base chroma [C >= 0], the chroma of a lighter level is
    [C * max(0, 1 - t * 0.95)] and that of a darker level is
    [C * max(0, 1 - t * 0.65)], with [t] the table entry of the level; from
    level 500 outward the chroma values are non-increasing in both
    directions, and none exceeds the base chroma or falls below 0. *)
Theorem chroma_attenuates (baseL baseC baseH : R) :
  0 <= baseC ->
  (forall level t, lookup LIGHTER_T level = Some t ->
      option_map chroma (level_oklch (baseL, baseC, baseH) level) =
      Some (baseC * Rmax 0 (1 - t * 0.95))) /\
  (forall level t, lookup DARKER_T level = Some t ->
      option_map chroma (level_oklch (baseL, baseC, baseH) level) =
      Some (baseC * Rmax 0 (1 - t * 0.65))) /\
  option_map chroma (level_oklch (baseL, baseC, baseH) 500) = Some baseC /\
  List.length (chroma_toward_light (baseL, baseC, baseH)) = 6%nat /\
  List.length (chroma_toward_dark (baseL, baseC, baseH)) = 6%nat /\
  non_increasing (chroma_toward_light (baseL, baseC, baseH)) /\
  non_increasing (chroma_toward_dark (baseL, baseC, baseH)) /\
  Forall (fun c => 0 <= c <= baseC)
         (map chroma (levels_oklch (baseL, baseC, baseH) SHADES)).
Proof.
  intros HC.
  split.
  { intros level t Ht. destruct (lookup_lighter level t Ht) as [_ Hlt].
    unfold level_oklch, shadeOklch.
    destruct (Z.eqb_spec level 500) as [-> | _]; [ lia | ].
    destruct (Z.ltb_spec level 500) as [_ | Hge]; [ | lia ].
    now rewrite Ht. }
  split.
  { intros level t Ht. destruct (lookup_darker level t Ht) as [_ Hgt].
    unfold level_oklch, shadeOklch.
    destruct (Z.eqb_spec level 500) as [-> | _]; [ lia | ].
    destruct (Z.ltb_spec level 500) as [Hlt | _]; [ lia | ].
    now rewrite Ht. }
  split; [ reflexivity | ]. split; [ reflexivity | ]. split; [ reflexivity | ].
  unfold chroma_toward_light, chroma_toward_dark, levels_oklch. simpl.
  unfold chroma. simpl.
  rewrite !Rmax_0_pos by lra.
  split; [ | split ].
  - repeat split; nra.
  - repeat split; nra.
  - repeat (apply Forall_cons; [ split; nra | ]). apply Forall_nil.
Qed.

Lemma chroma_attenuates_witness :
  non_increasing (chroma_toward_light (0.6, 0.1, 30)) /\
  non_increasing (chroma_toward_dark (0.6, 0.1, 30)).
Proof.
  destruct (chroma_attenuates 0.6 0.1 30) as (_ & _ & _ & _ & _ & Hl & Hd & _).
  - lra.
  - split; assumption.
Defined.

End ShadeRamp.

(** ** Powers with a rational exponent *)

Section RationalPowers.

(** [Rpower c e] raised to the [m] is [c ^ n] when [e = n / m]. *)
Lemma Rpower_pow_rational (c e : R) (n m : nat) :
  0 < c -> e * INR m = INR n -> Rpower c e ^ m = c ^ n.
Proof.
  intros Hc He.
  assert (Hp : 0 < Rpower c e) by apply exp_pos.
  rewrite <- (Rpower_pow m) by assumption.
  rewrite Rpower_mult, He. now apply Rpower_pow.
Qed.

Lemma pow_lt_compat (x y : R) (m : nat) :
  (0 < m)%nat -> 0 <= y < x -> y ^ m < x ^ m.
Proof.
  intros Hm [Hy Hyx]. destruct m as [ | k]; [ lia | ]. simpl.
  assert (Hxk : 0 < x ^ k) by (apply pow_lt; lra).
  assert (Hyk : y ^ k <= x ^ k) by (apply pow_incr; lra).
  assert (Hy0 : 0 <= y ^ k) by now apply pow_le.
  nra.
Qed.

Lemma pow_le_inv (x y : R) (m : nat) :
  (0 < m)%nat -> 0 <= x -> 0 <= y -> x ^ m <= y ^ m -> x <= y.
Proof.
  intros Hm Hx Hy Hxy. destruct (Rle_dec x y) as [ | Hn]; [ assumption | ].
  exfalso. assert (Hlt : y < x) by lra.
  assert (Hpow : y ^ m < x ^ m) by (apply pow_lt_compat; trivial; lra).
  lra.
Qed.

Lemma pow_lt_inv (x y : R) (m : nat) :
  0 <= x -> 0 <= y -> x ^ m < y ^ m -> x < y.
Proof.
  intros Hx Hy Hxy. destruct (Rlt_dec x y) as [ | Hn]; [ assumption | ].
  exfalso. assert (Hle : y <= x) by lra.
  assert (Hpow : y ^ m <= x ^ m) by (apply pow_incr; lra).
  lra.
Qed.

Lemma Rpower_1_l (e : R) : Rpower 1 e = 1.
Proof. unfold Rpower. rewrite ln_1, Rmult_0_r. apply exp_0. Qed.

Lemma Rpower_ge_1 (c e : R) : 1 <= c -> 0 <= e -> 1 <= Rpower c e.
Proof.
  intros Hc He. apply Rle_trans with (Rpower 1 e).
  - rewrite Rpower_1_l. lra.
  - apply Rle_Rpower_l; lra.
Qed.

Lemma Rpower_le_1 (c e : R) : 0 < c <= 1 -> 0 <= e -> Rpower c e <= 1.
Proof.
  intros Hc He. apply Rle_trans with (Rpower 1 e).
  - apply Rle_Rpower_l; lra.
  - rewrite Rpower_1_l. lra.
Qed.

End RationalPowers.

(** ** The inverse OKLCH path and its clamping *)

Section InversePath.

Import JS Color.

Lemma linearToSrgb_clamps (c : R) :
  linearToSrgb c = linearToSrgb_unclamped (Rmax 0 (Rmin 1 c)).
Proof. reflexivity. Qed.

Lemma clamp01_id (c : R) : 0 <= c <= 1 -> Rmax 0 (Rmin 1 c) = c.
Proof.
  intros Hc. rewrite Rmin_right by lra. now apply Rmax_right.
Qed.

Lemma clamp01_low (c : R) : c <= 0 -> Rmax 0 (Rmin 1 c) = 0.
Proof.
  intros Hc. rewrite Rmin_right by lra. now apply Rmax_left.
Qed.

Lemma clamp01_high (c : R) : 1 <= c -> Rmax 0 (Rmin 1 c) = 1.
Proof.
  intros Hc. rewrite Rmin_left by lra. apply Rmax_right. lra.
Qed.

Lemma clamp01_range (c : R) : 0 <= Rmax 0 (Rmin 1 c) <= 1.
Proof.
  split; [ apply Rmax_l | ].
  apply Rmax_lub; [ lra | apply Rmin_l ].
Qed.

Lemma linearToSrgb_unclamped_0 : linearToSrgb_unclamped 0 = 0.
Proof. unfold linearToSrgb_unclamped. r_decide. Qed.

Lemma linearToSrgb_unclamped_1 : linearToSrgb_unclamped 1 = 255.
Proof.
  unfold linearToSrgb_unclamped. r_decide. rewrite Rpower_1_l. lra.
Qed.

Lemma linearToSrgb_unclamped_neg (c : R) :
  c <= 0 -> linearToSrgb_unclamped c <= 0.
Proof. intros Hc. unfold linearToSrgb_unclamped. r_decide. Qed.

Lemma linearToSrgb_unclamped_big (c : R) :
  1 <= c -> 255 <= linearToSrgb_unclamped c.
Proof.
  intros Hc. unfold linearToSrgb_unclamped. r_decide.
  assert (H1 : 1 <= Rpower c (1 / 2.4)) by (apply Rpower_ge_1; lra).
  lra.
Qed.

(** On [0, 1] the transfer function stays within the byte range. *)
Lemma linearToSrgb_unclamped_range (c : R) :
  0 <= c <= 1 -> 0 <= linearToSrgb_unclamped c <= 255.
Proof.
  intros Hc. unfold linearToSrgb_unclamped.
  destruct (Rle_dec c 0.0031308) as [Hlo | Hhi]; [ lra | ].
  assert (Hle : Rpower c (1 / 2.4) <= 1) by (apply Rpower_le_1; lra).
  assert (Hge : 0.06 <= Rpower c (1 / 2.4)).
  { apply pow_le_inv with 12%nat; [ lia | lra | left; apply exp_pos | ].
    rewrite (Rpower_pow_rational c (1 / 2.4) 5 12) by (simpl; lra).
    apply Rle_trans with (0.0031308 ^ 5); [ lra | ].
    apply pow_incr. lra. }
  lra.
Qed.

Lemma linearToSrgb_range (c : R) : 0 <= linearToSrgb c <= 255.
Proof.
  rewrite linearToSrgb_clamps. apply linearToSrgb_unclamped_range, clamp01_range.
Qed.

Lemma clamp_nonpos (v : R) : v <= 0 -> clamp v = 0%Z.
Proof.
  intros Hv. unfold clamp.
  assert (H : (Math_round v <= 0)%Z).
  { rewrite <- (Math_round_IZR 0). now apply Math_round_mono. }
  lia.
Qed.

Lemma clamp_big (v : R) : 255 <= v -> clamp v = 255%Z.
Proof.
  intros Hv. unfold clamp.
  assert (H : (255 <= Math_round v)%Z).
  { rewrite <- (Math_round_IZR 255). now apply Math_round_mono. }
  lia.
Qed.

(** After the byte clamp of [rgbToHex] the two transfer functions agree. *)
Lemma clamp_linearToSrgb (c : R) :
  clamp (linearToSrgb c) = clamp (linearToSrgb_unclamped c).
Proof.
  rewrite linearToSrgb_clamps.
  destruct (Rle_dec c 0) as [Hneg | Hpos].
  - rewrite clamp01_low, linearToSrgb_unclamped_0 by assumption.
    rewrite (clamp_nonpos (linearToSrgb_unclamped c))
      by now apply linearToSrgb_unclamped_neg.
    apply clamp_nonpos. lra.
  - destruct (Rle_dec 1 c) as [Hbig | Hin].
    + rewrite clamp01_high, linearToSrgb_unclamped_1 by assumption.
      rewrite (clamp_big (linearToSrgb_unclamped c))
        by now apply linearToSrgb_unclamped_big.
      apply clamp_big. lra.
    + now rewrite clamp01_id by lra.
Qed.

(** The green linear channel of the out-of-gamut colour
    [oklch(0.5, 0.4, 0)] is negative. *)
Lemma vivid_red_linear :
  exists lr lg lb,
    oklchToLinear 0.5 0.4 0 = (lr, lg, lb) /\ lg < -0.1.
Proof.
  unfold oklchToLinear.
  replace (0 * PI / 180) with 0 by (unfold Rdiv; ring).
  rewrite cos_0, sin_0.
  do 3 eexists. split; [ reflexivity | ]. lra.
Qed.

(** C6, as stated, fails: [linearToSrgb] clamps the linear value to
    [0, 1] first, so for [oklch(0.5, 0.4, 0)] the green channel of
    [oklchToRgb] is 0 where the unclamped composition gives a negative
    value. *)
Lemma inverse_path_clamps_linear_values :
  snd (fst (oklchToRgb 0.5 0.4 0)) = 0 /\
  snd (fst (oklchToRgb_unclamped 0.5 0.4 0)) < -300 /\
  oklchToRgb 0.5 0.4 0 <> oklchToRgb_unclamped 0.5 0.4 0.
Proof.
  destruct vivid_red_linear as [lr [lg [lb [Hlin Hlg]]]].
  unfold oklchToRgb, oklchToRgb_unclamped. rewrite Hlin. simpl.
  assert (Hcode : linearToSrgb lg = 0).
  { rewrite linearToSrgb_clamps, clamp01_low by lra.
    apply linearToSrgb_unclamped_0. }
  assert (Href : linearToSrgb_unclamped lg < -300).
  { unfold linearToSrgb_unclamped. r_decide. }
  split; [ assumption | ]. split; [ assumption | ].
  intros Heq. injection Heq as _ Hg _. lra.
Qed.

(** C6, amended: [linearToSrgb] clamps each linear value to [0, 1] before
    the transfer function, so every channel of [oklchToRgb] lies in
    [0, 255]; [oklchToRgb] equals the unclamped reference composition
    whenever the three linear values lie in [0, 1]; and for all inputs the
    two agree after the byte packing of [rgbToHex]. *)
Theorem inverse_path_agrees_after_packing (L C H : R) :
  (forall c, linearToSrgb c = linearToSrgb_unclamped (Rmax 0 (Rmin 1 c))) /\
  (let '(r, g, b) := oklchToRgb L C H in
   0 <= r <= 255 /\ 0 <= g <= 255 /\ 0 <= b <= 255) /\
  (let '(lr, lg, lb) := oklchToLinear L C H in
   0 <= lr <= 1 -> 0 <= lg <= 1 -> 0 <= lb <= 1 ->
   oklchToRgb L C H = oklchToRgb_unclamped L C H) /\
  (let '(r, g, b) := oklchToRgb_unclamped L C H in
   oklchToHex L C H = rgbToHex r g b).
Proof.
  split; [ exact linearToSrgb_clamps | ].
  unfold oklchToHex, oklchToRgb, oklchToRgb_unclamped.
  destruct (oklchToLinear L C H) as [[lr lg] lb].
  split; [ | split ].
  - repeat split; apply linearToSrgb_range.
  - intros Hr Hg Hb. rewrite !linearToSrgb_clamps.
    now rewrite !clamp01_id by assumption.
  - rewrite !rgbToHex_fields. now rewrite !clamp_linearToSrgb.
Qed.

Lemma inverse_path_agrees_witness :
  oklchToRgb 0 0 0 = oklchToRgb_unclamped 0 0 0.
Proof.
  pose proof (inverse_path_agrees_after_packing 0 0 0) as (_ & _ & Hin & _).
  assert (Hlin : oklchToLinear 0 0 0 = (0, 0, 0)).
  { unfold oklchToLinear. f_equal; [ f_equal | ]; ring. }
  rewrite Hlin in Hin. apply Hin; lra.
Defined.

End InversePath.

(** ** RGB to HSL and back *)

Section HslRoundTrip.

Import JS Color.

(** [hue2rgb] recovers the three channels from the hue computed by
    [rgbToHsl], once [p] and [q] are the least and the greatest channel. *)
Lemma hue_channels (r g b : R) :
  Rmax r (Rmax g b) <> Rmin r (Rmin g b) ->
  let max := Rmax r (Rmax g b) in
  let min := Rmin r (Rmin g b) in
  let d := max - min in
  let h :=
    if Req_dec_T max r then ((g - b) / d + (if Rlt_dec g b then 6 else 0)) / 6
    else if Req_dec_T max g then ((b - r) / d + 2) / 6
    else ((r - g) / d + 4) / 6 in
  hue2rgb min max (h + 1 / 3) = r /\
  hue2rgb min max h = g /\
  hue2rgb min max (h - 1 / 3) = b.
Proof.
  intros Hne max min d h.
  assert (Hmax : r <= max /\ g <= max /\ b <= max /\ (max = r \/ max = g \/ max = b)).
  { unfold max, Rmax. repeat destruct (Rle_dec _ _); repeat split; try lra; auto. }
  assert (Hmin : min <= r /\ min <= g /\ min <= b /\ (min = r \/ min = g \/ min = b)).
  { unfold min, Rmin. repeat destruct (Rle_dec _ _); repeat split; try lra; auto. }
  assert (Hd : 0 < d) by (unfold d; fold max min in Hne; lra).
  clearbody max min.
  destruct Hmax as (Hr & Hg & Hb & Hmax). destruct Hmin as (Hr' & Hg' & Hb' & Hmin).
  assert (Hz1 : (g - b) / d * d = g - b) by (field; lra).
  assert (Hz2 : (b - r) / d * d = b - r) by (field; lra).
  assert (Hz3 : (r - g) / d * d = r - g) by (field; lra).
  set (z1 := (g - b) / d) in *. set (z2 := (b - r) / d) in *. set (z3 := (r - g) / d) in *.
  unfold d in *. clear d.
  unfold h; clear h.
  destruct (Req_dec_T max r) as [E1 | E1].
  - destruct (Rlt_dec g b) as [Hgb | Hgb].
    + assert (min = g) by (destruct Hmin as [ | [ | ]]; lra).
      subst. repeat split; unfold hue2rgb; repeat destruct (Rlt_dec _ _); nra.
    + assert (min = b) by (destruct Hmin as [ | [ | ]]; lra).
      subst. repeat split; unfold hue2rgb; repeat destruct (Rlt_dec _ _); nra.
  - destruct (Req_dec_T max g) as [E2 | E2].
    + destruct (Rlt_dec b r) as [Hbr | Hbr].
      * assert (min = b) by (destruct Hmin as [ | [ | ]]; lra).
        subst. repeat split; unfold hue2rgb; repeat destruct (Rlt_dec _ _); nra.
      * assert (min = r) by (destruct Hmin as [ | [ | ]]; lra).
        subst. repeat split; unfold hue2rgb; repeat destruct (Rlt_dec _ _); nra.
    + assert (max = b) by (destruct Hmax as [ | [ | ]]; lra).
      destruct (Rlt_dec r g) as [Hrg | Hrg].
      * assert (min = r) by (destruct Hmin as [ | [ | ]]; lra).
        subst. repeat split; unfold hue2rgb; repeat destruct (Rlt_dec _ _); nra.
      * assert (min = g) by (destruct Hmin as [ | [ | ]]; lra).
        subst. repeat split; unfold hue2rgb; repeat destruct (Rlt_dec _ _); nra.
Qed.

Lemma hsl_saturation (max min : R) :
  0 <= min -> min < max -> max <= 1 ->
  let l := (max + min) / 2 in
  let d := max - min in
  let s := if Rlt_dec 0.5 l then d / (2 - max - min) else d / (max + min) in
  s <> 0 /\
  (let q := if Rlt_dec l 0.5 then l * (1 + s) else l + s - l * s in
   q = max /\ 2 * l - q = min).
Proof.
  intros Hmin Hlt Hmax l d s.
  assert (Hs : 0 < s).
  { unfold s. destruct (Rlt_dec 0.5 l); apply Rdiv_lt_0_compat; unfold d; lra. }
  split; [ lra | ].
  assert (Hq : (if Rlt_dec l 0.5 then l * (1 + s) else l + s - l * s) = max).
  { unfold s, l, d.
    assert (Hz1 : (max - min) / (2 - max - min) * (2 - max - min) = max - min)
      by (field; lra).
    assert (Hz2 : (max - min) / (max + min) * (max + min) = max - min)
      by (field; lra).
    destruct (Rlt_dec 0.5 ((max + min) / 2));
      destruct (Rlt_dec ((max + min) / 2) 0.5); nra. }
  cbv zeta. rewrite Hq. split; [ reflexivity | unfold l; lra ].
Qed.

Lemma unit_times_255 (n : Z) : IZR n / 255 * 255 = IZR n.
Proof. field. Qed.

Lemma hsl_roundtrip_exact (r g b : Z) :
  (0 <= r <= 255)%Z -> (0 <= g <= 255)%Z -> (0 <= b <= 255)%Z ->
  let '(h, s, l) := rgbToHsl (IZR r) (IZR g) (IZR b) in
  hslToRgb h s l = (r, g, b).
Proof.
  intros Hr Hg Hb.
  assert (HR : 0 <= IZR r / 255 <= 1).
  { destruct Hr as [H0 H1]. apply IZR_le in H0, H1. lra. }
  assert (HG : 0 <= IZR g / 255 <= 1).
  { destruct Hg as [H0 H1]. apply IZR_le in H0, H1. lra. }
  assert (HB : 0 <= IZR b / 255 <= 1).
  { destruct Hb as [H0 H1]. apply IZR_le in H0, H1. lra. }
  pose proof (unit_times_255 r) as Er.
  pose proof (unit_times_255 g) as Eg.
  pose proof (unit_times_255 b) as Eb.
  unfold rgbToHsl. cbv zeta.
  set (R := IZR r / 255) in *. set (G := IZR g / 255) in *. set (B := IZR b / 255) in *.
  assert (Hmax : R <= Rmax R (Rmax G B) /\ G <= Rmax R (Rmax G B) /\
                 B <= Rmax R (Rmax G B) /\ Rmax R (Rmax G B) <= 1).
  { unfold Rmax. repeat destruct (Rle_dec _ _); lra. }
  assert (Hmin : Rmin R (Rmin G B) <= R /\ Rmin R (Rmin G B) <= G /\
                 Rmin R (Rmin G B) <= B /\ 0 <= Rmin R (Rmin G B)).
  { unfold Rmin. repeat destruct (Rle_dec _ _); lra. }
  destruct (Req_dec_T (Rmax R (Rmax G B)) (Rmin R (Rmin G B))) as [Heq | Hne].
  - (* achromatic *)
    assert (HRG : R = G) by lra. assert (HRB : R = B) by lra.
    unfold hslToRgb. destruct (Req_dec_T 0 0) as [_ | Hn]; [ | lra ].
    replace ((Rmax R (Rmax G B) + Rmin R (Rmin G B)) / 2 * 255) with (IZR r) by lra.
    rewrite Math_round_IZR.
    assert (r = g) by (apply eq_IZR; lra).
    assert (r = b) by (apply eq_IZR; lra).
    congruence.
  - pose proof (hue_channels R G B Hne) as Hhue. cbv zeta in Hhue.
    destruct (hsl_saturation (Rmax R (Rmax G B)) (Rmin R (Rmin G B)))
      as [Hs [Hq Hp]]; try lra.
    unfold hslToRgb.
    match goal with
    | |- context [Req_dec_T ?s 0] => destruct (Req_dec_T s 0) as [Hs0 | _]; [ contradiction | ]
    end.
    rewrite Hq in Hp. rewrite Hq, Hp.
    match goal with
    | |- context [?h * 360 / 360] => replace (h * 360 / 360) with h by (field)
    end.
    destruct Hhue as [-> [-> ->]].
    now rewrite Er, Eg, Eb, !Math_round_IZR.
Qed.

End HslRoundTrip.

(** ** RGB to OKLCH and back *)

Section OklchRoundTrip.

Import JS Color.

(** *** Polar coordinates *)

Lemma hypot_factor (A B : R) :
  A <> 0 -> sqrt (A * A + B * B) = Rabs A * sqrt (1 + (B / A)²).
Proof.
  intros HA.
  rewrite <- (sqrt_Rsqr_abs A).
  rewrite <- sqrt_mult_alt by apply Rle_0_sqr.
  f_equal. unfold Rsqr. field. assumption.
Qed.

Lemma sqrt_1_sqr_pos (z : R) : 0 < sqrt (1 + z²).
Proof.
  apply sqrt_lt_R0. pose proof (Rle_0_sqr z). lra.
Qed.

Lemma polar_atan2 (A B : R) :
  sqrt (A * A + B * B) * cos (Math_atan2 B A) = A /\
  sqrt (A * A + B * B) * sin (Math_atan2 B A) = B.
Proof.
  unfold Math_atan2.
  destruct (Rlt_dec 0 A) as [Hpos | Hnpos].
  - rewrite hypot_factor, cos_atan, sin_atan by lra.
    rewrite Rabs_right by lra.
    pose proof (sqrt_1_sqr_pos (B / A)) as HS.
    split; field; lra.
  - destruct (Rlt_dec A 0) as [Hneg | Hnneg].
    + rewrite hypot_factor by lra. rewrite Rabs_left by lra.
      pose proof (sqrt_1_sqr_pos (B / A)) as HS.
      destruct (Rle_dec 0 B).
      * rewrite neg_cos, neg_sin, cos_atan, sin_atan. split; field; lra.
      * unfold Rminus. rewrite cos_plus, sin_plus, cos_neg, sin_neg, cos_PI, sin_PI.
        rewrite cos_atan, sin_atan. split; field; lra.
    + assert (HA : A = 0) by lra. subst A.
      replace (0 * 0 + B * B) with (B * B) by ring.
      destruct (Rlt_dec 0 B) as [HB | HB].
      * rewrite sqrt_square, cos_PI2, sin_PI2 by lra. lra.
      * destruct (Rlt_dec B 0) as [HB' | HB'].
        -- rewrite cos_neg, sin_neg, cos_PI2, sin_PI2.
           replace (B * B) with ((- B) * (- B)) by ring.
           rewrite sqrt_square by lra. lra.
        -- assert (B = 0) by lra. subst B.
           rewrite Rmult_0_l, sqrt_0. lra.
Qed.

Lemma polar_degrees (A B : R) :
  let H0 := Math_atan2 B A * 180 / PI in
  let H := if Rlt_dec H0 0 then H0 + 360 else H0 in
  sqrt (A * A + B * B) * cos (H * PI / 180) = A /\
  sqrt (A * A + B * B) * sin (H * PI / 180) = B.
Proof.
  intros H0 H.
  pose proof PI_neq0 as Hpi.
  assert (Hcases : H * PI / 180 = Math_atan2 B A \/
                   H * PI / 180 = Math_atan2 B A + 2 * INR 1 * PI).
  { unfold H, H0. destruct (Rlt_dec _ 0); [ right | left ]; simpl; field; assumption. }
  destruct Hcases as [-> | ->].
  - apply polar_atan2.
  - rewrite cos_period, sin_period. apply polar_atan2.
Qed.

(** *** The two matrix pairs.  The printed inverses are inverses up to
    the last printed digit only; the errors are bounded here. *)

Lemma cube_perturb (a e t : R) :
  0 <= a <= 1 -> - t <= e <= t -> 0 <= t <= / 10 ->
  - (4 * t) <= (a + e) ^ 3 - a ^ 3 <= 4 * t.
Proof.
  intros Ha He Ht.
  replace ((a + e) ^ 3 - a ^ 3) with (e * (3 * a * a + 3 * a * e + e * e)) by ring.
  assert (Haa : 0 <= a * a <= 1) by nra.
  assert (Hae : - / 10 <= a * e <= / 10) by nra.
  assert (Hee : 0 <= e * e <= / 100) by nra.
  assert (Hk0 : 0 <= 3 * a * a + 3 * a * e + e * e).
  { replace (3 * a * a + 3 * a * e + e * e)
      with (3 * ((a + e / 2) * (a + e / 2)) + e * e / 4) by field.
    pose proof (Rle_0_sqr (a + e / 2)) as Hsq. unfold Rsqr in Hsq. lra. }
  assert (Hk4 : 3 * a * a + 3 * a * e + e * e <= 4) by lra.
  set (k := 3 * a * a + 3 * a * e + e * e) in *.
  split; nra.
Qed.

(** OKLAB and back: the cube roots come back up to 8e-8. *)
Lemma oklab_inverse_error (a b c : R) :
  0 <= a <= 1 -> 0 <= b <= 1 -> 0 <= c <= 1 ->
  let L := 0.2104542553 * a + 0.7936177850 * b - 0.0040720468 * c in
  let A := 1.9779984951 * a - 2.4285922050 * b + 0.4505937099 * c in
  let B := 0.0259040371 * a + 0.7827717662 * b - 0.8086757660 * c in
  - 0.00000008 <= L + 0.3963377774 * A + 0.2158037573 * B - a <= 0.00000008 /\
  - 0.00000008 <= L - 0.1055613458 * A - 0.0638541728 * B - b <= 0.00000008 /\
  - 0.00000008 <= L - 0.0894841775 * A - 1.2914855480 * B - c <= 0.00000008.
Proof.
  intros Ha Hb Hc L A B. unfold L, A, B. repeat split; lra.
Qed.

Lemma lms_range (x y z : R) :
  0 <= x <= 1 -> 0 <= y <= 1 -> 0 <= z <= 1 ->
  0 <= 0.4122214708 * x + 0.5363325363 * y + 0.0514459929 * z <= 1 /\
  0 <= 0.2119034982 * x + 0.6806995451 * y + 0.1073969566 * z <= 1 /\
  0 <= 0.0883024619 * x + 0.2817188376 * y + 0.6299787005 * z <= 1.
Proof. intros; repeat split; lra. Qed.

Lemma lms_inverse_error (x y z dl dm ds : R) :
  0 <= x <= 1 -> 0 <= y <= 1 -> 0 <= z <= 1 ->
  - 0.00000032 <= dl <= 0.00000032 ->
  - 0.00000032 <= dm <= 0.00000032 ->
  - 0.00000032 <= ds <= 0.00000032 ->
  let l := 0.4122214708 * x + 0.5363325363 * y + 0.0514459929 * z + dl in
  let m := 0.2119034982 * x + 0.6806995451 * y + 0.1073969566 * z + dm in
  let s := 0.0883024619 * x + 0.2817188376 * y + 0.6299787005 * z + ds in
  - 0.000003 <= 4.0767416621 * l - 3.3077115913 * m + 0.2309699292 * s - x <= 0.000003 /\
  - 0.000003 <= -1.2684380046 * l + 2.6097574011 * m - 0.3413193965 * s - y <= 0.000003 /\
  - 0.000003 <= -0.0041960863 * l - 0.7034186147 * m + 1.7076147010 * s - z <= 0.000003.
Proof.
  intros Hx Hy Hz Hl Hm Hs l m s. unfold l, m, s. repeat split; lra.
Qed.

(** *** The transfer functions *)

Lemma srgbToLinear_low (n : Z) :
  (0 <= n <= 10)%Z -> srgbToLinear (IZR n) = IZR n / 255 / 12.92.
Proof.
  intros [H0 H1]. apply IZR_le in H0, H1. unfold srgbToLinear.
  destruct (Rle_dec (IZR n / 255) 0.04045); [ reflexivity | lra ].
Qed.

Lemma srgbToLinear_high (n : Z) :
  (11 <= n <= 255)%Z ->
  srgbToLinear (IZR n) = Rpower ((IZR n / 255 + 0.055) / 1.055) 2.4.
Proof.
  intros [H0 H1]. apply IZR_le in H0, H1. unfold srgbToLinear.
  destruct (Rle_dec (IZR n / 255) 0.04045); [ lra | reflexivity ].
Qed.

(** The power segment of the transfer function, through fifth and twelfth
    powers: [x = u ^ 2.4] means [x ^ 5 = u ^ 12]. *)
Lemma gamma_power_facts (u : R) :
  0.093 <= u <= 1 ->
  let x := Rpower u 2.4 in
  x ^ 5 = u ^ 12 /\ 0.0033 <= x <= 1.
Proof.
  intros Hu x.
  assert (Hx5 : x ^ 5 = u ^ 12).
  { unfold x. apply Rpower_pow_rational; [ lra | simpl; lra ]. }
  assert (Hx0 : 0 < x) by apply exp_pos.
  split; [ assumption | split ].
  - apply pow_le_inv with 5%nat; [ lia | lra | lra | ].
    rewrite Hx5. apply Rle_trans with (0.093 ^ 12); [ lra | ].
    apply pow_incr. lra.
  - unfold x. apply Rpower_le_1; lra.
Qed.

Lemma round_gamma_low (n : Z) (e : R) :
  (0 <= n <= 10)%Z -> - eta <= e <= eta ->
  Math_round (linearToSrgb (srgbToLinear (IZR n) + e)) = n.
Proof.
  intros Hn He. rewrite srgbToLinear_low by assumption.
  destruct Hn as [H0 H1]. pose proof (IZR_le _ _ H0) as H0'.
  pose proof (IZR_le _ _ H1) as H1'. unfold eta in He.
  apply Math_round_between.
  rewrite linearToSrgb_clamps.
  set (y := IZR n / 255 / 12.92 + e).
  assert (Hy : y <= 0.0031) by (unfold y; lra).
  destruct (Rle_dec 0 y) as [Hpos | Hneg].
  - rewrite clamp01_id by lra.
    unfold linearToSrgb_unclamped. destruct (Rle_dec y 0.0031308); [ | lra ].
    unfold y. lra.
  - rewrite clamp01_low by lra. rewrite linearToSrgb_unclamped_0.
    assert (Hn1 : IZR n < 1) by (unfold y in Hneg; lra).
    apply lt_IZR in Hn1. assert (n = 0%Z) by lia. subst n. lra.
Qed.

Lemma round_gamma_high (n : Z) (e : R) :
  (11 <= n <= 255)%Z -> - eta <= e <= eta ->
  Math_round (linearToSrgb (srgbToLinear (IZR n) + e)) = n.
Proof.
  intros Hn He. rewrite srgbToLinear_high by assumption.
  destruct Hn as [H0 H1]. pose proof (IZR_le _ _ H0) as H0'.
  pose proof (IZR_le _ _ H1) as H1'. unfold eta in He.
  set (u := (IZR n / 255 + 0.055) / 1.055).
  assert (Hu : 0.093 <= u <= 1) by (unfold u; lra).
  assert (Hn' : IZR n = (1.055 * u - 0.055) * 255) by (unfold u; lra).
  destruct (gamma_power_facts u Hu) as [Hx5 Hx].
  set (x := Rpower u 2.4) in *.
  apply Math_round_between. rewrite Hn'.
  rewrite linearToSrgb_clamps.
  set (c := Rmax 0 (Rmin 1 (x + e))).
  assert (Hc : c = Rmin 1 (x + e)).
  { unfold c. apply Rmax_right. unfold Rmin. destruct (Rle_dec 1 (x + e)); lra. }
  assert (Hc0 : 0.0032 <= c <= 1).
  { rewrite Hc. unfold Rmin. destruct (Rle_dec 1 (x + e)); lra. }
  unfold linearToSrgb_unclamped. destruct (Rle_dec c 0.0031308); [ lra | ].
  set (w := Rpower c (1 / 2.4)).
  assert (Hw0 : 0 < w) by apply exp_pos.
  assert (Hw12 : w ^ 12 = c ^ 5).
  { unfold w. apply Rpower_pow_rational; [ lra | simpl; lra ]. }
  assert (Hu12 : 0 < u ^ 12) by (apply pow_lt; lra).
  set (d := / 540).
  assert (Hupper : w < u + d).
  { apply pow_lt_inv with 12%nat; [ lra | unfold d; lra | ].
    rewrite Hw12.
    apply Rle_lt_trans with ((1.001 * x) ^ 5).
    { apply pow_incr. split; [ lra | ]. rewrite Hc.
      apply Rle_trans with (x + e); [ apply Rmin_r | lra ]. }
    apply Rlt_le_trans with (((1 + d) * u) ^ 12).
    { rewrite !Rpow_mult_distr, Hx5.
      apply Rmult_lt_compat_r; [ assumption | ]. unfold d. lra. }
    apply pow_incr. unfold d. split; nra. }
  assert (Hlower : u - d <= w).
  { apply pow_le_inv with 12%nat; [ lia | unfold d; lra | lra | ].
    rewrite Hw12.
    apply Rle_trans with (((1 - d) * u) ^ 12).
    { apply pow_incr. unfold d. split; nra. }
    destruct (Rle_dec 1 (x + e)) as [Hbig | Hsmall].
    - rewrite Hc, Rmin_left by assumption. rewrite pow1.
      rewrite <- (pow1 12). apply pow_incr. unfold d. split; nra.
    - apply Rle_trans with ((0.999 * x) ^ 5).
      { rewrite !Rpow_mult_distr, Hx5.
        apply Rmult_le_compat_r; [ lra | ]. unfold d. lra. }
      apply pow_incr. rewrite Hc, Rmin_right by lra. lra. }
  unfold d in *. lra.
Qed.

Lemma Math_cbrt_unit (x : R) :
  0 <= x <= 1 -> 0 <= Math_cbrt x <= 1 /\ Math_cbrt x ^ 3 = x.
Proof.
  intros Hx. unfold Math_cbrt.
  destruct (Rlt_dec 0 x) as [Hpos | Hz].
  - split; [ split | ].
    + left. apply exp_pos.
    + apply Rpower_le_1; lra.
    + rewrite (Rpower_pow_rational x (/ 3) 1 3) by (simpl; lra). lra.
  - destruct (Rlt_dec x 0); [ lra | ].
    assert (x = 0) by lra. subst x. split; [ lra | simpl; ring ].
Qed.

Lemma srgbToLinear_unit (n : Z) :
  (0 <= n <= 255)%Z -> 0 <= srgbToLinear (IZR n) <= 1.
Proof.
  intros Hn. destruct (Z_le_gt_dec n 10) as [Hlow | Hhigh].
  - rewrite srgbToLinear_low by lia.
    destruct Hn as [H0 _]. apply IZR_le in H0, Hlow. lra.
  - rewrite srgbToLinear_high by lia.
    assert (H0 : 11 <= IZR n) by (apply IZR_le; lia).
    assert (H1 : IZR n <= 255) by (apply IZR_le; lia).
    destruct (gamma_power_facts ((IZR n / 255 + 0.055) / 1.055)) as [_ Hx]; lra.
Qed.

Lemma round_gamma (n : Z) (e : R) :
  (0 <= n <= 255)%Z -> - eta <= e <= eta ->
  Math_round (linearToSrgb (srgbToLinear (IZR n) + e)) = n.
Proof.
  intros Hn He. destruct (Z_le_gt_dec n 10).
  - apply round_gamma_low; [ lia | assumption ].
  - apply round_gamma_high; [ lia | assumption ].
Qed.

(** From linear light to OKLCH and back to linear light: each channel
    returns up to [eta]. *)
Lemma oklch_linear_roundtrip (r g b : R) :
  0 <= srgbToLinear r <= 1 -> 0 <= srgbToLinear g <= 1 ->
  0 <= srgbToLinear b <= 1 ->
  let '(L, C, H) := rgbToOklch r g b in
  let '(lr, lg, lb) := oklchToLinear L C H in
  - eta <= lr - srgbToLinear r <= eta /\
  - eta <= lg - srgbToLinear g <= eta /\
  - eta <= lb - srgbToLinear b <= eta.
Proof.
  intros Hx Hy Hz. unfold rgbToOklch, oklchToLinear. cbv zeta.
  set (x := srgbToLinear r) in *. set (y := srgbToLinear g) in *.
  set (z := srgbToLinear b) in *.
  destruct (lms_range x y z Hx Hy Hz) as (Hl & Hm & Hs).
  set (l := 0.4122214708 * x + 0.5363325363 * y + 0.0514459929 * z) in *.
  set (m := 0.2119034982 * x + 0.6806995451 * y + 0.1073969566 * z) in *.
  set (s := 0.0883024619 * x + 0.2817188376 * y + 0.6299787005 * z) in *.
  destruct (Math_cbrt_unit l Hl) as [Ha Ha3].
  destruct (Math_cbrt_unit m Hm) as [Hb Hb3].
  destruct (Math_cbrt_unit s Hs) as [Hc Hc3].
  set (a := Math_cbrt l) in *. set (b' := Math_cbrt m) in *.
  set (c := Math_cbrt s) in *.
  pose proof (oklab_inverse_error a b' c Ha Hb Hc) as Hlab. cbv zeta in Hlab.
  set (L := 0.2104542553 * a + 0.7936177850 * b' - 0.0040720468 * c) in *.
  set (A := 1.9779984951 * a - 2.4285922050 * b' + 0.4505937099 * c) in *.
  set (B := 0.0259040371 * a + 0.7827717662 * b' - 0.8086757660 * c) in *.
  destruct (polar_degrees A B) as [HA HB]. cbv zeta in HA, HB.
  rewrite HA, HB.
  destruct Hlab as (H1 & H2 & H3).
  set (a' := L + 0.3963377774 * A + 0.2158037573 * B) in *.
  set (b'' := L - 0.1055613458 * A - 0.0638541728 * B) in *.
  set (c' := L - 0.0894841775 * A - 1.2914855480 * B) in *.
  pose proof (cube_perturb a (a' - a) 0.00000008 Ha ltac:(lra) ltac:(lra)) as Hda.
  pose proof (cube_perturb b' (b'' - b') 0.00000008 Hb ltac:(lra) ltac:(lra)) as Hdb.
  pose proof (cube_perturb c (c' - c) 0.00000008 Hc ltac:(lra) ltac:(lra)) as Hdc.
  replace (a + (a' - a)) with a' in Hda by ring.
  replace (b' + (b'' - b')) with b'' in Hdb by ring.
  replace (c + (c' - c)) with c' in Hdc by ring.
  rewrite Ha3 in Hda. rewrite Hb3 in Hdb. rewrite Hc3 in Hdc.
  pose proof (lms_inverse_error x y z (a' ^ 3 - l) (b'' ^ 3 - m) (c' ^ 3 - s)
                Hx Hy Hz ltac:(lra) ltac:(lra) ltac:(lra)) as Hlms.
  cbv zeta in Hlms. fold l m s in Hlms.
  replace (l + (a' ^ 3 - l)) with (a' ^ 3) in Hlms by ring.
  replace (m + (b'' ^ 3 - m)) with (b'' ^ 3) in Hlms by ring.
  replace (s + (c' ^ 3 - s)) with (c' ^ 3) in Hlms by ring.
  unfold eta. cbv beta iota.
  set (p1 := a' ^ 3) in *. set (p2 := b'' ^ 3) in *. set (p3 := c' ^ 3) in *.
  lra.
Qed.

Lemma oklch_roundtrip_exact (r g b : Z) :
  (0 <= r <= 255)%Z -> (0 <= g <= 255)%Z -> (0 <= b <= 255)%Z ->
  let '(L, C, H) := rgbToOklch (IZR r) (IZR g) (IZR b) in
  let '(r', g', b') := oklchToRgb L C H in
  Math_round r' = r /\ Math_round g' = g /\ Math_round b' = b.
Proof.
  intros Hr Hg Hb.
  pose proof (oklch_linear_roundtrip (IZR r) (IZR g) (IZR b)
                (srgbToLinear_unit r Hr) (srgbToLinear_unit g Hg)
                (srgbToLinear_unit b Hb)) as Hlin.
  destruct (rgbToOklch (IZR r) (IZR g) (IZR b)) as [[L C] H].
  unfold oklchToRgb.
  destruct (oklchToLinear L C H) as [[lr lg] lb].
  destruct Hlin as (H1 & H2 & H3).
  replace lr with (srgbToLinear (IZR r) + (lr - srgbToLinear (IZR r))) by ring.
  replace lg with (srgbToLinear (IZR g) + (lg - srgbToLinear (IZR g))) by ring.
  replace lb with (srgbToLinear (IZR b) + (lb - srgbToLinear (IZR b))) by ring.
  repeat split; apply round_gamma; assumption.
Qed.

End OklchRoundTrip.

(** ** Round trips through both colour spaces *)

Section RoundTrips.

Import JS Color.

(** C1: for integer channels in [0, 255], RGB to HSL and back
    ([rgbToHsl], [hslToRgb], also when packed by [rgbToHex]) and RGB to
    OKLCH and back ([rgbToOklch], [oklchToRgb], packed by [rgbToHex])
    give channels within one unit of the original ones. *)
Theorem rgb_roundtrips_within_one (r g b : Z) :
  (0 <= r <= 255)%Z -> (0 <= g <= 255)%Z -> (0 <= b <= 255)%Z ->
  (let '(h, s, l) := rgbToHsl (IZR r) (IZR g) (IZR b) in
   exists r1 g1 b1,
     hslToRgb h s l = (r1, g1, b1) /\
     hexToRgb (hslToHex h s l) = Some (r1, g1, b1) /\
     within_one r1 r /\ within_one g1 g /\ within_one b1 b) /\
  (let '(L, C, H) := rgbToOklch (IZR r) (IZR g) (IZR b) in
   exists r2 g2 b2,
     hexToRgb (oklchToHex L C H) = Some (r2, g2, b2) /\
     within_one r2 r /\ within_one g2 g /\ within_one b2 b).
Proof.
  intros Hr Hg Hb. split.
  - pose proof (hsl_roundtrip_exact r g b Hr Hg Hb) as Hhsl.
    destruct (rgbToHsl (IZR r) (IZR g) (IZR b)) as [[h s] l].
    exists r, g, b. unfold hslToHex. rewrite Hhsl.
    rewrite hexToRgb_rgbToHex, !clamp_IZR by assumption.
    unfold within_one. repeat split; trivial; lia.
  - pose proof (oklch_roundtrip_exact r g b Hr Hg Hb) as Hok.
    destruct (rgbToOklch (IZR r) (IZR g) (IZR b)) as [[L C] H].
    unfold oklchToHex.
    destruct (oklchToRgb L C H) as [[r' g'] b'].
    destruct Hok as (Er & Eg & Eb).
    exists r, g, b. rewrite hexToRgb_rgbToHex. unfold clamp.
    rewrite Er, Eg, Eb. unfold within_one.
    repeat split; try lia. f_equal. f_equal; [ f_equal | ]; lia.
Qed.

Lemma rgb_roundtrips_witness :
  let '(L, C, H) := rgbToOklch 170 84 32 in
  exists r2 g2 b2,
    hexToRgb (oklchToHex L C H) = Some (r2, g2, b2) /\
    within_one r2 170 /\ within_one g2 84 /\ within_one b2 32.
Proof.
  apply (rgb_roundtrips_within_one 170 84 32); lia.
Defined.

End RoundTrips.

(** ** Lightness along the shade ramp *)

Section ShadeLightness.

Import JS Color Shades.

Lemma hexToOklch_black : hexToOklch "#000000" = Some (0, 0, 0).
Proof.
  unfold hexToOklch.
  change (hexToRgb "#000000") with (Some (0, 0, 0)%Z).
  cbv beta iota. now rewrite rgbToOklch_black.
Qed.

(** Without chroma the three linear channels are the cube of the lightness:
    each row of the printed inverse matrix sums to 1. *)
Lemma oklchToLinear_gray (L H : R) : oklchToLinear L 0 H = (L ^ 3, L ^ 3, L ^ 3).
Proof.
  unfold oklchToLinear. cbv zeta.
  replace (0 * cos (H * PI / 180)) with 0 by ring.
  replace (0 * sin (H * PI / 180)) with 0 by ring.
  f_equal; [ f_equal | ]; lra.
Qed.

(** The byte of a linear value on the linear part of the transfer function. *)
Lemma clamp_linearToSrgb_low (c : R) (n : Z) :
  (0 <= n <= 255)%Z -> 0 <= c <= 0.0031308 ->
  IZR n - / 2 <= c * 12.92 * 255 < IZR n + / 2 ->
  clamp (linearToSrgb c) = n.
Proof.
  intros Hn Hc Hb. rewrite linearToSrgb_clamps, clamp01_id by lra.
  unfold linearToSrgb_unclamped. destruct (Rle_dec c 0.0031308); [ | lra ].
  unfold clamp. rewrite (Math_round_between _ n) by lra. lia.
Qed.

Lemma oklchToHex_gray (L H : R) (n : Z) :
  (0 <= n <= 255)%Z -> 0 <= L ^ 3 <= 0.0031308 ->
  IZR n - / 2 <= L ^ 3 * 12.92 * 255 < IZR n + / 2 ->
  oklchToHex L 0 H = ("#" ++ byte_field n ++ byte_field n ++ byte_field n)%string.
Proof.
  intros Hn Hc Hb. unfold oklchToHex, oklchToRgb. rewrite oklchToLinear_gray.
  rewrite rgbToHex_fields. now rewrite (clamp_linearToSrgb_low _ n).
Qed.

Lemma black_950 : entry (generateShades "#000000") 950 = Some "#030303"%string.
Proof.
  unfold generateShades. rewrite hexToOklch_black.
  change (entry _ 950) with
    (Some (oklchToHex (0 - (0 - DARK_END) * 0.92) (0 * Rmax 0 (1 - 0.92 * 0.65)) 0)).
  rewrite Rmult_0_l. f_equal.
  rewrite (oklchToHex_gray _ _ 3); [ reflexivity | lia | | ];
    unfold DARK_END; simpl; lra.
Qed.

Lemma Math_cbrt_between (x lo hi : R) :
  0 <= lo <= hi -> lo ^ 3 <= x <= hi ^ 3 -> x <= 1 -> lo <= Math_cbrt x <= hi.
Proof.
  intros [Hlo Hlohi] [Hl Hh] H1.
  assert (H0 : 0 <= x) by (pose proof (pow_le lo 3 Hlo); lra).
  destruct (Math_cbrt_unit x (conj H0 H1)) as [[Hc0 _] Hc3].
  assert (Hhi : 0 <= hi) by lra.
  split.
  - apply (pow_le_inv _ _ 3); [ lia | assumption | assumption | ].
    rewrite Hc3. exact Hl.
  - apply (pow_le_inv _ _ 3); [ lia | assumption | assumption | ].
    rewrite Hc3. exact Hh.
Qed.

(** The OKLCH coordinates of the dark gray [#040404]. *)
Lemma dark_gray_oklch :
  exists L C H,
    hexToOklch "#040404" = Some (L, C, H) /\
    0.106669 <= L <= 0.106691 /\ 0 <= C <= 0.00007.
Proof.
  unfold hexToOklch. change (hexToRgb "#040404") with (Some (4, 4, 4)%Z).
  cbv beta iota. unfold rgbToOklch. cbv zeta.
  rewrite (srgbToLinear_low 4) by lia.
  set (x := 4 / 255 / 12.92).
  assert (Hx : 0.0012141 <= x <= 0.0012142) by (unfold x; lra).
  replace (0.4122214708 * x + 0.5363325363 * x + 0.0514459929 * x) with x by lra.
  replace (0.2119034982 * x + 0.6806995451 * x + 0.1073969566 * x)
    with (0.9999999999 * x) by lra.
  replace (0.0883024619 * x + 0.2817188376 * x + 0.6299787005 * x) with x by lra.
  pose proof (Math_cbrt_between x 0.10667 0.10669 ltac:(lra) ltac:(lra) ltac:(lra)) as Hc.
  pose proof (Math_cbrt_between (0.9999999999 * x) 0.10667 0.10669
                ltac:(lra) ltac:(lra) ltac:(lra)) as Hm.
  set (c := Math_cbrt x) in *. set (m := Math_cbrt (0.9999999999 * x)) in *.
  do 3 eexists. split; [ reflexivity | ]. split; [ lra | ].
  split; [ apply sqrt_pos | ].
  set (A := 1.9779984951 * c - 2.4285922050 * m + 0.4505937099 * c).
  set (B := 0.0259040371 * c + 0.7827717662 * m - 0.8086757660 * c).
  assert (HA : - 0.00005 <= A <= 0.00005) by (unfold A; lra).
  assert (HB : - 0.00002 <= B <= 0.00002) by (unfold B; lra).
  rewrite <- (sqrt_square 0.00007) by lra.
  apply sqrt_le_1_alt. nra.
Qed.

Lemma dark_gray_shade (L C H : R) :
  0.105468 <= L <= 0.105487 -> 0 <= C <= 0.00007 ->
  oklchToHex L C H = "#040404"%string.
Proof.
  intros HL HC. unfold oklchToHex, oklchToRgb, oklchToLinear. cbv zeta.
  pose proof (COS_bound (H * PI / 180)) as Hcos.
  pose proof (SIN_bound (H * PI / 180)) as Hsin.
  set (A := C * cos (H * PI / 180)). set (B := C * sin (H * PI / 180)).
  assert (HA : - 0.00007 <= A <= 0.00007) by (unfold A; nra).
  assert (HB : - 0.00007 <= B <= 0.00007) by (unfold B; nra).
  clearbody A B. clear Hcos Hsin.
  set (l_ := L + 0.3963377774 * A + 0.2158037573 * B).
  set (m_ := L - 0.1055613458 * A - 0.0638541728 * B).
  set (s_ := L - 0.0894841775 * A - 1.2914855480 * B).
  assert (Hl : 0.10542 <= l_ <= 0.10553) by (unfold l_; lra).
  assert (Hm : 0.10545 <= m_ <= 0.10550) by (unfold m_; lra).
  assert (Hs : 0.10537 <= s_ <= 0.10559) by (unfold s_; lra).
  clearbody l_ m_ s_.
  assert (Hl3 : 0.0011715 <= l_ ^ 3 <= 0.0011753).
  { pose proof (pow_incr 0.10542 l_ 3 ltac:(lra)).
    pose proof (pow_incr l_ 0.10553 3 ltac:(lra)). lra. }
  assert (Hm3 : 0.0011725 <= m_ ^ 3 <= 0.0011743).
  { pose proof (pow_incr 0.10545 m_ 3 ltac:(lra)).
    pose proof (pow_incr m_ 0.10550 3 ltac:(lra)). lra. }
  assert (Hs3 : 0.0011699 <= s_ ^ 3 <= 0.0011773).
  { pose proof (pow_incr 0.10537 s_ 3 ltac:(lra)).
    pose proof (pow_incr s_ 0.10559 3 ltac:(lra)). lra. }
  set (l := l_ ^ 3) in *. set (m := m_ ^ 3) in *. set (s := s_ ^ 3) in *.
  clearbody l m s.
  rewrite rgbToHex_fields.
  rewrite !(clamp_linearToSrgb_low _ 4) by (try lia; lra).
  reflexivity.
Qed.

(** Inside the domain of the amended C3 the colours that are returned can
    still coincide: the dark gray [#040404] has a lightness just above the
    dark endpoint, and its level 600 rounds to the same bytes as the base
    colour at level 500. *)
Lemma dark_gray_shades_coincide :
  exists L C H,
    hexToOklch "#040404" = Some (L, C, H) /\
    DARK_END < L < LIGHT_END /\
    entry (generateShades "#040404") 500 = Some "#040404"%string /\
    entry (generateShades "#040404") 600 = Some "#040404"%string.
Proof.
  destruct dark_gray_oklch as (L & C & H & Hbase & HL & HC).
  exists L, C, H. split; [ exact Hbase | ].
  split; [ unfold DARK_END, LIGHT_END; lra | ].
  split; [ reflexivity | ].
  unfold generateShades. rewrite Hbase.
  change (entry _ 600) with
    (Some (oklchToHex (L - (L - DARK_END) * 0.18) (C * Rmax 0 (1 - 0.18 * 0.65)) H)).
  f_equal. apply dark_gray_shade.
  - unfold DARK_END. lra.
  - rewrite Rmax_right by lra. nra.
Qed.

(** C3, as stated, fails on black: its lightness 0 lies below the dark
    endpoint 0.10, so the darker levels interpolate upward: level 600 is
    assigned a lightness above that of level 500, and the colour returned
    for level 950, [#030303], is lighter than the black returned for level
    500. *)
Lemma black_ramp_is_not_decreasing :
  hexToOklch "#000000" = Some (0, 0, 0) /\
  nth 5 (ramp_lightness (0, 0, 0)) 0 = 0 /\
  nth 6 (ramp_lightness (0, 0, 0)) 0 = 0.018 /\
  ~ strictly_decreasing (ramp_lightness (0, 0, 0)) /\
  entry (generateShades "#000000") 500 = Some "#000000"%string /\
  entry (generateShades "#000000") 950 = Some "#030303"%string.
Proof.
  split; [ exact hexToOklch_black | ].
  rewrite ramp_lightness_values. simpl.
  split; [ reflexivity | ]. split; [ lra | ]. split; [ lra | ].
  split; [ reflexivity | exact black_950 ].
Qed.

(** C3, amended: [generateShades] assigns an OKLCH triple to each of the
    eleven levels, the base colour's own at level 500 and at every other
    level the triple whose [oklchToHex] is the entry of the ramp; the
    lightness of these triples is strictly decreasing from level 50 to level
    950 exactly when the base lightness lies strictly between the dark
    endpoint 0.10 and the light endpoint 0.98. *)
Theorem lightness_decreasing_between_endpoints (hex : string) (baseL baseC baseH : R) :
  hexToOklch hex = Some (baseL, baseC, baseH) ->
  List.length (levels_oklch (baseL, baseC, baseH) SHADES) = 11%nat /\
  nth_error (levels_oklch (baseL, baseC, baseH) SHADES) 5 = Some (baseL, baseC, baseH) /\
  (forall i level,
      nth_error SHADES i = Some level -> level <> 500%Z ->
      exists L C H,
        nth_error (levels_oklch (baseL, baseC, baseH) SHADES) i = Some (L, C, H) /\
        nth_error (generateShades hex) i = Some (level, oklchToHex L C H)) /\
  (strictly_decreasing (map lightness (levels_oklch (baseL, baseC, baseH) SHADES)) <->
   DARK_END < baseL < LIGHT_END).
Proof.
  intros Hbase.
  split; [ reflexivity | ]. split; [ reflexivity | ]. split.
  - intros i level Hi Hne. unfold generateShades. rewrite Hbase.
    do 11 (destruct i as [ | i];
           [ cbn in Hi; injection Hi as <-; try congruence;
             do 3 eexists; split; reflexivity | ]).
    destruct i; discriminate Hi.
  - change (map lightness (levels_oklch (baseL, baseC, baseH) SHADES))
      with (ramp_lightness (baseL, baseC, baseH)).
    rewrite ramp_lightness_values. unfold DARK_END, LIGHT_END. simpl.
    split; intros H; lra.
Qed.

Lemma lightness_decreasing_witness :
  exists L C H,
    hexToOklch "#040404" = Some (L, C, H) /\
    strictly_decreasing (map lightness (levels_oklch (L, C, H) SHADES)).
Proof.
  destruct dark_gray_oklch as (L & C & H & Hbase & HL & HC).
  exists L, C, H. split; [ exact Hbase | ].
  apply (lightness_decreasing_between_endpoints "#040404" L C H Hbase).
  unfold DARK_END, LIGHT_END. lra.
Defined.

End ShadeLightness.

(** ** Colour strings: the optional ['#'], the short form, validity *)

Section HexParsing.

Import JS Color Cli.
Local Open Scope string_scope.

Lemma hex_digit_not_hash (c : ascii) :
  is_hex_digit c = true -> Ascii.eqb "#" c = false.
Proof.
  intros H. apply is_hex_digit_enum in H. simpl in H.
  repeat (destruct H as [<- | H]; [ reflexivity | ]). contradiction.
Qed.

Lemma remove_first_hex (s : string) :
  all_hex_digits s = true -> remove_first "#" s = s.
Proof.
  induction s as [ | c s IH]; intros H; cbn [remove_first all_hex_digits] in *;
    [ reflexivity | ].
  apply andb_true_iff in H. destruct H as [Hc Hs].
  rewrite (hex_digit_not_hash c Hc). now rewrite IH.
Qed.

(** X1.  [hexToRgb] reads a colour without its leading ['#'] exactly as it
    reads the same colour with it: only the first ['#'] is removed, and a
    run of hexadecimal digits holds none. *)
Theorem hexToRgb_hash_optional (digits : string) :
  all_hex_digits digits = true ->
  hexToRgb digits = hexToRgb (String "#" digits).
Proof.
  intros H. unfold hexToRgb. simpl remove_first.
  now rewrite remove_first_hex.
Qed.

Lemma hexToRgb_hash_optional_witness : hexToRgb "aa5420" = hexToRgb "#aa5420".
Proof.
  apply (hexToRgb_hash_optional "aa5420"). reflexivity.
Defined.

Lemma parse_single (c : ascii) :
  is_hex_digit c = true ->
  exists v, hex_value c = Some v /\ (0 <= v <= 15)%Z /\
            parseInt16 (String c (String c "")) = Some (17 * v)%Z.
Proof.
  intros H. apply is_hex_digit_enum in H. simpl in H.
  repeat (destruct H as [<- | H];
          [ eexists; split; [ reflexivity | split; [ vm_compute; split; discriminate | reflexivity ] ] | ]).
  contradiction.
Qed.

(** X2.  The 3-digit form [#abc] is read as [#aabbcc]: each digit of value
    [v] gives the channel [17 * v]. *)
Theorem hexToRgb_short_form (c1 c2 c3 : ascii) :
  is_hex_digit c1 = true -> is_hex_digit c2 = true -> is_hex_digit c3 = true ->
  exists v1 v2 v3,
    hex_value c1 = Some v1 /\ hex_value c2 = Some v2 /\ hex_value c3 = Some v3 /\
    hexToRgb (String "#" (String c1 (String c2 (String c3 "")))) =
      Some (17 * v1, 17 * v2, 17 * v3)%Z /\
    hexToRgb (String "#" (String c1 (String c2 (String c3 "")))) =
      hexToRgb (String "#" (String c1 (String c1 (String c2 (String c2
                  (String c3 (String c3 ""))))))).
Proof.
  intros H1 H2 H3.
  destruct (parse_single c1 H1) as [v1 [E1 [_ P1]]].
  destruct (parse_single c2 H2) as [v2 [E2 [_ P2]]].
  destruct (parse_single c3 H3) as [v3 [E3 [_ P3]]].
  exists v1, v2, v3. repeat split; trivial.
  - unfold hexToRgb. cbn -[parseInt16]. now rewrite P1, P2, P3.
Qed.

Lemma hexToRgb_short_form_witness :
  exists v1 v2 v3,
    hex_value "f" = Some v1 /\ hex_value "a" = Some v2 /\ hex_value "0" = Some v3 /\
    hexToRgb "#fa0" = Some (17 * v1, 17 * v2, 17 * v3)%Z /\
    hexToRgb "#fa0" = hexToRgb "#ffaa00".
Proof.
  apply (hexToRgb_short_form "f" "a" "0"); reflexivity.
Defined.

Lemma valid_three_digits (hex : string) :
  isValidHex hex = true -> String.length hex = 4%nat ->
  exists c1 c2 c3,
    hex = String "#" (String c1 (String c2 (String c3 ""))) /\
    Forall (fun c => is_hex_digit c = true) [c1; c2; c3].
Proof.
  intros Hv Hl.
  destruct hex as [ | c0 [ | c1 [ | c2 [ | c3 [ | ? ? ]]]]]; try discriminate Hl.
  unfold isValidHex in Hv. simpl in Hv. rewrite andb_true_r in Hv.
  apply andb_true_iff in Hv. destruct Hv as [H0 Hd].
  apply Ascii.eqb_eq in H0. subst c0.
  repeat (apply andb_true_iff in Hd; let H := fresh "Hc" in destruct Hd as [H Hd]).
  exists c1, c2, c3. split; [ reflexivity | ]. repeat constructor; assumption.
Qed.

Lemma valid_length (hex : string) :
  isValidHex hex = true -> String.length hex = 4%nat \/ String.length hex = 7%nat.
Proof.
  destruct hex as [ | c digits]; [ discriminate | ]. unfold isValidHex. simpl.
  intros H. apply andb_true_iff in H. destruct H as [_ H].
  apply orb_true_iff in H. destruct H as [H | H]; apply Nat.eqb_eq in H; lia.
Qed.

Lemma valid_hex_parses (hex : string) :
  isValidHex hex = true ->
  exists r g b,
    hexToRgb hex = Some (r, g, b) /\
    ((0 <= r <= 255) /\ (0 <= g <= 255) /\ (0 <= b <= 255))%Z.
Proof.
  intros Hv. destruct (valid_length hex Hv) as [Hl | Hl].
  - destruct (valid_three_digits hex Hv Hl) as [c1 [c2 [c3 [-> Hd]]]].
    repeat match goal with
           | H : Forall _ (_ :: _) |- _ => inversion H; clear H; subst
           end.
    destruct (parse_single c1) as [v1 [_ [R1 P1]]]; trivial.
    destruct (parse_single c2) as [v2 [_ [R2 P2]]]; trivial.
    destruct (parse_single c3) as [v3 [_ [R3 P3]]]; trivial.
    exists (17 * v1)%Z, (17 * v2)%Z, (17 * v3)%Z.
    unfold hexToRgb. cbn -[parseInt16 Z.mul]. rewrite P1, P2, P3.
    split; [ reflexivity | lia ].
  - destruct (valid_six_digits hex Hv Hl) as [c1 [c2 [c3 [c4 [c5 [c6 [-> Hd]]]]]]].
    destruct (hexToRgb_six c1 c2 c3 c4 c5 c6 Hd) as [r [g [b [H [Hr _]]]]].
    now exists r, g, b.
Qed.

(** X3.  A colour accepted by [isValidHex], in the 3-digit or the 6-digit
    form, always parses: [hexToRgb] gives three bytes, and [hexToHsl] and
    [hexToOklch] are the conversions of these bytes (no NaN). *)
Theorem hexToRgb_of_valid (hex : string) :
  isValidHex hex = true ->
  exists r g b,
    hexToRgb hex = Some (r, g, b) /\
    ((0 <= r <= 255) /\ (0 <= g <= 255) /\ (0 <= b <= 255))%Z /\
    hexToHsl hex = Some (rgbToHsl (IZR r) (IZR g) (IZR b)) /\
    hexToOklch hex = Some (rgbToOklch (IZR r) (IZR g) (IZR b)).
Proof.
  intros Hv. destruct (valid_hex_parses hex Hv) as [r [g [b [Hrgb Hbytes]]]].
  exists r, g, b. unfold hexToHsl, hexToOklch. rewrite Hrgb.
  repeat split; try reflexivity; apply Hbytes.
Qed.

Lemma hexToRgb_of_valid_witness :
  exists r g b,
    hexToRgb "#abc" = Some (r, g, b) /\
    ((0 <= r <= 255) /\ (0 <= g <= 255) /\ (0 <= b <= 255))%Z /\
    hexToHsl "#abc" = Some (rgbToHsl (IZR r) (IZR g) (IZR b)) /\
    hexToOklch "#abc" = Some (rgbToOklch (IZR r) (IZR g) (IZR b)).
Proof.
  apply (hexToRgb_of_valid "#abc"). reflexivity.
Defined.

Lemma lower_hex_is_hex (c : ascii) : is_lower_hex c = true -> is_hex_digit c = true.
Proof.
  destruct c as [[ | ] [ | ] [ | ] [ | ] [ | ] [ | ] [ | ] [ | ]];
    intros H; try discriminate H; reflexivity.
Qed.

(** Whatever the three numbers, [rgbToHex] prints a colour that
    [isValidHex] accepts. *)
Lemma rgbToHex_valid (x y z : R) : isValidHex (rgbToHex x y z) = true.
Proof.
  destruct (byte_field_digits (clamp x) (clamp_range x)) as [d1 [d2 [F1 [L1 [L2 _]]]]].
  destruct (byte_field_digits (clamp y) (clamp_range y)) as [d3 [d4 [F2 [L3 [L4 _]]]]].
  destruct (byte_field_digits (clamp z) (clamp_range z)) as [d5 [d6 [F3 [L5 [L6 _]]]]].
  rewrite rgbToHex_fields, F1, F2, F3.
  apply lower_hex_is_hex in L1, L2, L3, L4, L5, L6.
  unfold isValidHex. simpl. now rewrite L1, L2, L3, L4, L5, L6.
Qed.

Lemma oklchToHex_valid (L C H : R) : isValidHex (oklchToHex L C H) = true.
Proof.
  unfold oklchToHex. destruct (oklchToRgb L C H) as [[r g] b].
  apply rgbToHex_valid.
Qed.

(** X4.  Through HSL or OKLCH and back, a valid 6-digit colour comes back
    as the same colour, in lower case. *)
Theorem hex_through_colour_spaces (hex : string) :
  isValidHex hex = true -> String.length hex = 7%nat ->
  (exists h s l, hexToHsl hex = Some (h, s, l) /\ hslToHex h s l = toLowerCase hex) /\
  (exists L C H, hexToOklch hex = Some (L, C, H) /\ oklchToHex L C H = toLowerCase hex).
Proof.
  intros Hv Hl.
  destruct (valid_six_digits hex Hv Hl) as [c1 [c2 [c3 [c4 [c5 [c6 [-> Hd]]]]]]].
  destruct (hexToRgb_six c1 c2 c3 c4 c5 c6 Hd)
    as [r [g [b [Hrgb [[Hr [Hg Hb]] [Fr [Fg Fb]]]]]]].
  assert (Hhex : rgbToHex (IZR r) (IZR g) (IZR b) =
                 toLowerCase (String "#" (String c1 (String c2 (String c3
                   (String c4 (String c5 (String c6 "")))))))).
  { rewrite rgbToHex_fields, !clamp_IZR by assumption.
    rewrite Fr, Fg, Fb. reflexivity. }
  split.
  - unfold hexToHsl. rewrite Hrgb.
    pose proof (hsl_roundtrip_exact r g b Hr Hg Hb) as Hrt.
    destruct (rgbToHsl (IZR r) (IZR g) (IZR b)) as [[h s] l].
    exists h, s, l. split; [ reflexivity | ].
    unfold hslToHex. now rewrite Hrt.
  - unfold hexToOklch. rewrite Hrgb.
    pose proof (oklch_roundtrip_exact r g b Hr Hg Hb) as Hrt.
    destruct (rgbToOklch (IZR r) (IZR g) (IZR b)) as [[L C] H].
    exists L, C, H. split; [ reflexivity | ].
    unfold oklchToHex. destruct (oklchToRgb L C H) as [[r' g'] b'].
    destruct Hrt as (Er & Eg & Eb).
    rewrite <- Hhex, !rgbToHex_fields. unfold clamp.
    now rewrite Er, Eg, Eb, !Math_round_IZR.
Qed.

Lemma hex_through_colour_spaces_witness :
  (exists h s l, hexToHsl "#AA5420" = Some (h, s, l) /\
                 hslToHex h s l = toLowerCase "#AA5420") /\
  (exists L C H, hexToOklch "#AA5420" = Some (L, C, H) /\
                 oklchToHex L C H = toLowerCase "#AA5420").
Proof.
  apply (hex_through_colour_spaces "#AA5420"); reflexivity.
Defined.

End HexParsing.

(** ** The transfer functions on bytes; the ranges of HSL *)

Section ChannelRanges.

Import JS Color.

(** X5.  The two sRGB transfer functions are inverse to each other on the
    256 channel bytes: [linearToSrgb (srgbToLinear n)] is [n] again, with no
    rounding needed. *)
Theorem gamma_roundtrip_bytes (n : Z) :
  (0 <= n <= 255)%Z -> linearToSrgb (srgbToLinear (IZR n)) = IZR n.
Proof.
  intros Hn. destruct (Z_le_gt_dec n 10) as [Hlow | Hhigh].
  - rewrite srgbToLinear_low by lia.
    assert (H0 : 0 <= IZR n) by (apply IZR_le; lia).
    assert (H1 : IZR n <= 10) by (apply IZR_le; lia).
    rewrite linearToSrgb_clamps, clamp01_id by lra.
    unfold linearToSrgb_unclamped.
    destruct (Rle_dec (IZR n / 255 / 12.92) 0.0031308); lra.
  - rewrite srgbToLinear_high by lia.
    assert (H0 : 11 <= IZR n) by (apply IZR_le; lia).
    assert (H1 : IZR n <= 255) by (apply IZR_le; lia).
    set (u := (IZR n / 255 + 0.055) / 1.055).
    assert (Hu : 0.093 <= u <= 1) by (unfold u; lra).
    destruct (gamma_power_facts u Hu) as [_ Hx].
    rewrite linearToSrgb_clamps, clamp01_id by lra.
    unfold linearToSrgb_unclamped.
    destruct (Rle_dec (Rpower u 2.4) 0.0031308); [ lra | ].
    rewrite Rpower_mult.
    replace (2.4 * (1 / 2.4)) with 1 by lra.
    rewrite Rpower_1 by lra. unfold u. lra.
Qed.

Lemma gamma_roundtrip_bytes_witness : linearToSrgb (srgbToLinear 128) = 128.
Proof.
  apply (gamma_roundtrip_bytes 128). lia.
Defined.

Lemma Rmax3_spec (r g b : R) :
  let m := Rmax r (Rmax g b) in
  r <= m /\ g <= m /\ b <= m /\ (m = r \/ m = g \/ m = b).
Proof.
  unfold Rmax. repeat destruct (Rle_dec _ _); repeat split; try lra; auto.
Qed.

Lemma Rmin3_spec (r g b : R) :
  let m := Rmin r (Rmin g b) in
  m <= r /\ m <= g /\ m <= b /\ (m = r \/ m = g \/ m = b).
Proof.
  unfold Rmin. repeat destruct (Rle_dec _ _); repeat split; try lra; auto.
Qed.

Lemma quotient_unit (a d : R) : 0 < d -> - d <= a <= d -> -1 <= a / d <= 1.
Proof.
  intros Hd Ha. split.
  - apply div_lower; lra.
  - destruct (Rle_dec (a / d) 1) as [ | Hn]; [ assumption | exfalso ].
    assert (H : a / d * d = a) by (field; lra). nra.
Qed.

Lemma quotient_sign (a d : R) :
  0 < d -> (0 <= a -> 0 <= a / d) /\ (a < 0 -> a / d < 0).
Proof.
  intros Hd. split; intros Ha.
  - apply div_lower; lra.
  - apply div_upper; lra.
Qed.

(** X6.  For channels in [0, 255], [rgbToHsl] gives a hue in [0, 360) and a
    saturation and a lightness in [0, 1]; the saturation is 0 exactly for
    the grays ([r = g = b]). *)
Theorem rgbToHsl_ranges (r g b : R) :
  0 <= r <= 255 -> 0 <= g <= 255 -> 0 <= b <= 255 ->
  let '(h, s, l) := rgbToHsl r g b in
  0 <= h < 360 /\ 0 <= s <= 1 /\ 0 <= l <= 1 /\
  (s = 0 <-> r = g /\ g = b).
Proof.
  intros Hr Hg Hb. unfold rgbToHsl. cbv zeta.
  set (R := r / 255). set (G := g / 255). set (B := b / 255).
  assert (HR : 0 <= R <= 1) by (unfold R; lra).
  assert (HG : 0 <= G <= 1) by (unfold G; lra).
  assert (HB : 0 <= B <= 1) by (unfold B; lra).
  pose proof (Rmax3_spec R G B) as Hmax. pose proof (Rmin3_spec R G B) as Hmin.
  cbv zeta in Hmax, Hmin.
  set (M := Rmax R (Rmax G B)) in *. set (m := Rmin R (Rmin G B)) in *.
  destruct Hmax as (M1 & M2 & M3 & Mc). destruct Hmin as (m1 & m2 & m3 & mc).
  destruct (Req_dec_T M m) as [Heq | Hne].
  - split; [ lra | ]. split; [ lra | ]. split; [ lra | ].
    split; [ | reflexivity ]. intros _. unfold R, G, B in *. split; lra.
  - assert (Hd : 0 < M - m) by lra.
    assert (HM : M <= 1) by (destruct Mc as [-> | [-> | ->]]; lra).
    assert (Hm : 0 <= m) by (destruct mc as [-> | [-> | ->]]; lra).
    split; [ | split; [ | split ] ].
    + (* hue *)
      destruct (Req_dec_T M R) as [E1 | E1].
      * destruct (quotient_unit (G - B) (M - m) Hd ltac:(lra)) as [Q1 Q2].
        destruct (quotient_sign (G - B) (M - m) Hd) as [S1 S2].
        destruct (Rlt_dec G B) as [Hgb | Hgb].
        -- specialize (S2 ltac:(lra)). lra.
        -- specialize (S1 ltac:(lra)). lra.
      * destruct (Req_dec_T M G) as [E2 | E2].
        -- destruct (quotient_unit (B - R) (M - m) Hd ltac:(lra)) as [Q1 Q2]. lra.
        -- destruct (quotient_unit (R - G) (M - m) Hd ltac:(lra)) as [Q1 Q2].
           assert (Q3 : (R - G) / (M - m) < 1).
           { apply div_upper; [ assumption | ].
             assert (M = B) by (destruct Mc as [ | [ | ]]; lra). lra. }
           lra.
    + (* saturation *)
      destruct (Rlt_dec 0.5 ((M + m) / 2)).
      * split; [ apply div_lower; lra | ].
        destruct (quotient_unit (M - m) (2 - M - m) ltac:(lra) ltac:(lra)). lra.
      * split; [ apply div_lower; lra | ].
        destruct (quotient_unit (M - m) (M + m) ltac:(lra) ltac:(lra)). lra.
    + lra.
    + split.
      * intros Hs. exfalso.
        destruct (Rlt_dec 0.5 ((M + m) / 2)).
        -- assert (0 < (M - m) / (2 - M - m)) by (apply Rdiv_lt_0_compat; lra). lra.
        -- assert (0 < (M - m) / (M + m)) by (apply Rdiv_lt_0_compat; lra). lra.
      * intros [E1 E2]. exfalso. unfold R, G, B in *.
        assert (r / 255 = g / 255) by lra. assert (g / 255 = b / 255) by lra.
        destruct Mc as [ | [ | ]]; destruct mc as [ | [ | ]]; lra.
Qed.

Lemma rgbToHsl_ranges_witness :
  let '(h, s, l) := rgbToHsl 170 84 32 in
  0 <= h < 360 /\ 0 <= s <= 1 /\ 0 <= l <= 1 /\
  (s = 0 <-> 170 = 84 /\ 84 = 32).
Proof.
  apply (rgbToHsl_ranges 170 84 32); lra.
Defined.

Lemma hue2rgb_between (p q t : R) :
  p <= q -> -1 <= t <= 2 -> p <= hue2rgb p q t <= q.
Proof.
  intros Hpq Ht. unfold hue2rgb.
  set (t1 := if Rlt_dec t 0 then t + 1 else t).
  assert (Ht1 : 0 <= t1 <= 2) by (unfold t1; destruct (Rlt_dec t 0); lra).
  set (t2 := if Rlt_dec 1 t1 then t1 - 1 else t1).
  assert (Ht2 : 0 <= t2 <= 1) by (unfold t2; destruct (Rlt_dec 1 t1); lra).
  clearbody t2. clear t1 Ht1.
  destruct (Rlt_dec t2 (1 / 6)) as [H1 | H1].
  - assert (0 <= (q - p) * t2) by (apply Rmult_le_pos; lra).
    assert ((q - p) * t2 <= (q - p) * (1 / 6)) by (apply Rmult_le_compat_l; lra).
    lra.
  - destruct (Rlt_dec t2 (1 / 2)) as [H2 | H2]; [ lra | ].
    destruct (Rlt_dec t2 (2 / 3)) as [H3 | H3]; [ | lra ].
    assert (0 <= (q - p) * (2 / 3 - t2)) by (apply Rmult_le_pos; lra).
    assert ((q - p) * (2 / 3 - t2) <= (q - p) * (1 / 6))
      by (apply Rmult_le_compat_l; lra).
    lra.
Qed.

(** X7.  For a hue in [0, 360] and a saturation and a lightness in [0, 1],
    the three channels of [hslToRgb] are bytes. *)
Theorem hslToRgb_bytes (h s l : R) :
  0 <= h <= 360 -> 0 <= s <= 1 -> 0 <= l <= 1 ->
  let '(r, g, b) := hslToRgb h s l in
  (0 <= r <= 255 /\ 0 <= g <= 255 /\ 0 <= b <= 255)%Z.
Proof.
  intros Hh Hs Hl.
  assert (Hround : forall v, 0 <= v <= 1 -> (0 <= Math_round (v * 255) <= 255)%Z).
  { intros v Hv. split.
    - pose proof (Math_round_mono 0 (v * 255) ltac:(lra)) as H.
      now rewrite Math_round_IZR in H.
    - pose proof (Math_round_mono (v * 255) 255 ltac:(lra)) as H.
      now rewrite Math_round_IZR in H. }
  unfold hslToRgb. cbv zeta.
  destruct (Req_dec_T s 0) as [Hs0 | Hs0].
  - pose proof (Hround l Hl). tauto.
  - set (q := if Rlt_dec l 0.5 then l * (1 + s) else l + s - l * s).
    assert (Hq : 0 <= 2 * l - q /\ 2 * l - q <= q /\ q <= 1).
    { unfold q. destruct (Rlt_dec l 0.5); repeat split; nra. }
    destruct Hq as (Hp0 & Hpq & Hq1).
    assert (Hch : forall t, -1 <= t <= 2 -> 0 <= hue2rgb (2 * l - q) q t <= 1).
    { intros t Ht. pose proof (hue2rgb_between (2 * l - q) q t Hpq Ht). lra. }
    repeat split; apply Hround; apply Hch; lra.
Qed.

Lemma hslToRgb_bytes_witness :
  let '(r, g, b) := hslToRgb 20 0.5 0.25 in
  (0 <= r <= 255 /\ 0 <= g <= 255 /\ 0 <= b <= 255)%Z.
Proof.
  apply (hslToRgb_bytes 20 0.5 0.25); lra.
Defined.

End ChannelRanges.

(** ** The hue wheel: polar form, whole turns, the shape of the strategies *)

Section HueWheel.

Import JS JSText Color Strategies.

Lemma atan_sign (z : R) : (0 <= z -> 0 <= atan z) /\ (z <= 0 -> atan z <= 0).
Proof.
  split; intros Hz.
  - destruct Hz as [Hz | <-]; [ | rewrite atan_0; lra ].
    left. rewrite <- atan_0. now apply atan_increasing.
  - destruct Hz as [Hz | ->]; [ | rewrite atan_0; lra ].
    left. rewrite <- atan_0. now apply atan_increasing.
Qed.

Lemma Math_atan2_range (y x : R) : - PI < Math_atan2 y x <= PI.
Proof.
  pose proof PI_RGT_0 as Hpi. unfold Math_atan2.
  destruct (Rlt_dec 0 x) as [Hx | Hx].
  - pose proof (atan_bound (y / x)). lra.
  - destruct (Rlt_dec x 0) as [Hx' | Hx'].
    + pose proof (atan_bound (y / x)) as Hb.
      destruct (atan_sign (y / x)) as [Hp Hn].
      assert (Hq : y / x * x = y) by (field; lra).
      destruct (Rle_dec 0 y) as [Hy | Hy].
      * assert (Hs : y / x <= 0).
        { destruct (Rle_dec (y / x) 0) as [ | Hc]; [ assumption | exfalso ].
          assert (0 < y / x) by lra. nra. }
        specialize (Hn Hs). lra.
      * assert (Hs : 0 < y / x).
        { destruct (Rlt_dec 0 (y / x)) as [ | Hc]; [ assumption | exfalso ].
          assert (y / x <= 0) by lra. nra. }
        apply atan_increasing in Hs. rewrite atan_0 in Hs. lra.
    + destruct (Rlt_dec 0 y); [ lra | ]. destruct (Rlt_dec y 0); lra.
Qed.

(** X8.  Whatever the three channels, the chroma that [rgbToOklch] returns
    is not negative and its hue lies in [0, 360). *)
Theorem rgbToOklch_polar_range (r g b : R) :
  let '(L, C, H) := rgbToOklch r g b in 0 <= C /\ 0 <= H < 360.
Proof.
  unfold rgbToOklch. cbv zeta. split; [ apply sqrt_pos | ].
  match goal with
  | |- context [Math_atan2 ?y ?x] =>
      pose proof (Math_atan2_range y x) as Ha; set (a := Math_atan2 y x) in *
  end.
  pose proof PI_RGT_0 as Hpi.
  assert (Hlo : -180 < a * 180 / PI).
  { apply Rmult_lt_reg_r with PI; [ assumption | ].
    replace (a * 180 / PI * PI) with (a * 180) by (field; lra). lra. }
  assert (Hhi : a * 180 / PI <= 180).
  { apply Rmult_le_reg_r with PI; [ assumption | ].
    replace (a * 180 / PI * PI) with (a * 180) by (field; lra). lra. }
  destruct (Rlt_dec (a * 180 / PI) 0); lra.
Qed.

Lemma rem_congruent (a b : R) : exists k : Z, rem a b = a + b * IZR k.
Proof.
  unfold rem. exists (- trunc (a / b))%Z. rewrite opp_IZR. ring.
Qed.

Lemma wheel_unique (x y : R) (k : Z) :
  0 <= x < 360 -> 0 <= y < 360 -> x = y + 360 * IZR k -> x = y.
Proof.
  intros Hx Hy E.
  assert (Hk : (k = 0)%Z).
  { assert (H1 : -1 < IZR k) by lra. assert (H2 : IZR k < 1) by lra.
    apply lt_IZR in H1, H2. lia. }
  subst k. lra.
Qed.

Lemma norm_congruent (x : R) : exists k : Z, norm x = x + 360 * IZR k.
Proof.
  unfold norm.
  destruct (rem_congruent x 360) as [k1 E1].
  destruct (rem_congruent (rem x 360 + 360) 360) as [k2 E2].
  exists (k1 + k2 + 1)%Z. rewrite E2, E1, !plus_IZR. lra.
Qed.

Lemma norm_period (h : R) (k : Z) : norm (h + 360 * IZR k) = norm h.
Proof.
  destruct (norm_congruent (h + 360 * IZR k)) as [k1 E1].
  destruct (norm_congruent h) as [k2 E2].
  apply (wheel_unique _ _ (k + k1 - k2)); try apply norm_range.
  rewrite E1, E2, minus_IZR, plus_IZR. lra.
Qed.

(** X9.  [norm h] is [h] moved by a whole number of turns into [0, 360):
    it differs from [h] by a multiple of 360, does not change when whole
    turns are added to [h], negative ones included, and is idempotent. *)
Theorem norm_whole_turns (h : R) :
  (exists k : Z, norm h = h + 360 * IZR k) /\
  0 <= norm h < 360 /\
  (forall k : Z, norm (h + 360 * IZR k) = norm h) /\
  norm (norm h) = norm h.
Proof.
  split; [ apply norm_congruent | ]. split; [ apply norm_range | ].
  split; [ apply norm_period | apply norm_id, norm_range ].
Qed.

Lemma fromKeyAngles_length (anchor : R) (count : Z) (keyAngles : list R) :
  (0 <= count)%Z ->
  List.length (fromKeyAngles anchor count keyAngles) = Z.to_nat count.
Proof.
  intros Hc. unfold fromKeyAngles, slice0.
  destruct (Z.ltb_spec count 0) as [ | _]; [ lia | ].
  rewrite length_app, !length_map, length_seq, length_firstn. lia.
Qed.

Lemma evenly_spaced_length (anchor : R) (count : Z) :
  List.length (evenly_spaced anchor count) = Z.to_nat count.
Proof. unfold evenly_spaced. now rewrite length_map, length_seq. Qed.

Lemma run_length (s : strategy) (anchor : R) (c : Z) :
  (1 <= c)%Z -> List.length (run s anchor c) = Z.to_nat c.
Proof.
  intros Hc. destruct s; simpl;
    try apply evenly_spaced_length; try (apply fromKeyAngles_length; lia).
  pose proof (analogous_length anchor c). lia.
Qed.

(** X10.  For a count of at least 1 that an array can hold (at most
    [2^32 - 1]), each of the six strategies returns exactly [count] hues. *)
Theorem strategy_cardinality (name : string) (anchor : R) (count : Z) :
  In name STRATEGY_NAMES -> (1 <= count <= MAX_ARRAY_LENGTH)%Z ->
  exists hues,
    generateHues anchor count name = Returns (Hues hues) /\
    List.length hues = Z.to_nat count.
Proof.
  intros Hin [Hc _]. unfold STRATEGY_NAMES in Hin.
  apply in_map_iff in Hin. destruct Hin as [s [<- _]].
  rewrite generateHues_own. eexists. split; [ reflexivity | ].
  now apply run_length.
Qed.

Lemma strategy_cardinality_witness :
  exists hues,
    generateHues 0 5 "triadic" = Returns (Hues hues) /\
    List.length hues = Z.to_nat 5.
Proof.
  apply (strategy_cardinality "triadic" 0 5);
    [ simpl; tauto | unfold MAX_ARRAY_LENGTH; lia ].
Defined.

Lemma analogous_hue_odd (anchor : R) (i : Z) :
  (1 <= i)%Z -> analogous_hue anchor (2 * i - 1) = norm (anchor + IZR i * 30).
Proof.
  intros Hi. unfold analogous_hue. destruct (Z.eqb_spec (2 * i - 1) 0); [ lia | ].
  replace (2 * i - 1)%Z with (1 + 2 * (i - 1))%Z by lia.
  rewrite Z.odd_add_mul_2. cbn [Z.odd].
  replace ((1 + 2 * (i - 1) + 1) / 2)%Z with i; [ reflexivity | ].
  replace (1 + 2 * (i - 1) + 1)%Z with (i * 2)%Z by lia.
  now rewrite Z.div_mul.
Qed.

Lemma analogous_hue_even (anchor : R) (i : Z) :
  (1 <= i)%Z -> analogous_hue anchor (2 * i) = norm (anchor - IZR i * 30).
Proof.
  intros Hi. unfold analogous_hue. destruct (Z.eqb_spec (2 * i) 0); [ lia | ].
  replace (2 * i)%Z with (0 + 2 * i)%Z by lia.
  rewrite Z.odd_add_mul_2. cbn [Z.odd].
  replace ((0 + 2 * i) / 2)%Z with i; [ reflexivity | ].
  replace (0 + 2 * i)%Z with (i * 2)%Z by lia. now rewrite Z.div_mul.
Qed.

Lemma nth_snoc_inv (hues : list R) (x : R) (f : Z -> R) :
  (forall k, (k < List.length hues)%nat -> nth k hues 0 = f (Z.of_nat k)) ->
  x = f (Z.of_nat (List.length hues)) ->
  forall k, (k < List.length (hues ++ [x]))%nat ->
            nth k (hues ++ [x]) 0 = f (Z.of_nat k).
Proof.
  intros Hinv Hx k Hk. rewrite length_app in Hk. cbn [List.length] in Hk.
  destruct (Nat.lt_ge_cases k (List.length hues)) as [Hin | Hout].
  - rewrite app_nth1 by assumption. now apply Hinv.
  - assert (k = List.length hues) by lia. subst k.
    rewrite app_nth2, Nat.sub_diag by lia. exact Hx.
Qed.

Lemma analogous_loop_nth (anchor : R) (count : Z) (fuel : nat) :
  forall i hues,
    (1 <= i)%Z ->
    (Z.of_nat (List.length hues) = 2 * i - 1 \/ count <= Z.of_nat (List.length hues))%Z ->
    (forall k, (k < List.length hues)%nat ->
               nth k hues 0 = analogous_hue anchor (Z.of_nat k)) ->
    forall k, (k < List.length (analogous_loop anchor count fuel i hues))%nat ->
              nth k (analogous_loop anchor count fuel i hues) 0 =
              analogous_hue anchor (Z.of_nat k).
Proof.
  induction fuel as [ | fuel IH]; intros i hues Hi Hlen Hinv; cbn [analogous_loop];
    [ exact Hinv | ].
  destruct (Z.ltb_spec (Z.of_nat (List.length hues)) count) as [Hlt | Hge];
    [ | exact Hinv ].
  destruct Hlen as [Hlen | Hlen]; [ | lia ].
  pose proof (nth_snoc_inv hues (norm (anchor + IZR i * 30)) (analogous_hue anchor) Hinv)
    as Hinv1.
  rewrite Hlen, analogous_hue_odd in Hinv1 by assumption.
  specialize (Hinv1 eq_refl).
  set (hues1 := hues ++ [norm (anchor + IZR i * 30)]) in *.
  assert (Hlen1 : Z.of_nat (List.length hues1) = (2 * i)%Z).
  { unfold hues1. rewrite length_app. cbn [List.length]. lia. }
  destruct (Z.ltb_spec (Z.of_nat (List.length hues1)) count) as [Hlt' | Hge'].
  - apply IH; [ lia | left; rewrite length_app; cbn [List.length]; lia | ].
    apply nth_snoc_inv; [ exact Hinv1 | ].
    now rewrite Hlen1, analogous_hue_even.
  - apply IH; [ lia | now right | exact Hinv1 ].
Qed.

(** X11.  [analogous] alternates around the anchor in growing multiples of
    30 degrees: index 0 is the anchor as given, index [2i - 1] is
    [norm (anchor + 30 i)] and index [2i] is [norm (anchor - 30 i)]. *)
Theorem analogous_alternates (anchor : R) (count : Z) (k : nat) :
  (Z.of_nat k < Z.max 1 count)%Z ->
  nth k (analogous anchor count) 0 = analogous_hue anchor (Z.of_nat k).
Proof.
  intros Hk. unfold analogous. apply analogous_loop_nth.
  - lia.
  - left. reflexivity.
  - intros j Hj. simpl in Hj. assert (j = 0%nat) by lia. subst j. reflexivity.
  - fold (analogous anchor count).
    pose proof (analogous_length anchor count). lia.
Qed.

Lemma analogous_alternates_witness :
  nth 2 (analogous 400 4) 0 = analogous_hue 400 (Z.of_nat 2).
Proof.
  apply (analogous_alternates 400 4 2). simpl. lia.
Defined.

(** X12.  Consecutive [evenly-spaced] hues are one step of [360 / count]
    apart on the wheel, the first is the normalised anchor, and one more
    step after the last hue leads back to the first. *)
Theorem evenly_spaced_steps (anchor : R) (count : Z) :
  (1 <= count)%Z ->
  nth 0 (evenly_spaced anchor count) 0 = norm anchor /\
  (forall i, (Z.of_nat i + 1 < count)%Z ->
     nth (i + 1) (evenly_spaced anchor count) 0 =
     norm (nth i (evenly_spaced anchor count) 0 + 360 / IZR count)) /\
  norm (nth (Z.to_nat count - 1) (evenly_spaced anchor count) 0 + 360 / IZR count) =
  nth 0 (evenly_spaced anchor count) 0.
Proof.
  intros Hc.
  assert (Hcr : 1 <= IZR count) by now apply IZR_le.
  assert (Hnth : forall i, (Z.of_nat i < count)%Z ->
            nth i (evenly_spaced anchor count) 0 =
            norm (anchor + INR i * (360 / IZR count))).
  { intros i Hi. unfold evenly_spaced.
    rewrite (nth_indep _ 0 (norm (anchor + INR 0 * (360 / IZR count))))
      by (rewrite length_map, length_seq; lia).
    rewrite (map_nth (fun i => norm (anchor + INR i * (360 / IZR count)))).
    rewrite seq_nth by lia. reflexivity. }
  assert (Hstep : forall x, norm (norm x + 360 / IZR count) = norm (x + 360 / IZR count)).
  { intros x. destruct (norm_congruent x) as [k Ek].
    rewrite Ek. rewrite <- (norm_period (x + 360 / IZR count) k). f_equal. ring. }
  split; [ | split ].
  - rewrite Hnth by lia. f_equal. simpl. ring.
  - intros i Hi. rewrite !Hnth by lia. rewrite Hstep. f_equal.
    rewrite plus_INR. simpl. ring.
  - rewrite !Hnth by lia. rewrite Hstep.
    rewrite <- (norm_period (anchor + INR 0 * (360 / IZR count)) 1). f_equal.
    rewrite minus_INR by lia. rewrite INR_IZR_INZ, Z2Nat.id by lia. simpl.
    field. lra.
Qed.

Lemma evenly_spaced_steps_witness :
  nth 0 (evenly_spaced 10 4) 0 = norm 10 /\
  (forall i, (Z.of_nat i + 1 < 4)%Z ->
     nth (i + 1) (evenly_spaced 10 4) 0 =
     norm (nth i (evenly_spaced 10 4) 0 + 360 / IZR 4)) /\
  norm (nth (Z.to_nat 4 - 1) (evenly_spaced 10 4) 0 + 360 / IZR 4) =
  nth 0 (evenly_spaced 10 4) 0.
Proof.
  apply (evenly_spaced_steps 10 4). lia.
Defined.

End HueWheel.

(** ** Gap filling: how many hues, where, and that they are new *)

Section GapFillingResults.

Import JS Cli.

Lemma bestMid_nil : bestMid [] = 0.
Proof. reflexivity. Qed.

Lemma bestMid_in_wheel (hues : list R) :
  Forall in_wheel hues -> in_wheel (bestMid hues).
Proof.
  intros Hw. destruct hues as [ | h hues].
  - rewrite bestMid_nil. unfold in_wheel. lra.
  - destruct (bestMid_first_largest (h :: hues)) as [i [_ [_ H]]];
      [ discriminate | assumption | exact H ].
Qed.




(** X14.  A single hue gets its opposite on the wheel. *)
Theorem fillLargestGaps_single (h : R) :
  fillLargestGaps [h] 1 = [rem (h + 180) 360] /\
  (0 <= h < 180 -> fillLargestGaps [h] 1 = [h + 180]) /\
  (180 <= h < 360 -> fillLargestGaps [h] 1 = [h - 180]).
Proof.
  assert (E : fillLargestGaps [h] 1 = [rem (h + 180) 360]).
  { unfold fillLargestGaps. simpl. unfold bestMid, scan, scan_step, gap_at. simpl.
    destruct (Rlt_dec 0 (360 - h + h)) as [ | Hn]; [ | lra ].
    simpl. do 2 f_equal. lra. }
  split; [ exact E | ]. split; intros Hh; rewrite E; f_equal.
  - apply rem_small. lra.
  - rewrite (rem_period (h + 180) 360 1) by (simpl; lra || lia). simpl. lra.
Qed.

Lemma fillLargestGaps_single_witness : fillLargestGaps [90] 1 = [90 + 180].
Proof.
  apply (proj1 (proj2 (fillLargestGaps_single 90))). lra.
Defined.

Lemma sorted_nth_le (s : list R) :
  Sorted Rle s ->
  forall j k, (j <= k < List.length s)%nat -> nth j s 0 <= nth k s 0.
Proof.
  intros Hs. apply Sorted_StronglySorted in Hs;
    [ | intros x y z Hxy Hyz; lra ].
  induction Hs as [ | x s Hs IH Hall]; intros j k Hjk; simpl in *; [ lia | ].
  destruct j as [ | j]; destruct k as [ | k]; try lia; try lra.
  - rewrite Forall_forall in Hall. apply Hall. apply nth_In. lia.
  - apply IH. lia.
Qed.

Lemma bestMid_fresh (hues : list R) :
  hues <> [] -> Forall in_wheel hues -> ~ In (bestMid hues) hues.
Proof.
  intros Hne Hw Hin.
  destruct (bestMid_first_largest hues Hne Hw) as [i [[Hi [Hmax _]] [Hmid _]]].
  pose proof (sort_sorted hues) as Hsorted.
  assert (Hsw : Forall in_wheel (sort hues)).
  { rewrite Forall_forall in *. intros x Hx. apply Hw.
    now apply (Permutation_in _ (sort_perm hues)). }
  apply (Permutation_in _ (Permutation_sym (sort_perm hues))) in Hin.
  set (s := sort hues) in *.
  destruct (In_nth _ _ 0 Hin) as [j [Hj Ej]].
  pose proof (Forall_nth_wheel s i Hsw Hi) as Wi. unfold in_wheel in Wi.
  assert (Hpos : 0 < gap_at s i).
  { assert (Hlast : 0 < gap_at s (List.length s - 1)).
    { unfold gap_at.
      destruct (Nat.ltb_spec (List.length s - 1 + 1) (List.length s)); [ lia | ].
      pose proof (Forall_nth_wheel s (List.length s - 1) Hsw ltac:(lia)) as H1.
      pose proof (Forall_nth_wheel s 0 Hsw ltac:(lia)) as H0.
      unfold in_wheel in *. lra. }
    specialize (Hmax (List.length s - 1)%nat ltac:(lia)). lra. }
  unfold midpoint in Hmid. rewrite Hmid in Ej. clear Hmid.
  unfold gap_at in Ej, Hpos.
  destruct (Nat.ltb_spec (i + 1) (List.length s)) as [Hlt | Hge].
  - rewrite Nat.mod_small in Ej, Hpos by lia.
    pose proof (Forall_nth_wheel s (i + 1) Hsw Hlt) as Wn. unfold in_wheel in Wn.
    rewrite rem_small in Ej by lra.
    destruct (Nat.le_gt_cases j i) as [Hji | Hji].
    + pose proof (sorted_nth_le s Hsorted j i ltac:(lia)). lra.
    + pose proof (sorted_nth_le s Hsorted (i + 1) j ltac:(lia)). lra.
  - assert (i = List.length s - 1)%nat by lia. subst i.
    pose proof (Forall_nth_wheel s 0 Hsw ltac:(lia)) as W0. unfold in_wheel in W0.
    pose proof (sorted_nth_le s Hsorted j (List.length s - 1) ltac:(lia)) as Hup.
    pose proof (sorted_nth_le s Hsorted 0 j ltac:(lia)) as Hdown.
    set (last := nth (List.length s - 1) s 0) in *.
    destruct (Rlt_dec (last + (360 - last + nth 0 s 0) / 2) 360) as [Hsmall | Hbig].
    + rewrite rem_small in Ej by lra. lra.
    + rewrite (rem_period _ 360 1) in Ej by (simpl; lra || lia). simpl in Ej. lra.
Qed.

(** X15.  Gap filling never repeats a hue: when the given hues lie in
    [0, 360) and are pairwise different, so are the given hues together with
    the hues that [fillLargestGaps] adds. *)
Theorem fillLargestGaps_fresh (hues : list R) (n : nat) :
  hues <> [] -> Forall in_wheel hues -> NoDup hues ->
  NoDup (hues ++ fillLargestGaps hues (Z.of_nat n)).
Proof.
  revert hues. induction n as [ | n IH]; intros hues Hne Hw Hnd.
  - unfold fillLargestGaps. simpl. now rewrite app_nil_r.
  - rewrite fillLargestGaps_succ.
    replace (hues ++ bestMid hues :: fillLargestGaps (hues ++ [bestMid hues]) (Z.of_nat n))
      with ((hues ++ [bestMid hues]) ++ fillLargestGaps (hues ++ [bestMid hues]) (Z.of_nat n))
      by now rewrite <- app_assoc.
    apply IH.
    + destruct hues; discriminate.
    + apply Forall_app. split; [ assumption | ].
      constructor; [ now apply bestMid_in_wheel | constructor ].
    + apply NoDup_app; [ assumption | repeat constructor; intros [] | ].
      intros x Hx [<- | []]. now apply (bestMid_fresh hues).
Qed.

Lemma fillLargestGaps_fresh_witness :
  NoDup ([0; 90] ++ fillLargestGaps [0; 90] (Z.of_nat 2)).
Proof.
  apply (fillLargestGaps_fresh [0; 90] 2).
  - discriminate.
  - apply Forall_cons; [ unfold in_wheel; lra | ].
    apply Forall_cons; [ unfold in_wheel; lra | ].
    apply Forall_nil.
  - apply NoDup_cons; [ | apply NoDup_cons; [ intros [] | apply NoDup_nil ] ].
    intros [H | []]. lra.
Defined.

End GapFillingResults.

(** ** Shade ramps of valid colours *)

Section ShadeRampResults.

Import JS Color Cli Shades.
Local Open Scope string_scope.

Lemma shadeOklch_defined (baseL baseC baseH : R) (level : Z) :
  In level SHADES -> level <> 500%Z ->
  exists L C H, shadeOklch baseL baseC baseH level = Some (L, C, H).
Proof.
  intros Hin Hne. simpl in Hin.
  repeat (destruct Hin as [<- | Hin];
          [ try congruence; do 3 eexists; reflexivity | ]).
  contradiction.
Qed.

(** X16.  The ramp of a valid colour consists of valid colours: each of the
    eleven entries of [generateShades] is accepted by [isValidHex]. *)
Theorem generateShades_valid (hex : string) :
  isValidHex hex = true ->
  Forall (fun e => isValidHex (snd e) = true) (generateShades hex).
Proof.
  intros Hv. destruct (valid_hex_parses hex Hv) as [r [g [b [Hrgb _]]]].
  unfold generateShades, hexToOklch. rewrite Hrgb.
  destruct (rgbToOklch (IZR r) (IZR g) (IZR b)) as [[baseL baseC] baseH].
  apply Forall_forall. intros e He. apply in_map_iff in He.
  destruct He as [level [<- Hin]].
  destruct (Z.eqb_spec level 500) as [-> | Hne]; [ exact Hv | ].
  destruct (shadeOklch_defined baseL baseC baseH level Hin Hne) as [L [C [H ->]]].
  apply oklchToHex_valid.
Qed.

Lemma generateShades_valid_witness :
  Forall (fun e => isValidHex (snd e) = true) (generateShades "#aa5420").
Proof.
  apply (generateShades_valid "#aa5420"). reflexivity.
Defined.

(** X17.  [shadeOklch] is undefined exactly for the level 500 and for levels
    outside the table; every other level keeps the hue of the base colour
    and has a lightness between that of the base colour and the endpoint of
    its side (0.98 for the lighter levels, 0.10 for the darker ones). *)
Theorem shadeOklch_between (baseL baseC baseH : R) (level : Z) :
  (shadeOklch baseL baseC baseH level = None <->
   ~ In level SHADES \/ level = 500%Z) /\
  (forall L C H,
      shadeOklch baseL baseC baseH level = Some (L, C, H) ->
      H = baseH /\
      ((level < 500)%Z -> Rmin baseL LIGHT_END <= L <= Rmax baseL LIGHT_END) /\
      ((500 < level)%Z -> Rmin baseL DARK_END <= L <= Rmax baseL DARK_END)).
Proof.
  assert (Hconv : forall a e t, 0 <= t <= 1 ->
            Rmin a e <= a + (e - a) * t <= Rmax a e).
  { intros a e t Ht. unfold Rmin, Rmax. destruct (Rle_dec a e); split; nra. }
  split.
  - split.
    + intros Hnone.
      destruct (in_dec Z.eq_dec level SHADES) as [Hin | Hout]; [ | now left ].
      destruct (Z.eq_dec level 500) as [ | Hne]; [ now right | exfalso ].
      destruct (shadeOklch_defined baseL baseC baseH level Hin Hne) as [L [C [H E]]].
      congruence.
    + intros [Hout | ->]; [ | reflexivity ]. unfold shadeOklch.
      destruct (Z.ltb_spec level 500) as [Hlt | Hge].
      * destruct (lookup LIGHTER_T level) as [t | ] eqn:Ht; [ exfalso | reflexivity ].
        apply lookup_lighter in Ht. destruct Ht as [Hin _]. apply Hout.
        simpl in Hin. simpl.
        repeat (destruct Hin as [[= <- <-] | Hin]; [ tauto | ]). contradiction.
      * destruct (lookup DARKER_T level) as [t | ] eqn:Ht; [ exfalso | reflexivity ].
        apply lookup_darker in Ht. destruct Ht as [Hin _]. apply Hout.
        simpl in Hin. simpl.
        repeat (destruct Hin as [[= <- <-] | Hin]; [ tauto | ]). contradiction.
  - intros L C H Hs. unfold shadeOklch in Hs.
    destruct (Z.ltb_spec level 500) as [Hlt | Hge].
    + destruct (lookup LIGHTER_T level) as [t | ] eqn:Ht; [ | discriminate ].
      injection Hs as <- <- <-.
      assert (Hr : 0 <= t <= 1).
      { apply lookup_lighter in Ht. destruct Ht as [Hin _]. simpl in Hin.
        repeat (destruct Hin as [[= <- <-] | Hin]; [ lra | ]). contradiction. }
      split; [ reflexivity | ]. split; [ intros _; apply Hconv, Hr | lia ].
    + destruct (lookup DARKER_T level) as [t | ] eqn:Ht; [ | discriminate ].
      injection Hs as <- <- <-.
      assert (Hr : 0 <= t <= 1).
      { apply lookup_darker in Ht. destruct Ht as [Hin _]. simpl in Hin.
        repeat (destruct Hin as [[= <- <-] | Hin]; [ lra | ]). contradiction. }
      split; [ reflexivity | ]. split; [ lia | intros _ ].
      replace (baseL - (baseL - DARK_END) * t) with (baseL + (DARK_END - baseL) * t) by ring.
      apply Hconv, Hr.
Qed.

Lemma shadeOklch_between_witness :
  Rmin 0.5 LIGHT_END <= 0.5 + (LIGHT_END - 0.5) * 0.42 <= Rmax 0.5 LIGHT_END.
Proof.
  destruct (proj2 (shadeOklch_between 0.5 0.1 20 300) _ _ _ eq_refl) as (_ & H & _).
  apply H. lia.
Defined.

End ShadeRampResults.

(** ** [assignNames] *)

Section NamesResults.

Import JS JSText Names.
Local Open Scope string_scope.

Lemma to_int_not_nil (z : Z) :
  Z.to_int z <> Decimal.Pos Decimal.Nil /\ Z.to_int z <> Decimal.Neg Decimal.Nil.
Proof.
  destruct z as [ | p | p]; simpl; split; try discriminate;
    intros [= H]; now apply (Unsigned.to_uint_nonnil p).
Qed.

Lemma Number_toString_inj (a b : Z) :
  Number_toString a = Number_toString b -> a = b.
Proof.
  unfold Number_toString. intros H.
  apply (f_equal NilZero.int_of_string) in H.
  destruct (to_int_not_nil a) as [A1 A2]. destruct (to_int_not_nil b) as [B1 B2].
  rewrite !NilZero.isi in H by assumption.
  injection H as H. apply (f_equal Z.of_int) in H. now rewrite !DecimalZ.of_to in H.
Qed.

Lemma accent_names_length (c : Z) :
  List.length (accent_names c) = Z.to_nat (c - 5).
Proof. unfold accent_names. now rewrite length_map, length_seq. Qed.

Lemma accent_names_shape (c : Z) (x : string) :
  In x (accent_names c) ->
  exists k, x = String "a" (String "c" (String "c" (String "e" (String "n"
                (String "t" (String "-" (Number_toString k))))))).
Proof.
  unfold accent_names. intros H. apply in_map_iff in H.
  destruct H as [k [<- _]]. eexists. reflexivity.
Qed.

Lemma append_cancel_l (p a b : string) : p ++ a = p ++ b -> a = b.
Proof.
  induction p as [ | ch p IH]; simpl; intros H; [ assumption | ].
  injection H as H. now apply IH.
Qed.

Lemma accent_names_nodup (c : Z) : NoDup (accent_names c).
Proof.
  unfold accent_names.
  apply Injective_map_NoDup; [ | apply seq_NoDup ].
  intros j k H. apply append_cancel_l in H.
  apply Number_toString_inj in H. lia.
Qed.

Lemma assignNames_positive (c : Z) :
  (1 <= c)%Z ->
  exists names,
    assignNames (Num c) = Some names /\
    List.length names = Z.to_nat c /\
    nth 0 names "" = "primary" /\
    NoDup names.
Proof.
  intros Hc. unfold assignNames.
  destruct (Z.leb_spec c 5) as [Hle | Hgt].
  + assert (Hcases : c = 1%Z \/ c = 2%Z \/ c = 3%Z \/ c = 4%Z \/ c = 5%Z) by lia.
    destruct Hcases as [-> | [-> | [-> | [-> | ->]]]];
      (eexists; split; [ reflexivity | ]; split; [ reflexivity | ];
       split; [ reflexivity | ];
       repeat (constructor; [ simpl; intuition discriminate | ]); constructor).
  + eexists. split; [ reflexivity | ]. split; [ | split ].
    * rewrite length_app, accent_names_length. simpl. lia.
    * reflexivity.
    * apply NoDup_app.
      -- repeat (constructor; [ simpl; intuition discriminate | ]); constructor.
      -- apply accent_names_nodup.
      -- intros x Hbase Hacc. apply accent_names_shape in Hacc.
         destruct Hacc as [k ->]. simpl in Hbase. intuition discriminate.
Qed.




End NamesResults.

(** ** [parseArgs] *)

Section ParseArgsResults.

Import JS JSText Cli CliMain.
Local Open Scope string_scope.

Lemma parse_loop_colors (all : list string) (n : nat) :
  forall args st,
    (List.length args <= n)%nat -> incl args all ->
    Forall (collected all) (st_colors st) ->
    Forall (collected all) (st_colors (parse_loop args st)).
Proof.
  induction n as [ | n IH]; intros args st Hlen Hincl Hst.
  - destruct args; [ exact Hst | simpl in Hlen; lia ].
  - destruct args as [ | arg rest]; [ exact Hst | ].
    simpl in Hlen.
    assert (Hrest : incl rest all) by (intros x Hx; apply Hincl; now right).
    assert (Harg : In arg all) by (apply Hincl; now left).
    cbn [parse_loop].
    repeat match goal with
           | |- context [if ?b then _ else _] =>
               let E := fresh "E" in destruct b eqn:E
           end;
      try (apply IH; [ lia | assumption | exact Hst ]).
    + destruct rest as [ | value rest']; [ exact Hst | ].
      apply IH; [ simpl in *; lia | | exact Hst ].
      intros x Hx. apply Hrest. now right.
    + destruct rest as [ | value rest']; [ exact Hst | ].
      apply IH; [ simpl in *; lia | | exact Hst ].
      intros x Hx. apply Hrest. now right.
    + apply IH; [ lia | assumption | ]. cbn [st_colors].
      apply Forall_app. split; [ exact Hst | ].
      constructor; [ | constructor ]. left. now split.
    + apply IH; [ lia | assumption | ]. cbn [st_colors].
      apply Forall_app. split; [ exact Hst | ].
      constructor; [ | constructor ]. right. exists arg. now repeat split.
Qed.

Lemma parse_loop_count (n : nat) :
  forall args st,
    (List.length args <= n)%nat ->
    (forall arg, In arg args -> arg <> "--count" /\ arg <> "-c") ->
    st_count (parse_loop args st) = st_count st.
Proof.
  induction n as [ | n IH]; intros args st Hlen Hno.
  - destruct args; [ reflexivity | simpl in Hlen; lia ].
  - destruct args as [ | arg rest]; [ reflexivity | ].
    simpl in Hlen.
    assert (Hrest : forall a, In a rest -> a <> "--count" /\ a <> "-c")
      by (intros a Ha; apply Hno; now right).
    destruct (Hno arg (or_introl eq_refl)) as [N1 N2].
    apply String.eqb_neq in N1, N2.
    cbn [parse_loop]. rewrite N1, N2. cbn [orb].
    repeat match goal with
           | |- context [if ?b then _ else _] =>
               let E := fresh "E" in destruct b eqn:E
           end;
      try (rewrite IH; [ reflexivity | lia | assumption ]).
    destruct rest as [ | value rest']; [ reflexivity | ].
    rewrite IH; [ reflexivity | simpl in *; lia | ].
    intros a Ha. apply Hrest. now right.
Qed.

Lemma bare_hex_valid (arg : string) :
  is_bare_hex arg = true -> isValidHex (String "#" arg) = true.
Proof.
  unfold is_bare_hex, isValidHex. intros H.
  apply andb_true_iff in H. destruct H as [H1 H2].
  now rewrite H1, H2.
Qed.

Lemma parseArgs_collected (argv : list string) :
  Forall (collected (skipn 2 argv)) (colors (parseArgs argv)).
Proof.
  unfold parseArgs. cbn [colors].
  apply (parse_loop_colors _ (List.length (skipn 2 argv)));
    [ lia | apply incl_refl | constructor ].
Qed.

Lemma parseArgs_count_covers (argv : list string) (c : Z) :
  count (parseArgs argv) = Num c ->
  (Z.of_nat (List.length (colors (parseArgs argv))) <= c)%Z.
Proof.
  unfold parseArgs. cbv zeta.
  set (st := parse_loop (skipn 2 argv) _). cbn [count colors].
  destruct (st_count st) as [[ | z] | ]; cbn [Math_max_num];
    intros [= <-]; lia.
Qed.

(** X19.  What [parseArgs] guarantees about its result: every colour comes
    from an argument after the first two, either one that starts with ['#'],
    taken as it is, or a bare run of 3 or 6 hexadecimal digits with ['#'] put
    in front, and the latter are valid colours; a count that is a number is
    at least the number of colours; and without [--count] or [-c] the count
    is the number of colours or 3, whichever is larger. *)
Theorem parseArgs_invariants (argv : list string) :
  Forall (collected (skipn 2 argv)) (colors (parseArgs argv)) /\
  Forall (fun c => startsWith "#" c = true) (colors (parseArgs argv)) /\
  Forall (fun c => In c (skipn 2 argv) \/ isValidHex c = true)
         (colors (parseArgs argv)) /\
  (forall c, count (parseArgs argv) = Num c ->
             (Z.of_nat (List.length (colors (parseArgs argv))) <= c)%Z) /\
  ((forall arg, In arg (skipn 2 argv) -> arg <> "--count" /\ arg <> "-c") ->
   count (parseArgs argv) =
   Num (Z.max (Z.of_nat (List.length (colors (parseArgs argv)))) 3)).
Proof.
  pose proof (parseArgs_collected argv) as Hcol.
  split; [ exact Hcol | ]. split; [ | split; [ | split ] ].
  - eapply Forall_impl; [ | exact Hcol ].
    intros c [[_ H] | [arg [_ [_ ->]]]]; [ exact H | reflexivity ].
  - eapply Forall_impl; [ | exact Hcol ].
    intros c [[H _] | [arg [_ [H ->]]]]; [ now left | right ].
    now apply bare_hex_valid.
  - apply parseArgs_count_covers.
  - intros Hno. unfold parseArgs. cbv zeta.
    pose proof (parse_loop_count (List.length (skipn 2 argv)) (skipn 2 argv)
                  (mkState [] None (Some "evenly-spaced") false false None)
                  (le_n _) Hno) as Hc.
    set (st := parse_loop (skipn 2 argv) _) in *. cbn [count colors].
    rewrite Hc. cbn [st_count Math_max_num]. f_equal. lia.
Qed.

Lemma parseArgs_invariants_witness :
  count (parseArgs ["node"; "palette"; "aa5420"; "--raw"]) =
  Num (Z.max (Z.of_nat (List.length
                (colors (parseArgs ["node"; "palette"; "aa5420"; "--raw"])))) 3).
Proof.
  apply (proj2 (proj2 (proj2 (proj2
           (parseArgs_invariants ["node"; "palette"; "aa5420"; "--raw"]))))).
  intros arg [<- | [<- | []]]; split; discriminate.
Defined.

(** [parseInt(String(n), 10)] is [n] again. *)
Lemma parse_dec_uint_acc (d : Decimal.uint) (acc : positive) :
  parse_dec_digits (NilEmpty.string_of_uint d) (Some (Z.pos acc)) =
  Some (Z.pos (Pos.of_uint_acc d acc)).
Proof.
  revert acc. induction d; intros acc; cbn [NilEmpty.string_of_uint parse_dec_digits Pos.of_uint_acc];
    [ reflexivity | .. ];
    match goal with
    | |- context [dec_value ?c] =>
        let v := eval vm_compute in (dec_value c) in change (dec_value c) with v
    end;
    cbv beta iota; rewrite <- IHd; do 2 f_equal; lia.
Qed.

Lemma parse_dec_uint (d : Decimal.uint) (acc : option Z) :
  d <> Decimal.Nil -> acc = None \/ acc = Some 0%Z ->
  parse_dec_digits (NilEmpty.string_of_uint d) acc = Some (Z.of_N (Pos.of_uint d)).
Proof.
  revert acc. induction d; intros acc Hd Hacc;
    [ congruence | .. ];
    cbn [NilEmpty.string_of_uint parse_dec_digits Pos.of_uint];
    match goal with
    | |- context [dec_value ?c] =>
        let v := eval vm_compute in (dec_value c) in change (dec_value c) with v
    end;
    cbv beta iota.
  - (* a leading zero *)
    replace (Some (10 * match acc with Some a => a | None => 0 end + 0)%Z)
      with (Some 0%Z) by (destruct Hacc as [-> | ->]; reflexivity).
    destruct d; try (apply IHd; [ discriminate | now right ]).
    reflexivity.
  - destruct Hacc as [-> | ->]; apply (parse_dec_uint_acc d 1).
  - destruct Hacc as [-> | ->]; apply (parse_dec_uint_acc d 2).
  - destruct Hacc as [-> | ->]; apply (parse_dec_uint_acc d 3).
  - destruct Hacc as [-> | ->]; apply (parse_dec_uint_acc d 4).
  - destruct Hacc as [-> | ->]; apply (parse_dec_uint_acc d 5).
  - destruct Hacc as [-> | ->]; apply (parse_dec_uint_acc d 6).
  - destruct Hacc as [-> | ->]; apply (parse_dec_uint_acc d 7).
  - destruct Hacc as [-> | ->]; apply (parse_dec_uint_acc d 8).
  - destruct Hacc as [-> | ->]; apply (parse_dec_uint_acc d 9).
Qed.

Lemma parseInt10_pos (p : positive) :
  parseInt10 (NilEmpty.string_of_uint (Pos.to_uint p)) = Num (Z.pos p) /\
  parseInt10 (String "-" (NilEmpty.string_of_uint (Pos.to_uint p))) = Num (Z.neg p).
Proof.
  pose proof (Unsigned.to_uint_nonnil p) as Hnn.
  pose proof (Unsigned.of_to p) as Hof.
  pose proof (parse_dec_uint (Pos.to_uint p) None Hnn (or_introl eq_refl)) as Hp.
  rewrite Hof in Hp.
  split.
  - unfold parseInt10.
    destruct (Pos.to_uint p) as [ | d | d | d | d | d | d | d | d | d | d ];
      [ congruence | .. ];
      cbn [NilEmpty.string_of_uint skip_spaces] in *;
      match goal with
      | |- context [is_space ?c] => change (is_space c) with false
      end; cbv beta iota; rewrite Hp; reflexivity.
  - unfold parseInt10. cbn [skip_spaces]. change (is_space "-") with false.
    cbv beta iota. rewrite Hp. reflexivity.
Qed.

Lemma parseInt10_toString (n : Z) : parseInt10 (Number_toString n) = Num n.
Proof.
  unfold Number_toString. destruct n as [ | p | p].
  - reflexivity.
  - destruct (parseInt10_pos p) as [H _]. cbn [Z.to_int NilZero.string_of_int].
    unfold NilZero.string_of_uint.
    pose proof (Unsigned.to_uint_nonnil p).
    destruct (Pos.to_uint p); [ congruence | exact H .. ].
  - destruct (parseInt10_pos p) as [_ H]. cbn [Z.to_int NilZero.string_of_int].
    unfold NilZero.string_of_uint.
    pose proof (Unsigned.to_uint_nonnil p).
    destruct (Pos.to_uint p); [ congruence | exact H .. ].
Qed.

Lemma parse_loop_hash_arg (arg : string) (rest : list string) (st : ParseState) :
  startsWith "#" arg = true ->
  parse_loop (arg :: rest) st =
  parse_loop rest (mkState (st_colors st ++ [arg])%list (st_count st)
                     (st_strategy st) (st_help st) (st_raw st) (st_mood st)).
Proof.
  intros H. destruct arg as [ | c r]; [ discriminate | ].
  cbn [startsWith] in H. apply Ascii.eqb_eq in H. subst c. reflexivity.
Qed.

Lemma parse_loop_hash_args (cs tail : list string) :
  Forall (fun c => startsWith "#" c = true) cs ->
  forall st,
    parse_loop (cs ++ tail) st =
    parse_loop tail (mkState (st_colors st ++ cs)%list (st_count st)
                       (st_strategy st) (st_help st) (st_raw st) (st_mood st)).
Proof.
  induction 1 as [ | c cs Hc _ IH]; intros st.
  - rewrite app_nil_r. now destruct st.
  - rewrite <- app_comm_cons, (parse_loop_hash_arg c _ st Hc), IH.
    cbn [st_colors st_count st_strategy st_help st_raw st_mood].
    now rewrite <- app_assoc.
Qed.

(** X20.  With colours that start with ['#'] followed by [--count n] or
    [-c n], where [n] is an integer of at most [2^53] in absolute value,
    printed in decimal, [parseArgs] returns these colours and the count [n],
    unless [n] is below the number of colours, which then takes its place
    (so a negative count never survives); strategy, help, raw and mood keep
    their defaults. *)
Theorem parseArgs_count_option (x y flag : string) (cs : list string) (n : Z) :
  Forall (fun c => startsWith "#" c = true) cs ->
  flag = "--count" \/ flag = "-c" ->
  (Z.abs n <= MAX_EXACT_INTEGER)%Z ->
  parseArgs (x :: y :: cs ++ [flag; Number_toString n]) =
  mkArgs cs (Num (Z.max n (Z.of_nat (List.length cs))))
    (Some "evenly-spaced") false false None.
Proof.
  intros Hcs Hflag _. unfold parseArgs. cbn [skipn].
  rewrite (parse_loop_hash_args cs _ Hcs).
  cbn [st_colors st_count st_strategy st_help st_raw st_mood app].
  destruct Hflag as [-> | ->]; cbn [parse_loop];
    [ change (String.eqb "--count" "--help" || String.eqb "--count" "-h") with false
    | change (String.eqb "-c" "--help" || String.eqb "-c" "-h") with false ];
    cbv beta iota;
    [ change (String.eqb "--count" "--raw" || String.eqb "--count" "-r") with false;
      change (String.eqb "--count" "--vibrant") with false;
      change (String.eqb "--count" "--pastel") with false;
      change (String.eqb "--count" "--count" || String.eqb "--count" "-c") with true
    | change (String.eqb "-c" "--raw" || String.eqb "-c" "-r") with false;
      change (String.eqb "-c" "--vibrant") with false;
      change (String.eqb "-c" "--pastel") with false;
      change (String.eqb "-c" "--count" || String.eqb "-c" "-c") with true ];
    cbv beta iota zeta;
    cbn [st_colors st_count st_strategy st_help st_raw st_mood parse_loop];
    rewrite parseInt10_toString; reflexivity.
Qed.

Lemma parseArgs_count_option_witness :
  parseArgs ("node" :: "palette" :: ["#aa5420"] ++ ["-c"; Number_toString (-2)]) =
  mkArgs ["#aa5420"] (Num (Z.max (-2) (Z.of_nat (List.length ["#aa5420"]))))
    (Some "evenly-spaced") false false None.
Proof.
  apply (parseArgs_count_option "node" "palette" "-c" ["#aa5420"] (-2)).
  - apply Forall_cons; [ reflexivity | apply Forall_nil ].
  - now right.
  - unfold MAX_EXACT_INTEGER. lia.
Defined.

End ParseArgsResults.

(** ** [main] *)

Section MainResults.

Import JS JSText Color Shades Strategies Names Cli CliMain.
Local Open Scope string_scope.

Lemma includes_In (s : string) (l : list string) :
  existsb (String.eqb s) l = true <-> In s l.
Proof.
  rewrite existsb_exists. split.
  - intros [x [Hx E]]. apply String.eqb_eq in E. now subst.
  - intros H. exists s. split; [ assumption | apply String.eqb_refl ].
Qed.

Lemma fill_loop_length (n : nat) :
  forall hues, List.length (fill_loop n hues []) = n.
Proof.
  induction n as [ | n IH]; intros hues; simpl; [ reflexivity | ].
  rewrite fill_loop_app. simpl. now rewrite IH.
Qed.

Lemma fill_hues_known (cs : list string) (c : Z) (s : string) :
  In s STRATEGY_NAMES ->
  exists hs,
    fill_hues cs (Num c) s = Some hs /\
    ((1 <= List.length cs)%nat -> (Z.of_nat (List.length cs) <= c)%Z ->
     Z.of_nat (List.length cs + List.length hs) = c).
Proof.
  intros Hs. unfold STRATEGY_NAMES in Hs. apply in_map_iff in Hs.
  destruct Hs as [st [<- _]]. unfold fill_hues.
  destruct ((2 <=? Z.of_nat (List.length cs)) && (Z.of_nat (List.length cs) <? c))%Z.
  - eexists. split; [ reflexivity | ]. intros H1 H2.
    unfold fillLargestGaps. rewrite fill_loop_length. lia.
  - rewrite generateHues_own. eexists. split; [ reflexivity | ].
    intros H1 H2. rewrite length_skipn, run_length by lia. lia.
Qed.

Lemma normalize_length (l : list string) (m : option Mood) :
  List.length (normalize l m) = List.length l.
Proof.
  unfold normalize. destruct (oklch_of (nth 0 l "")) as [[a b] c].
  destruct m as [m | ]; [ destruct (MOODS m) | ];
    rewrite length_map, length_combine, length_seq; lia.
Qed.

Lemma nth_map_indexed {A B : Type} (f : nat * A -> B) (l : list A) (i : nat) (da : A) (db : B) :
  (i < List.length l)%nat ->
  nth i (map f (combine (seq 0 (List.length l)) l)) db = f (i, nth i l da).
Proof.
  intros Hi.
  rewrite (nth_indep _ db (f (i, da))) by (rewrite length_map, length_combine, length_seq; lia).
  rewrite (map_nth f (combine (seq 0 (List.length l)) l) (i, da) i).
  f_equal. rewrite (combine_nth _ _ i i da) by now rewrite length_seq.
  now rewrite seq_nth.
Qed.

Lemma normalize_anchor (l : list string) :
  (1 <= List.length l)%nat -> nth 0 (normalize l None) "" = nth 0 l "".
Proof.
  intros Hl. unfold normalize. destruct (oklch_of (nth 0 l "")) as [[a b] c].
  rewrite (nth_map_indexed _ l 0 "" "") by lia. reflexivity.
Qed.

Lemma map_fst_indexed (names : list string) (l : list string) :
  List.length l = List.length names ->
  map fst (map (fun '(i, c) => (nth i names "undefined", generateShades c))
               (combine (seq 0 (List.length l)) l)) = names.
Proof.
  intros Hlen. apply (nth_ext _ _ "" "").
  - rewrite !length_map, length_combine, length_seq. lia.
  - intros i Hi. rewrite !length_map, length_combine, length_seq in Hi.
    rewrite (map_nth fst _ ("", []) i).
    rewrite (nth_map_indexed _ l i "" ("", [])) by lia.
    cbn [fst]. apply nth_indep. lia.
Qed.

(** The random colour of an empty command line passes the validation. *)
Lemma random_colour_valid (L C H : R) :
  forallb isValidHex [oklchToHex L C H] = true.
Proof. cbn [forallb]. now rewrite oklchToHex_valid. Qed.

(** X21.  [main] validates before it generates: with [--help] it exits with
    code 0; otherwise an invalid colour or a strategy that is not one of the
    six names (a missing one included) makes it exit with code 1; so whenever
    ramps are printed, every colour was valid and the strategy was one of
    the six names. *)
Theorem main_validates_first (a : Args) (random : R) :
  (help a = true -> main_of a random = Exit 0) /\
  (help a = false ->
   (forall s, strategy a = Some s -> ~ In s STRATEGY_NAMES) ->
   main_of a random = Exit 1) /\
  (help a = false -> forallb isValidHex (colors a) = false ->
   main_of a random = Exit 1) /\
  (forall ramps,
      main_of a random = Printed ramps ->
      forallb isValidHex (colors a) = true /\
      exists s, strategy a = Some s /\ In s STRATEGY_NAMES).
Proof.
  unfold main_of. split; [ intros ->; reflexivity | ].
  split; [ | split ].
  - intros -> Hs.
    match goal with
    | |- (if negb (forallb isValidHex ?cs) then _ else _) = _ =>
        destruct (forallb isValidHex cs); [ | reflexivity ]
    end.
    cbn [negb]. destruct (strategy a) as [s | ]; [ | reflexivity ].
    destruct (existsb (String.eqb s) STRATEGY_NAMES) eqn:E; [ | reflexivity ].
    apply includes_In in E. exfalso. now apply (Hs s).
  - intros -> Hv. destruct (colors a) as [ | c cs]; [ discriminate | ].
    now rewrite Hv.
  - intros ramps. destruct (help a); [ discriminate | ].
    destruct (colors a) as [ | c cs] eqn:Ec.
    + destruct (match mood a with Some m => MOODS m | None => (0.55, 0.15) end) as [L C].
      destruct (forallb isValidHex [oklchToHex L C (random * 360)]);
        [ | discriminate ].
      cbn [negb]. destruct (strategy a) as [s | ]; [ | discriminate ].
      destruct (existsb (String.eqb s) STRATEGY_NAMES) eqn:E; [ | discriminate ].
      intros _. split; [ reflexivity | ]. exists s. split; [ reflexivity | ].
      now apply includes_In.
    + destruct (forallb isValidHex (c :: cs)); [ | discriminate ].
      cbn [negb]. destruct (strategy a) as [s | ]; [ | discriminate ].
      destruct (existsb (String.eqb s) STRATEGY_NAMES) eqn:E; [ | discriminate ].
      intros _. split; [ reflexivity | ]. exists s. split; [ reflexivity | ].
      now apply includes_In.
Qed.

Lemma main_validates_first_witness :
  main_of (mkArgs ["#aa5420"] (Num 3) (Some "rainbow") false false None) 0 = Exit 1.
Proof.
  apply (proj1 (proj2 (main_validates_first
           (mkArgs ["#aa5420"] (Num 3) (Some "rainbow") false false None) 0)));
    [ reflexivity | ].
  intros s [= <-]. simpl. intuition discriminate.
Defined.

(** X22.  With at least one colour, all of them valid, a known strategy and a
    count that is a number not below the number of colours and not above
    the largest length of an array ([2^32 - 1]), [main] prints
    one ramp per requested colour, each with the eleven levels, labelled by
    the names of [assignNames]; the first input colour is the level 500 of
    the first ramp unless a mood re-targets it, and with [--raw] every input
    colour is the level 500 of its ramp. *)
Theorem main_palette (a : Args) (random : R) (s : string) (c : Z) :
  help a = false ->
  colors a <> [] ->
  forallb isValidHex (colors a) = true ->
  strategy a = Some s -> In s STRATEGY_NAMES ->
  count a = Num c ->
  (Z.of_nat (List.length (colors a)) <= c <= MAX_ARRAY_LENGTH)%Z ->
  exists ramps,
    main_of a random = Printed ramps /\
    List.length ramps = Z.to_nat c /\
    assignNames (Num c) = Some (map fst ramps) /\
    Forall (fun r => map fst (snd r) = SHADES) ramps /\
    (raw a = true \/ mood a = None ->
     entry (snd (nth 0 ramps ("", []))) 500 = Some (nth 0 (colors a) "")) /\
    (raw a = true ->
     forall i, (i < List.length (colors a))%nat ->
               entry (snd (nth i ramps ("", []))) 500 = Some (nth i (colors a) "")).
Proof.
  intros Hhelp Hne Hvalid Hstrat Hs Hcount [Hlen _].
  destruct (colors a) as [ | c0 cs] eqn:Ec; [ congruence | ].
  assert (Hc1 : (1 <= c)%Z) by (simpl in Hlen; lia).
  destruct (fill_hues_known (c0 :: cs) c s Hs) as [hs [Hfill Hhs]].
  specialize (Hhs ltac:(simpl; lia) Hlen).
  destruct (assignNames_positive c Hc1) as [names [Hnames [Hnlen _]]].
  unfold main_of. rewrite Hhelp, Ec, Hvalid, Hstrat. cbn [negb].
  rewrite (proj2 (includes_In s STRATEGY_NAMES) Hs). cbn [negb].
  rewrite Hcount, Hfill, Hnames.
  destruct (hsl_of (nth 0 (c0 :: cs) "")) as [[aH aS] aL].
  set (base := ((c0 :: cs) ++ map (fun hue => hslToHex hue aS aL) hs)%list).
  assert (Hbase : List.length base = Z.to_nat c).
  { unfold base. rewrite length_app, length_map. lia. }
  set (final := if raw a then base else normalize base (mood a)).
  assert (Hfinal : List.length final = Z.to_nat c).
  { unfold final. destruct (raw a); [ assumption | now rewrite normalize_length ]. }
  eexists. split; [ reflexivity | ].
  split; [ now rewrite length_map, length_combine, length_seq, Nat.min_id | ].
  split; [ f_equal; symmetry; apply map_fst_indexed; lia | ].
  split; [ | split ].
  - apply Forall_forall. intros r Hr. apply in_map_iff in Hr.
    destruct Hr as [[i x] [<- _]]. reflexivity.
  - intros Hcase. rewrite (nth_map_indexed _ final 0 "" ("", [])) by lia.
    cbn [snd].
    assert (E : nth 0 final "" = c0).
    { unfold final. destruct Hcase as [-> | Hm]; [ reflexivity | ].
      destruct (raw a); [ reflexivity | ].
      rewrite Hm, normalize_anchor by lia. reflexivity. }
    rewrite E. reflexivity.
  - intros Hraw i Hi. simpl in Hi, Hlen.
    rewrite (nth_map_indexed _ final i "" ("", [])) by lia.
    cbn [snd]. unfold final. rewrite Hraw. unfold base.
    rewrite app_nth1 by (simpl; lia). reflexivity.
Qed.

Lemma main_palette_witness :
  exists ramps,
    main_of (mkArgs ["#aa5420"] (Num 3) (Some "triadic") false false None) 0
      = Printed ramps /\
    List.length ramps = 3%nat /\
    entry (snd (nth 0 ramps ("", []))) 500 = Some "#aa5420".
Proof.
  assert (Hne : ["#aa5420"] <> @nil string) by discriminate.
  assert (Hin : In "triadic" STRATEGY_NAMES) by (simpl; tauto).
  assert (Hlen : (Z.of_nat (List.length ["#aa5420"]) <= 3 <= MAX_ARRAY_LENGTH)%Z)
    by (unfold MAX_ARRAY_LENGTH; simpl; lia).
  destruct (main_palette (mkArgs ["#aa5420"] (Num 3) (Some "triadic") false false None)
              0 "triadic" 3 eq_refl Hne eq_refl eq_refl Hin eq_refl Hlen)
    as [ramps (H1 & H2 & _ & _ & H3 & _)].
  exists ramps. split; [ exact H1 | ]. split; [ exact H2 | ].
  apply H3. now right.
Defined.

(** X23.  From the command line, [main] ends in an uncaught [TypeError] in
    one situation only: no colour is given and [--count] is zero or negative, so
    that the random colour has no name ([assignNames] returns [undefined]). *)
Theorem main_crashes_iff (argv : list string) (random : R) :
  main argv random = Crash <->
  help (parseArgs argv) = false /\
  colors (parseArgs argv) = [] /\
  count (parseArgs argv) = Num 0 /\
  exists s, strategy (parseArgs argv) = Some s /\ In s STRATEGY_NAMES.
Proof.
  unfold main.
  pose proof (parseArgs_count_covers argv) as Hcount.
  set (a := parseArgs argv) in *.
  assert (Hnames : forall cs : list string,
             (cs = colors a /\ cs <> [] \/ colors a = [] /\ count a <> Num 0) ->
             assignNames (count a) <> None).
  { intros cs Hcs. destruct (count a) as [ | c] eqn:Ec; [ discriminate | ].
    specialize (Hcount c eq_refl).
    assert (Hc1 : (1 <= c)%Z).
    { destruct Hcs as [[-> Hne] | [He Hn0]].
      - destruct (colors a); [ congruence | simpl in Hcount; lia ].
      - rewrite He in Hcount. simpl in Hcount.
        destruct (Z.eq_dec c 0) as [-> | ]; [ congruence | lia ]. }
    destruct (assignNames_positive c Hc1) as [names [-> _]]. discriminate. }
  assert (Hfill : forall cs s, In s STRATEGY_NAMES -> fill_hues cs (count a) s <> None).
  { intros cs s Hs. destruct (count a) as [ | c]; [ discriminate | ].
    destruct (fill_hues_known cs c s Hs) as [hs [-> _]]. discriminate. }
  unfold main_of. split.
  - destruct (help a); [ discriminate | ].
    destruct (colors a) as [ | c0 cs] eqn:Ec.
    + destruct (match mood a with Some m => MOODS m | None => (0.55, 0.15) end) as [L C].
      destruct (forallb isValidHex [oklchToHex L C (random * 360)]);
        [ | discriminate ].
      cbn [negb]. destruct (strategy a) as [s | ]; [ | discriminate ].
      destruct (existsb (String.eqb s) STRATEGY_NAMES) eqn:E; [ | discriminate ].
      apply includes_In in E. cbn [negb].
      destruct (fill_hues _ (count a) s) as [hs | ] eqn:Ef;
        [ | exfalso; now apply (Hfill _ s E) in Ef ].
      destruct (hsl_of _) as [[aH aS] aL].
      destruct (assignNames (count a)) as [names | ] eqn:En; [ discriminate | ].
      intros _. split; [ reflexivity | ]. split; [ reflexivity | ].
      split; [ | now exists s ].
      destruct (count a) as [ | c] eqn:Ecount; [ discriminate En | ].
      destruct (Z.eq_dec c 0) as [-> | Hn0]; [ reflexivity | exfalso ].
      apply (Hnames []); [ right; split; [ reflexivity | congruence ] | ].
      first [ exact En | reflexivity ].
    + destruct (forallb isValidHex (c0 :: cs)); [ | discriminate ].
      cbn [negb]. destruct (strategy a) as [s | ]; [ | discriminate ].
      destruct (existsb (String.eqb s) STRATEGY_NAMES) eqn:E; [ | discriminate ].
      apply includes_In in E. cbn [negb].
      destruct (fill_hues _ (count a) s) as [hs | ] eqn:Ef;
        [ | exfalso; now apply (Hfill _ s E) in Ef ].
      destruct (hsl_of _) as [[aH aS] aL].
      destruct (assignNames (count a)) as [names | ] eqn:En; [ discriminate | ].
      exfalso. apply (Hnames (c0 :: cs)); [ left; split; [ reflexivity | discriminate ] | ].
      first [ exact En | reflexivity ].
  - intros (Hh & Hc & Hn & s & Hs & Hin).
    rewrite Hh, Hc, Hs, Hn.
    destruct (match mood a with Some m => MOODS m | None => (0.55, 0.15) end) as [L C].
    rewrite random_colour_valid. cbn [negb].
    rewrite (proj2 (includes_In s STRATEGY_NAMES) Hin). cbn [negb].
    destruct (fill_hues_known [oklchToHex L C (random * 360)] 0 s Hin) as [hs [-> _]].
    destruct (hsl_of _) as [[aH aS] aL]. reflexivity.
Qed.

Lemma main_crashes_iff_witness :
  main ["node"; "palette"; "--count"; "0"] 0 = Crash.
Proof.
  apply (main_crashes_iff ["node"; "palette"; "--count"; "0"] 0).
  split; [ reflexivity | ]. split; [ reflexivity | ]. split; [ reflexivity | ].
  exists "evenly-spaced". split; [ reflexivity | simpl; tauto ].
Defined.

End MainResults.
